(** * Payload: MongoDB query building and JSON-schema derivation

    A shallow embedding of

    - [buildSearchParam] (db-mongodb, queries),
    - [buildQuery] (db-mongodb, queries/buildQuery.ts),
    - [fieldsToJSONSchema], [entityToJSONSchema] and [configToJSONSchema]
      (payload, utilities/configToJSONSchema.ts),

    together with the properties the specification states about them. *)

From Stdlib Require Import ZArith String Ascii List Lia Bool.
From stdpp Require Import base option strings list gmap.

Set Warnings "-register-all".

Import ListNotations.
Local Open Scope string_scope.
Local Open Scope list_scope.

(** ** JavaScript values and completions *)

Module JS.

(** JavaScript values as they occur in filters and schemas.  Objects are
    key/value lists in insertion order (JavaScript lists integer-like
    keys first; nothing below depends on the order of keys). *)
Inductive Value : Type :=
| VUndefined
| VNull
| VBool (b : bool)
| VNum (n : Z)
| VNaN
| VStr (s : string)
| VObjectId (hex : string)
| VArr (items : list Value)
| VObj (entries : list (string * Value)).

(** [Boolean(v)]. *)
Definition truthy (v : Value) : bool :=
  match v with
  | VUndefined | VNull | VNaN => false
  | VBool b => b
  | VNum n => negb (n =? 0)%Z
  | VStr s => negb (String.eqb s "")
  | VObjectId _ | VArr _ | VObj _ => true
  end.

(** [Boolean(s)] on a string. *)
Definition truthyStr (s : string) : bool := negb (String.eqb s "").

(** A computed property key: [undefined] prints as ["undefined"]. *)
Definition propertyKey (k : option string) : string := default "undefined" k.

Inductive Exn : Type :=
| TypeError (what : string)
| Error (message : string)
| MissingEditorProp (fieldName : option string)
| QueryError (errors : list Value).

(** How an evaluation ends: with a value, or with a thrown exception. *)
Inductive Completion (A : Type) : Type :=
| Normal (a : A)
| Abrupt (e : Exn).
Arguments Normal {A} a.
Arguments Abrupt {A} e.

End JS.

(** ** JavaScript strings *)

Module JSString.

(** [s.replace(/__/g, '.')]: leftmost, non-overlapping matches. *)
Fixpoint replaceDoubleUnderscore (s : string) : string :=
  match s with
  | String c1 rest1 =>
      match rest1 with
      | String c2 rest2 =>
          if (Ascii.eqb c1 "_" && Ascii.eqb c2 "_")%bool
          then String "." (replaceDoubleUnderscore rest2)
          else String c1 (replaceDoubleUnderscore rest1)
      | EmptyString => s
      end
  | EmptyString => EmptyString
  end.

(** [s.endsWith(suffix)]. *)
Definition endsWith (s suffix : string) : bool :=
  let n := String.length s in
  let m := String.length suffix in
  (m <=? n)%nat && String.eqb (substring (n - m) m s) suffix.

(** [s.split(sep)] for a one-character separator: every occurrence of
    the separator cuts, so adjacent separators give empty pieces and the
    empty string gives one empty piece. *)
Fixpoint split (sep : ascii) (s : string) : list string :=
  match s with
  | EmptyString => [EmptyString]
  | String c rest =>
      if Ascii.eqb c sep then EmptyString :: split sep rest
      else match split sep rest with
           | w :: ws => String c w :: ws
           | [] => [String c EmptyString]
           end
  end.

(** [xs.join(sep)]. *)
Fixpoint join (sep : string) (xs : list string) : string :=
  match xs with
  | [] => EmptyString
  | [x] => x
  | x :: rest => x +:+ sep +:+ join sep rest
  end.

(** The character class of [/[\\^$*+?.()|[\]{}]/]. *)
Definition isRegexMeta (c : ascii) : bool :=
  existsb (Ascii.eqb c)
    ["\"; "^"; "$"; "*"; "+"; "?"; "."; "("; ")"; "|"; "["; "]"; "{"; "}"]%char.

(** [word.replace(/[\\^$*+?.()|[\]{}]/g, '\\$&')]: every character of the
    class is preceded by a backslash. *)
Fixpoint escapeRegex (s : string) : string :=
  match s with
  | EmptyString => EmptyString
  | String c rest =>
      if isRegexMeta c then String "\" (String c (escapeRegex rest))
      else String c (escapeRegex rest)
  end.

(** How often [c] occurs in [s]. *)
Fixpoint occurrences (c : ascii) (s : string) : nat :=
  match s with
  | EmptyString => 0
  | String c' rest => (if Ascii.eqb c' c then 1 else 0) + occurrences c rest
  end.

(** A pattern in which no character of the class stands on its own:
    each one directly follows a backslash that introduces it. *)
Fixpoint wellEscaped (s : string) : bool :=
  match s with
  | EmptyString => true
  | String c rest =>
      if Ascii.eqb c "\" then
        match rest with
        | String c' rest' => isRegexMeta c' && wellEscaped rest'
        | EmptyString => false
        end
      else negb (isRegexMeta c) && wellEscaped rest
  end.

End JSString.

(** ** The query builder *)

Module Query.

Import JS JSString.

Inductive IDType : Type := IDNumber | IDText.

Definition IDType_name (t : IDType) : string :=
  match t with IDNumber => "number" | IDText => "text" end.

(** [field.relationTo]: absent, one slug, or an array of slugs. *)
Inductive RelationTo : Type :=
| RelAbsent
| RelOne (slug : string)
| RelMany (slugs : list string).

(** The attributes of a [Field] that the query builder reads. *)
Record Field : Type := mkField {
  name : string;
  type : string;
  relationTo : RelationTo
}.

Record PathToQuery : Type := mkPathToQuery {
  collectionSlug : option string;
  complete : bool;
  field : Field;
  path : string
}.

(** [payload.collections[slug]]: the custom identifier type and the
    fields of [config]. *)
Record Collection : Type := mkCollection {
  customIDType : option IDType;
  config_fields : list Field
}.

(** [payload.collections] and the entries [{ slug, fields }] of
    [payload.globals.config]. *)
Record Payload : Type := mkPayload {
  collections : gmap string Collection;
  globals_config : list (string * list Field)
}.

(** [payload.collections[slug]?.customIDType]. *)
Definition customIDTypeOf (payload : Payload) (slug : option string) : option IDType :=
  collections payload !! propertyKey slug ≫= customIDType.

(** A [$lookup] pipeline stage. *)
Record Lookup : Type := mkLookup {
  as_ : string;
  foreignField : string;
  from : string;
  localField : string
}.

Record SearchParam : Type := mkSearchParam {
  sp_path : option string;
  sp_rawQuery : option Value;
  sp_value : option Value
}.

(** What [sanitizeQueryValue] hands back. *)
Record Sanitized : Type := mkSanitized {
  s_operator : option string;
  s_rawQuery : Value;
  s_val : Value
}.

Record Args : Type := mkArgs {
  a_collectionSlug : option string;
  a_fields : list Field;
  a_globalSlug : option string;
  a_incomingPath : string;
  a_locale : option string;
  a_operator : string;
  a_payload : Payload;
  a_val : Value
}.

(** Modelled from the spec: [validOperators] (imported from
    payload/shared, not in this part of the repository) is the fixed closed
    operator set of the specification's data model. *)
Definition validOperators : list string :=
  [ "equals"; "not_equals"; "in"; "not_in"; "all"; "exists";
    "greater_than"; "greater_than_equal"; "less_than"; "less_than_equal";
    "like"; "contains"; "within"; "intersects"; "near" ].

Definition includes (xs : list string) (x : string) : bool :=
  existsb (String.eqb x) xs.

(** [slug.endsWith('s') ? slug : `${slug}s`]. *)
Definition lookupFrom (slug : string) : string :=
  if endsWith slug "s" then slug else slug +:+ "s".

(** The mutable objects the caller hands in. *)
Record Store : Type := mkStore {
  pipeline : list Lookup;
  projection : option (gmap string bool)
}.

Definition pushStage (l : Lookup) (st : Store) : Store :=
  mkStore (pipeline st ++ [l]) (projection st).

Definition hideInProjection (key : string) (st : Store) : Store :=
  mkStore (pipeline st) (insert key false <$> projection st).

(** State of the [for] loop that emits the [$lookup] stages. *)
Record Loop : Type := mkLoop {
  currentPath : option string;
  isID : bool;
  store : Store
}.

(** [i + 1 === paths.length - 1 && paths[i + 1].path === 'id'] *)
Definition nextIsFinalID (paths : list PathToQuery) (i : nat) : bool :=
  (i + 1 =? length paths - 1)%nat &&
  match paths !! (i + 1)%nat with
  | Some next => String.eqb (path next) "id"
  | None => false
  end.

(** The loop of lines 113-151, run from index [i] over the segments
    [rest] still to visit ([rest] is [paths] without its first [i]
    entries).  The loop state is returned also when an exception ends
    the loop, since the stages pushed so far stay in the pipeline. *)
Fixpoint lookupLoop (paths rest : list PathToQuery) (i : nat) (st : Loop)
  : Completion unit * Loop :=
  match rest with
  | [] => (Normal tt, st)
  | pathToQuery :: rest' =>
      let cur :=
        match currentPath st with
        | Some c => if truthyStr c then c else path pathToQuery
        | None => path pathToQuery
        end in
      if nextIsFinalID paths i then
        (Normal tt, mkLoop (Some cur) true (store st))
      else if (i =? 0)%nat then
        lookupLoop paths rest' (S i) (mkLoop (Some cur) (isID st) (store st))
      else
        match collectionSlug pathToQuery with
        | None =>
            (Abrupt (TypeError "pathToQuery.collectionSlug.endsWith"),
             mkLoop (Some cur) (isID st) (store st))
        | Some slug =>
            let stage :=
              {| as_ := "_" +:+ cur;
                 foreignField := "_id";
                 from := lookupFrom slug;
                 localField := if (i =? 1)%nat then cur else "_" +:+ cur |} in
            let st1 := pushStage stage (store st) in
            let st2 := if (i =? 1)%nat then hideInProjection ("_" +:+ cur) st1 else st1 in
            let cur' := if truthyStr cur then cur +:+ "." +:+ path pathToQuery
                        else path pathToQuery in
            lookupLoop paths rest' (S i) (mkLoop (Some cur') (isID st) st2)
        end
  end.

(** The path the filter is put on once the stages were considered
    (lines 153-165); [p0] is [paths[0]]. *)
Definition joinedPath (paths : list PathToQuery) (p0 : PathToQuery) : string :=
  if (length paths =? 2)%nat &&
     match paths !! 1%nat with
     | Some p1 => String.eqb (path p1) "id"
     | None => false
     end
  then path p0
  else
    "_" +:+ join "."
      (omap (fun x : option string => x ≫= fun s => if truthyStr s then Some s else None)
         (imap (fun i p => if nextIsFinalID paths i then None else Some (path p)) paths)).

(** Following the specification's words, for comparison with
    [likeFragment] below: the value "tokenized on whitespace", that is
    cut at every run of whitespace characters, no token being empty. *)
Definition isWhitespace (c : ascii) : bool :=
  existsb (Ascii.eqb c) [" "; "009"; "010"; "011"; "012"; "013"]%char.

Fixpoint whitespaceTokens (s : string) : list string :=
  match s with
  | EmptyString => []
  | String c rest =>
      if isWhitespace c then whitespaceTokens rest
      else
        match rest with
        | String c' _ =>
            if isWhitespace c' then String c EmptyString :: whitespaceTokens rest
            else match whitespaceTokens rest with
                 | w :: ws => String c w :: ws
                 | [] => [String c EmptyString]
                 end
        | EmptyString => [String c EmptyString]
        end
  end.

(** [Array.isArray(field.relationTo) ? field.relationTo : [field.relationTo]] *)
Definition relationTargets (rel : RelationTo) : list (option string) :=
  match rel with
  | RelMany slugs => Some <$> slugs
  | RelOne slug => [Some slug]
  | RelAbsent => [None]
  end.

(** Lines 221-230: all of [words] must match, each as a
    case-insensitive partial match with its metacharacters escaped. *)
Definition likeConjunction (path : string) (words : list string) : Value :=
  VObj [("$and",
         VArr (map (fun word =>
                      VObj [(path, VObj [("$options", VStr "i");
                                         ("$regex", VStr (escapeRegex word))])])
                 words))].

(** Following the specification's words: the conjunction over the
    whitespace-separated tokens of the value. *)
Definition likeFragmentByWhitespace (path : string) (s : string) : Value :=
  likeConjunction path (whitespaceTokens s).

Section BuildSearchParam.

(** Collaborators defined in other files of the package. *)
Variable getLocalizedPaths :
  option string -> list Field -> option string -> string -> option string ->
  Payload -> list PathToQuery.
Variable sanitizeQueryValue :
  Field -> bool -> string -> string -> Value -> Sanitized.
Variable operatorMap : string -> option string.
(** The exception, if any, with which the constructor of bson-objectid
    rejects a string. *)
Variable objectIdFault : string -> option Exn.
(** [mongoose.Types.ObjectId.isValid]. *)
Variable isValidObjectId : string -> bool.
Variable parseFloat : string -> Value.

(** [new ObjectId(s)] and [ObjectId(s)]. *)
Definition ObjectId (s : string) : Completion Value :=
  match objectIdFault s with
  | Some e => Abrupt e
  | None => Normal (VObjectId s)
  end.

(** Lines 48-51. *)
Definition sanitizePath (incomingPath : string) : string :=
  let sanitizedPath := replaceDoubleUnderscore incomingPath in
  if String.eqb sanitizedPath "id" then "_id" else sanitizedPath.

(** Lines 53-85: the resolved segments and [hasCustomID]. *)
Definition resolvePaths (a : Args) : list PathToQuery * bool :=
  let sanitizedPath := sanitizePath (a_incomingPath a) in
  if String.eqb sanitizedPath "_id" then
    let customIDFieldType := customIDTypeOf (a_payload a) (a_collectionSlug a) in
    let '(idFieldType, hasCustomID) :=
      match customIDFieldType with
      | Some t => (t, true)
      | None => (IDText, false)
      end in
    ([ {| collectionSlug := a_collectionSlug a;
          complete := true;
          field := {| name := "id"; type := IDType_name idFieldType;
                      relationTo := RelAbsent |};
          path := "_id" |} ],
     hasCustomID)
  else
    (getLocalizedPaths (a_collectionSlug a) (a_fields a) (a_globalSlug a)
       sanitizedPath (a_locale a) (a_payload a),
     false).

(** [{ [path]: { [operatorKey]: value } }] *)
Definition comparison (path : string) (operatorKey : option string) (v : Value) : Value :=
  VObj [(path, VObj [(propertyKey operatorKey, v)])].

(** Does any declared target collection use numeric identifiers
    (lines 194-203)? *)
Definition hasNumberIDRelation (payload : Payload) (rel : RelationTo) : bool :=
  existsb (fun relationTo =>
             match customIDTypeOf payload relationTo with
             | Some IDNumber => true
             | _ => false
             end) (relationTargets rel).

(** Lines 175-216: the branches tried for a relationship or upload
    field that is compared in place. *)
Definition multiIDBranches (payload : Payload) (f : Field) (path : string)
    (operatorKey : option string) (formattedValue : Value)
  : Completion (list Value) :=
  let first := comparison path operatorKey formattedValue in
  match formattedValue with
  | VStr s =>
      if isValidObjectId s then
        match ObjectId s with
        | Normal oid => Normal [first; comparison path operatorKey oid]
        | Abrupt e => Abrupt e
        end
      else if hasNumberIDRelation payload (relationTo f) then
        Normal [first; comparison path operatorKey (parseFloat s)]
      else Normal [first]
  | _ => Normal [first]
  end.

(** Lines 218-233: the fragment of the [like] operator. *)
Definition likeFragment (path : string) (s : string) : Value :=
  likeConjunction path (split " " s).

(** Lines 172-250: from the formatted operator and value to the
    search parameter. *)
Definition buildFragment (payload : Payload) (paths : list PathToQuery) (f : Field)
    (path : string) (formattedOperator : option string) (formattedValue : Value)
  : Completion (option SearchParam) :=
  match formattedOperator with
  | Some op =>
      if truthyStr op && includes validOperators op then
        let operatorKey := operatorMap op in
        (* lines 218-247 *)
        let ordinary :=
          match String.eqb op "like", formattedValue with
          | true, VStr s => mkSearchParam None None (Some (likeFragment path s))
          | _, _ =>
              match operatorKey with
              | Some k =>
                  if truthyStr k
                  then mkSearchParam (Some path) None (Some (VObj [(k, formattedValue)]))
                  else mkSearchParam (Some path) None (Some formattedValue)
              | None => mkSearchParam (Some path) None (Some formattedValue)
              end
          end in
        if (length paths <? 2)%nat &&
           (String.eqb (type f) "relationship" || String.eqb (type f) "upload")
        then
          let multiIDCondition :=
            match operatorKey with
            | Some k => if String.eqb k "$ne" then "$and" else "$or"
            | None => "$or"
            end in
          match multiIDBranches payload f path operatorKey formattedValue with
          | Abrupt e => Abrupt e
          | Normal branches =>
              if (1 <? length branches)%nat then
                Normal (Some (mkSearchParam None None
                                (Some (VObj [(multiIDCondition, VArr branches)]))))
              else Normal (Some ordinary)
          end
        else Normal (Some ordinary)
      else Normal None
  | None => Normal None
  end.

(** Line 167-169: [new ObjectId(formattedValue)] for a string value
    when the path ended in the relationship's [id]. *)
Definition coerceID (isID : bool) (formattedValue : Value) : Completion Value :=
  if isID then
    match formattedValue with
    | VStr s => ObjectId s
    | v => Normal v
    end
  else Normal formattedValue.

(** [buildSearchParam]: the returned search parameter ([None] is
    [undefined]) or the exception thrown, and the caller's pipeline
    and projection as the call leaves them. *)
Definition buildSearchParam (a : Args) (st : Store)
  : Completion (option SearchParam) * Store :=
  let '(paths, hasCustomID) := resolvePaths a in
  match paths with
  | [] => (Abrupt (TypeError "paths[0].path"), st)
  | p0 :: _ =>
      let f := field p0 in
      if truthyStr (path p0) then
        let result := sanitizeQueryValue f hasCustomID (a_operator a) (path p0) (a_val a) in
        if truthy (s_rawQuery result) then
          (Normal (Some (mkSearchParam None None (Some (s_rawQuery result)))), st)
        else if (1 <? length paths)%nat then
          let '(c, lp) := lookupLoop paths paths 0 (mkLoop None false st) in
          match c with
          | Abrupt e => (Abrupt e, store lp)
          | Normal _ =>
              match coerceID (isID lp) (s_val result) with
              | Abrupt e => (Abrupt e, store lp)
              | Normal formattedValue =>
                  (buildFragment (a_payload a) paths f (joinedPath paths p0)
                     (s_operator result) formattedValue,
                   store lp)
              end
          end
        else
          (buildFragment (a_payload a) paths f (path p0)
             (s_operator result) (s_val result),
           st)
      else (Normal None, st)
  end.

End BuildSearchParam.

Section BuildQuery.

(** [parseParams] (queries/parseParams.ts) is defined in another file;
    it is handed exactly the arguments below, together with the caller's
    pipeline and projection. *)
Variable parseParams :
  option string -> option (list Field) -> option string -> option string ->
  Payload -> Value -> Store -> Completion Value * Store.

(** Lines 38-48 of buildQuery.ts. *)
Definition queryFields (collectionSlug : option string)
    (versionsFields : option (list Field)) (globalSlug : option string)
    (payload : Payload) : Completion (option (list Field)) :=
  match versionsFields with
  | Some fields => Normal (Some fields)
  | None =>
      let fromGlobal :=
        match globalSlug with
        | Some g =>
            if truthyStr g then
              match List.find (fun c => String.eqb (fst c) g) (globals_config payload) with
              | Some globalConfig => Normal (Some (snd globalConfig))
              | None => Abrupt (TypeError "globalConfig.fields")
              end
            else Normal None
        | None => Normal None
        end in
      match fromGlobal with
      | Abrupt e => Abrupt e
      | Normal fields =>
          match collectionSlug with
          | Some c =>
              if truthyStr c then
                match collections payload !! c with
                | Some collection => Normal (Some (config_fields collection))
                | None => Abrupt (TypeError "payload.collections[collectionSlug].config")
                end
              else Normal fields
          | None => Normal fields
          end
      end
  end.

(** [buildQuery] of the plugin made for [collectionSlug] and
    [versionsFields] (lines 30-66 of buildQuery.ts). *)
Definition buildQuery (collectionSlug : option string)
    (versionsFields : option (list Field))
    (globalSlug locale : option string) (payload : Payload) (where_ : Value)
    (st : Store) : Completion Value * Store :=
  match queryFields collectionSlug versionsFields globalSlug payload with
  | Abrupt e => (Abrupt e, st)
  | Normal fields =>
      let errors : list Value := [] in
      let '(result, st') :=
        parseParams collectionSlug fields globalSlug locale payload where_ st in
      match result with
      | Abrupt e => (Abrupt e, st')
      | Normal result =>
          if (0 <? length errors)%nat then (Abrupt (QueryError errors), st')
          else (Normal result, st')
      end
  end.

End BuildQuery.

End Query.

(** ** Schema derivation *)

Module Schema.

Import JS.

(** *** Objects, maps and sets *)

Definition Obj : Type := list (string * Value).

(** [o[k] = v] and [Map.prototype.set]: an existing key keeps its place
    and takes the new value, a new key goes last. *)
Fixpoint objSet (k : string) (v : Value) (o : Obj) : Obj :=
  match o with
  | [] => [(k, v)]
  | (k', v') :: rest =>
      if String.eqb k' k then (k, v) :: rest else (k', v') :: objSet k v rest
  end.

Fixpoint objGet (k : string) (o : Obj) : option Value :=
  match o with
  | [] => None
  | (k', v') :: rest => if String.eqb k' k then Some v' else objGet k rest
  end.

(** [{ ...dst, ...src }] once [dst] is built: the entries of [src] are
    assigned one after the other. *)
Definition objSpread (src dst : Obj) : Obj :=
  fold_left (fun acc kv => objSet (fst kv) (snd kv) acc) src dst.

(** [Set.prototype.add]. *)
Definition setAdd (x : string) (s : list string) : list string :=
  if existsb (String.eqb x) s then s else s ++ [x].

Definition strings (xs : list string) : Value := VArr (VStr <$> xs).

(** The interface-name registry, a [Map<string, JSONSchema4>]. *)
Definition Registry : Type := Obj.

(** Computations over mutable state [S] that may throw; the state is
    returned in either case, as the writes made before a throw stay. *)
Definition ST (S A : Type) : Type := S -> Completion A * S.

Definition ret {S A} (a : A) : ST S A := fun s => (Normal a, s).

Definition throw {S A} (e : Exn) : ST S A := fun s => (Abrupt e, s).

Definition bind {S A B} (m : ST S A) (k : A -> ST S B) : ST S B :=
  fun s =>
    match m s with
    | (Normal a, s') => k a s'
    | (Abrupt e, s') => (Abrupt e, s')
    end.

Notation "'let*' x ':=' m 'in' k" := (bind m (fun x => k))
  (at level 10, x name, m at level 100, k at level 200).

(** Field-level derivation only writes the registry. *)
Abbreviation M := (ST Registry).

Definition registrySet (k : string) (v : Value) : M unit :=
  fun reg => (Normal tt, objSet k v reg).

Section Traversals.
Context {S A B : Type}.

(** [xs.reduce(step, init)] and [xs.forEach] over an accumulator. *)
Section Fold.
Variable step : A -> B -> ST S B.
Fixpoint foldM (xs : list A) (acc : B) : ST S B :=
  match xs with
  | [] => ret acc
  | x :: rest => let* acc' := step x acc in foldM rest acc'
  end.
End Fold.

(** [xs.map(f)]. *)
Section Map.
Variable f : A -> ST S B.
Fixpoint mapM (xs : list A) : ST S (list B) :=
  match xs with
  | [] => ret []
  | x :: rest => let* y := f x in let* ys := mapM rest in ret (y :: ys)
  end.
End Map.
End Traversals.

(** *** The field model *)

Inductive RelationTo : Type :=
| RelOne (slug : string)
| RelMany (slugs : list string).

(** A select or radio option: a bare string or [{ label, value }]. *)
Inductive Option : Type :=
| OptionString (s : string)
| OptionObject (label value : string).

(** [collectionIDFieldTypes]: slug to ['number'] or ['string']. *)
Definition IDFieldTypes : Type := gmap string string.

(** [field.editor].  The [outputSchema] of a sanitized editor is handed
    [collectionIDFieldTypes], [isRequired] and the registry (the field
    and config it also receives are the ones it was configured for); it
    returns the field schema and the registry entries it sets. *)
Inductive Editor : Type :=
| EditorAbsent
| EditorFunction
| EditorSanitized
    (outputSchema : option (IDFieldTypes -> bool -> Registry -> Value * list (string * Value))).

(** Attributes every field may carry: [required === true], a truthy
    [admin.condition], and the [typescriptSchema] overrides. *)
Record Base : Type := mkBase {
  required : bool;
  condition : bool;
  typescriptSchema : list (Value -> Value)
}.

Record Block (F : Type) : Type := mkBlock {
  block_slug : string;
  block_interfaceName : option string;
  block_fields : list F
}.
Arguments mkBlock {F}.
Arguments block_slug {F}.
Arguments block_interfaceName {F}.
Arguments block_fields {F}.

Record Tab (F : Type) : Type := mkTab {
  tab_name : option string;
  tab_fields : list F
}.
Arguments mkTab {F}.
Arguments tab_name {F}.
Arguments tab_fields {F}.

(** [field.type] with the attributes of each kind; [KOther] is any type
    the [switch] has no case for. *)
Inductive Kind (F : Type) : Type :=
| KText (hasMany : bool)
| KTextarea
| KCode
| KEmail
| KDate
| KNumber (hasMany : bool)
| KCheckbox
| KJson (schema : Value)
| KRichText (editor : Editor)
| KRadio (options : list Option)
| KSelect (options : list Option) (hasMany : bool)
| KPoint
| KJoin (collection : string)
| KUpload (relationTo : RelationTo) (hasMany : bool)
| KRelationship (relationTo : RelationTo) (hasMany : bool)
| KBlocks (blocks : list (Block F))
| KArray (interfaceName : option string) (fields : list F)
| KRow (fields : list F)
| KCollapsible (fields : list F)
| KTabs (tabs : list (Tab F))
| KGroup (interfaceName : option string) (fields : list F)
| KUI
| KOther (type : string).
Arguments KText {F}.
Arguments KTextarea {F}.
Arguments KCode {F}.
Arguments KEmail {F}.
Arguments KDate {F}.
Arguments KNumber {F}.
Arguments KCheckbox {F}.
Arguments KJson {F}.
Arguments KRichText {F}.
Arguments KRadio {F}.
Arguments KSelect {F}.
Arguments KPoint {F}.
Arguments KJoin {F}.
Arguments KUpload {F}.
Arguments KRelationship {F}.
Arguments KBlocks {F}.
Arguments KArray {F}.
Arguments KRow {F}.
Arguments KCollapsible {F}.
Arguments KTabs {F}.
Arguments KGroup {F}.
Arguments KUI {F}.
Arguments KOther {F}.

Inductive Field : Type :=
| MkField (name : option string) (base : Base) (kind : Kind Field).

Definition field_name (f : Field) : option string :=
  match f with MkField name _ _ => name end.
Definition field_base (f : Field) : Base :=
  match f with MkField _ base _ => base end.
Definition field_kind (f : Field) : Kind Field :=
  match f with MkField _ _ kind => kind end.

(** The layout kinds of the specification's data model. *)
Definition isLayoutKind {F} (k : Kind F) : bool :=
  match k with
  | KRow _ | KCollapsible _ | KTabs _ | KUI => true
  | _ => false
  end.

(** Modelled from the spec: [fieldAffectsData] (fields/config/types.ts,
    not in this part of the repository).  "A field's data-affecting status
    is determined solely by its type plus presence of name; layout kinds
    (row, collapsible, tabs, ui) never affect data directly." *)
Definition fieldAffectsData (f : Field) : bool :=
  match field_name f with
  | Some _ => negb (isLayoutKind (field_kind f))
  | None => false
  end.

(** Modelled from the spec: [tabHasName] (fields/config/types.ts, not
    in this part of the repository): "named tabs nest as objects, unnamed
    tabs are transparent". *)
Definition tabHasName {F} (tab : Tab F) : bool :=
  match tab_name tab with Some _ => true | None => false end.

(** Lines 19-46. *)
Fixpoint fieldIsRequired (f : Field) : bool :=
  match f with
  | MkField name base kind =>
      if condition base then false
      else if fieldAffectsData (MkField name base kind) && required base then true
      else
        match kind with
        | KRow fields | KCollapsible fields | KGroup _ fields =>
            existsb fieldIsRequired fields
        | KTabs tabs =>
            existsb (fun tab =>
                       match tab_name tab with
                       | Some _ => existsb fieldIsRequired (tab_fields tab)
                       | None => false
                       end) tabs
        | _ => false
        end
  end.

(** Lines 48-56. *)
Definition buildOptionEnums (options : list Option) : list string :=
  map (fun option =>
         match option with
         | OptionObject _ value => value
         | OptionString s => s
         end) options.

(** Lines 142-152. *)
Definition withNullableJSONSchemaType (fieldType : Value) (isRequired : bool) : Value :=
  if isRequired then fieldType else VArr [fieldType; VStr "null"].


(** *** [fieldsToJSONSchema] *)

(** [`#/definitions/${name}`] wrapped as [{ $ref }]. *)
Definition ref (name : string) : Value :=
  VObj [("$ref", VStr ("#/definitions/" +:+ name))].

(** [collectionIDFieldTypes[slug]]. *)
Definition idFieldType (ids : IDFieldTypes) (slug : string) : Value :=
  match ids !! slug with
  | Some t => VStr t
  | None => VUndefined
  end.

(** The branch of a polymorphic relationship (lines 335-354 and
    361-380); [objectType] is the [type] the branch declares. *)
Definition relationBranch (ids : IDFieldTypes) (objectType : Value) (relation : string) : Value :=
  VObj [ ("type", objectType);
         ("additionalProperties", VBool false);
         ("properties",
           VObj [ ("relationTo", VObj [("const", VStr relation)]);
                  ("value",
                    VObj [("oneOf",
                           VArr [ VObj [("type", idFieldType ids relation)];
                                  ref relation ])]) ]);
         ("required", strings ["value"; "relationTo"]) ].

(** Lines 327-415. *)
Definition relationshipSchema (ids : IDFieldTypes) (relationTo : RelationTo)
    (hasMany isRequired : bool) : Value :=
  match relationTo with
  | RelMany relations =>
      if hasMany then
        VObj [ ("type", withNullableJSONSchemaType (VStr "array") isRequired);
               ("items",
                 VObj [("oneOf",
                        VArr (map (relationBranch ids (VStr "object")) relations))]) ]
      else
        VObj [("oneOf",
               VArr (map (relationBranch ids
                            (withNullableJSONSchemaType (VStr "object") isRequired))
                       relations))]
  | RelOne relation =>
      if hasMany then
        VObj [ ("type", withNullableJSONSchemaType (VStr "array") isRequired);
               ("items",
                 VObj [("oneOf",
                        VArr [ VObj [("type", idFieldType ids relation)];
                               ref relation ])]) ]
      else
        VObj [("oneOf",
               VArr [ VObj [("type",
                             withNullableJSONSchemaType (idFieldType ids relation) isRequired)];
                      ref relation ])]
  end.

(** The cases of the [switch] that neither recurse nor touch the
    registry; [None] for the kinds handled in [fieldStep]. *)
Definition leafSchema (ids : IDFieldTypes) (kind : Kind Field) (isRequired : bool)
  : option Value :=
  match kind with
  | KText hasMany =>
      Some (if hasMany
            then VObj [ ("type", withNullableJSONSchemaType (VStr "array") isRequired);
                        ("items", VObj [("type", VStr "string")]) ]
            else VObj [("type", withNullableJSONSchemaType (VStr "string") isRequired)])
  | KNumber hasMany =>
      Some (if hasMany
            then VObj [ ("type", withNullableJSONSchemaType (VStr "array") isRequired);
                        ("items", VObj [("type", VStr "number")]) ]
            else VObj [("type", withNullableJSONSchemaType (VStr "number") isRequired)])
  | KTextarea | KCode | KEmail | KDate =>
      Some (VObj [("type", withNullableJSONSchemaType (VStr "string") isRequired)])
  | KCheckbox =>
      Some (VObj [("type", withNullableJSONSchemaType (VStr "boolean") isRequired)])
  | KJson schema =>
      Some (if truthy schema then schema
            else VObj [("type", strings ["object"; "array"; "string"; "number";
                                         "boolean"; "null"])])
  | KRadio options =>
      Some (VObj [ ("type", withNullableJSONSchemaType (VStr "string") isRequired);
                   ("enum", strings (buildOptionEnums options)) ])
  | KSelect options hasMany =>
      let optionEnums := buildOptionEnums options in
      Some (if hasMany
            then VObj [ ("type", withNullableJSONSchemaType (VStr "array") isRequired);
                        ("items", VObj [ ("type", VStr "string");
                                         ("enum", strings optionEnums) ]) ]
            else VObj [ ("type", withNullableJSONSchemaType (VStr "string") isRequired);
                        ("enum", strings optionEnums) ])
  | KPoint =>
      Some (VObj [ ("type", withNullableJSONSchemaType (VStr "array") isRequired);
                   ("items", VArr [ VObj [("type", VStr "number")];
                                    VObj [("type", VStr "number")] ]);
                   ("maxItems", VNum 2);
                   ("minItems", VNum 2) ])
  | KJoin collection =>
      Some (VObj [ ("type", withNullableJSONSchemaType (VStr "object") false);
                   ("additionalProperties", VBool false);
                   ("properties",
                     VObj [ ("docs",
                              VObj [ ("type", withNullableJSONSchemaType (VStr "array") false);
                                     ("items",
                                       VObj [("oneOf",
                                              VArr [ VObj [("type", idFieldType ids collection)];
                                                     ref collection ])]) ]);
                            ("hasNextPage",
                              VObj [("type",
                                     withNullableJSONSchemaType (VStr "boolean") false)]) ]) ])
  | KUpload relationTo hasMany | KRelationship relationTo hasMany =>
      Some (relationshipSchema ids relationTo hasMany isRequired)
  | _ => None
  end.

(** The accumulator of the [reduce]: the [fieldSchemas] map and the
    [requiredFieldNames] set around it. *)
Record Acc : Type := mkAcc {
  fieldSchemas : Obj;
  requiredFieldNames : list string
}.

Definition emptyAcc : Acc := mkAcc [] [].

Definition setFieldSchema (name : string) (schema : Value) (acc : Acc) : Acc :=
  mkAcc (objSet name schema (fieldSchemas acc)) (requiredFieldNames acc).

Definition addRequired (name : string) (acc : Acc) : Acc :=
  mkAcc (fieldSchemas acc) (setAdd name (requiredFieldNames acc)).

(** What [fieldsToJSONSchema] returns. *)
Record FieldsSchema : Type := mkFieldsSchema {
  properties : Obj;
  required_ : list string
}.

Definition ofAcc (acc : Acc) : FieldsSchema :=
  mkFieldsSchema (fieldSchemas acc) (requiredFieldNames acc).

(** The entries [...fieldsToJSONSchema(..)] spreads into an object. *)
Definition entries (fs : FieldsSchema) : Obj :=
  [ ("properties", VObj (properties fs)); ("required", strings (required_ fs)) ].

(** Lines 496-501 and 528-533: a transparent container hands its
    children's properties and required names to the parent. *)
Definition mergeChild (child : FieldsSchema) (acc : Acc) : Acc :=
  let acc1 := fold_left (fun a kv => setFieldSchema (fst kv) (snd kv) a) (properties child) acc in
  fold_left (fun a propName => addRequired propName a) (required_ child) acc1.

(** Lines 478-484 and 551-557: a truthy [interfaceName] lifts the schema
    into the registry and leaves a reference. *)
Definition liftInterface (interfaceName : option string) (schema : Value) : M Value :=
  match interfaceName with
  | Some n =>
      if truthyStr n then let* _ := registrySet n schema in ret (ref n)
      else ret schema
  | None => ret schema
  end.

(** Lines 228-254. *)
Definition richTextSchema (ids : IDFieldTypes) (name : option string) (editor : Editor)
    (isRequired : bool) : M Value :=
  match editor with
  | EditorAbsent => throw (MissingEditorProp name)
  | EditorFunction => throw (Error "Attempted to access unsanitized rich text editor.")
  | EditorSanitized (Some outputSchema) =>
      fun reg =>
        let '(schema, writes) := outputSchema ids isRequired reg in
        (Normal schema, objSpread writes reg)
  | EditorSanitized None =>
      ret (VObj [ ("type", withNullableJSONSchemaType (VStr "array") isRequired);
                  ("items", VObj [("type", VStr "object")]) ])
  end.

(** One round of the [reduce] callback, lines 177-577. *)
Fixpoint fieldStep (ids : IDFieldTypes) (field : Field) (acc : Acc) : M Acc :=
  let fieldsToJSONSchema fields :=
    let* a := foldM (fieldStep ids) fields emptyAcc in ret (ofAcc a) in
  match field with
  | MkField name base kind =>
      let affectsData := fieldAffectsData (MkField name base kind) in
      let isRequired := affectsData && fieldIsRequired (MkField name base kind) in
      let acc :=
        match name with
        | Some n => if isRequired then addRequired n acc else acc
        | None => acc
        end in
      let* switched :=
        match kind with
        | KRichText editor =>
            let* s := richTextSchema ids name editor isRequired in ret (s, acc)
        | KBlocks blocks =>
            let hasBlocks := negb (Nat.eqb (length blocks) 0) in
            let* options :=
              (if hasBlocks then
                 mapM (fun block =>
                         let* blockFieldSchemas := fieldsToJSONSchema (block_fields block) in
                         let blockSchema :=
                           VObj [ ("type", VStr "object");
                                  ("additionalProperties", VBool false);
                                  ("properties",
                                    VObj (objSet "blockType"
                                            (VObj [("const", VStr (block_slug block))])
                                            (properties blockFieldSchemas)));
                                  ("required",
                                    strings ("blockType" :: required_ blockFieldSchemas)) ] in
                         liftInterface (block_interfaceName block) blockSchema)
                   blocks
               else ret []) in
            ret (VObj [ ("type", withNullableJSONSchemaType (VStr "array") isRequired);
                        ("items", if hasBlocks then VObj [("oneOf", VArr options)]
                                  else VObj []) ],
                 acc)
        | KArray interfaceName fields =>
            let* child := fieldsToJSONSchema fields in
            let* s :=
              liftInterface interfaceName
                (VObj [ ("type", withNullableJSONSchemaType (VStr "array") isRequired);
                        ("items",
                          VObj (objSpread (entries child)
                                  [ ("type", VStr "object");
                                    ("additionalProperties", VBool false) ])) ]) in
            ret (s, acc)
        | KRow fields | KCollapsible fields =>
            let* childSchema := fieldsToJSONSchema fields in
            ret (VUndefined, mergeChild childSchema acc)
        | KTabs tabs =>
            let* acc :=
              foldM (fun tab acc =>
                       let* childSchema := fieldsToJSONSchema (tab_fields tab) in
                       ret (if tabHasName tab then
                              let tabName := propertyKey (tab_name tab) in
                              let acc :=
                                setFieldSchema tabName
                                  (VObj (objSpread (entries childSchema)
                                           [ ("type", VStr "object");
                                             ("additionalProperties", VBool false) ]))
                                  acc in
                              if existsb fieldIsRequired (tab_fields tab)
                              then addRequired tabName acc else acc
                            else mergeChild childSchema acc))
                tabs acc in
            ret (VUndefined, acc)
        | KGroup interfaceName fields =>
            let* child := fieldsToJSONSchema fields in
            let* s :=
              liftInterface interfaceName
                (VObj (objSpread (entries child)
                         [ ("type", VStr "object");
                           ("additionalProperties", VBool false) ])) in
            ret (s, acc)
        | _ =>
            ret (match leafSchema ids kind isRequired with
                 | Some s => s
                 | None => VUndefined
                 end,
                 acc)
        end in
      let '(fieldSchema, acc) := switched in
      let fieldSchema :=
        fold_left (fun jsonSchema schema => schema jsonSchema) (typescriptSchema base) fieldSchema in
      ret (match name with
           | Some n =>
               if truthy fieldSchema && affectsData then setFieldSchema n fieldSchema acc
               else acc
           | None => acc
           end)
  end.

(** Lines 154-581. *)
Definition fieldsToJSONSchema (ids : IDFieldTypes) (fields : list Field) : M FieldsSchema :=
  let* acc := foldM (fieldStep ids) fields emptyAcc in ret (ofAcc acc).


(** *** Structural notions on the field tree *)

(** Induction on a field with the property at hand for every field
    nested in it. *)
Section FieldInduction.
Variable P : Field -> Prop.

Definition nestedAll (kind : Kind Field) : Prop :=
  match kind with
  | KBlocks blocks => Forall (fun block => Forall P (block_fields block)) blocks
  | KArray _ fields | KRow fields | KCollapsible fields | KGroup _ fields =>
      Forall P fields
  | KTabs tabs => Forall (fun tab => Forall P (tab_fields tab)) tabs
  | _ => True
  end.

Hypothesis step : forall name base kind, nestedAll kind -> P (MkField name base kind).

Fixpoint Field_nested_ind (f : Field) : P f :=
  let all :=
    fix all (fields : list Field) : Forall P fields :=
      match fields with
      | [] => List.Forall_nil P
      | g :: rest => List.Forall_cons P g rest (Field_nested_ind g) (all rest)
      end in
  match f with
  | MkField name base kind =>
      step name base kind
        (match kind as k return nestedAll k with
         | KBlocks blocks =>
             (fix blocksAll (bs : list (Block Field))
                : Forall (fun block => Forall P (block_fields block)) bs :=
                match bs with
                | [] => List.Forall_nil _
                | b :: rest => List.Forall_cons _ b rest (all (block_fields b)) (blocksAll rest)
                end) blocks
         | KArray _ fields => all fields
         | KRow fields => all fields
         | KCollapsible fields => all fields
         | KGroup _ fields => all fields
         | KTabs tabs =>
             (fix tabsAll (ts : list (Tab Field))
                : Forall (fun tab => Forall P (tab_fields tab)) ts :=
                match ts with
                | [] => List.Forall_nil _
                | t :: rest => List.Forall_cons _ t rest (all (tab_fields t)) (tabsAll rest)
                end) tabs
         | _ => I
         end)
  end.
End FieldInduction.

(** The first fault among [xs], in order. *)
Section FirstFault.
Context {A : Type}.
Variable fault : A -> option Exn.
Fixpoint firstFault (xs : list A) : option Exn :=
  match xs with
  | [] => None
  | x :: rest =>
      match fault x with
      | Some e => Some e
      | None => firstFault rest
      end
  end.
End FirstFault.

(** A computation's outcome as a fault predicts it: the predicted
    exception is the one thrown, and without one a value is returned. *)
Definition endsAs {A S : Type} (fault : option Exn) (outcome : Completion A * S) : Prop :=
  match fault with
  | Some e => fst outcome = Abrupt e
  | None => exists a, fst outcome = Normal a
  end.

(** The exception of the first rich-text field, in the order derivation
    visits the tree, whose editor is missing or still a function. *)
Fixpoint editorFault (f : Field) : option Exn :=
  match f with
  | MkField name _ kind =>
      match kind with
      | KRichText EditorAbsent => Some (MissingEditorProp name)
      | KRichText EditorFunction =>
          Some (Error "Attempted to access unsanitized rich text editor.")
      | KBlocks blocks =>
          firstFault (fun block => firstFault editorFault (block_fields block)) blocks
      | KArray _ fields | KRow fields | KCollapsible fields | KGroup _ fields =>
          firstFault editorFault fields
      | KTabs tabs => firstFault (fun tab => firstFault editorFault (tab_fields tab)) tabs
      | _ => None
      end
  end.


(** *** Entities and the configuration *)

Inductive IDType : Type := IDNumber | IDText.

Record LoginWithUsername : Type := mkLoginWithUsername {
  allowEmailLogin : bool;
  requireEmail : bool;
  requireUsername : bool
}.

Record Auth : Type := mkAuth {
  disableLocalStrategy : bool;
  loginWithUsername : option LoginWithUsername
}.

(** A collection or global config.  [timestamps] is [None] when the
    entity has no such key (globals); [auth] is [None] when absent or
    falsy. *)
Record Entity : Type := mkEntity {
  slug : string;
  fields : list Field;
  typescriptInterface : option string;
  timestamps : option bool;
  auth : option Auth
}.

Record Task : Type := mkTask {
  task_slug : string;
  task_inputSchema : list Field;
  task_outputSchema : list Field
}.

Record Workflow : Type := mkWorkflow {
  workflow_slug : string;
  workflow_inputSchema : list Field
}.

Record JobsConfig : Type := mkJobsConfig {
  tasks : option (list Task);
  workflows : option (list Workflow)
}.

(** The sanitized config.  Entity configs are objects, held by
    reference; [localization] is the list of locale codes when
    localization is on; [typescriptSchema_] is [config.typescript.schema]. *)
Record Config : Type := mkConfig {
  globals : list nat;
  collections : list nat;
  jobs : option JobsConfig;
  localization : option (list string);
  dbDefaultIDType : option string;
  typescriptSchema_ : list (Value -> Value)
}.

(** The objects derivation can reach and write: the entity configs by
    reference, and the interface-name registry. *)
Record World : Type := mkWorld {
  heap : gmap nat Entity;
  registry : Registry
}.

Definition liftRegistry {A} (m : M A) : ST World A :=
  fun w => let '(c, reg) := m (registry w) in (c, mkWorld (heap w) reg).

(** Reading through a reference. *)
Definition readEntity (l : nat) : ST World Entity :=
  fun w =>
    match heap w !! l with
    | Some e => (Normal e, w)
    | None => (Abrupt (TypeError "entity"), w)
    end.

(** Writing through a reference. *)
Definition modifyEntity (l : nat) (f : Entity -> Entity) : ST World unit :=
  fun w => (Normal tt, mkWorld (alter f l (heap w)) (registry w)).

(** Modelled from the spec: [deepCopyObject] (utilities/deepCopyObject.ts,
    not in this part of the repository).  Derivation is "pure except for
    writes into the caller-supplied interface-registry mapping" and the
    Field Model is "immutable for the process lifetime": the copy is a
    new object, structurally equal to its argument and sharing nothing
    with it. *)
Definition deepCopyObject (l : nat) : ST World nat :=
  fun w =>
    match heap w !! l with
    | Some e =>
        let l' := fresh (dom (heap w)) in
        (Normal l', mkWorld (<[l' := e]> (heap w)) (registry w))
    | None => (Abrupt (TypeError "deepCopyObject"), w)
    end.

Definition withFields (fs : list Field) (e : Entity) : Entity :=
  mkEntity (slug e) fs (typescriptInterface e) (timestamps e) (auth e).

Definition withRequired (f : Field) : Field :=
  match f with
  | MkField name base kind =>
      MkField name (mkBase true (condition base) (typescriptSchema base)) kind
  end.

Definition hasName (n : string) (f : Field) : bool :=
  match field_name f with
  | Some m => String.eqb m n
  | None => false
  end.

(** [fieldAffectsData(field) && field.name === 'id'] *)
Definition isIDField (f : Field) : bool := fieldAffectsData f && hasName "id" f.

(** [customIdField.type !== 'group' && customIdField.type !== 'tab'] *)
Definition notGroupOrTab (f : Field) : bool :=
  match field_kind f with
  | KGroup _ _ => false
  | KOther t => negb (String.eqb t "tab")
  | _ => true
  end.

(** [customIdField.required = true] on the field that [find] returned. *)
Fixpoint requireFirst (p : Field -> bool) (fs : list Field) : list Field :=
  match fs with
  | [] => []
  | f :: rest => if p f then withRequired f :: rest else f :: requireFirst p rest
  end.

(** The kind a [type] of ['number'], ['text'] or [undefined] selects. *)
Definition idKind (defaultIDType : option IDType) : Kind Field :=
  match defaultIDType with
  | Some IDNumber => KNumber false
  | Some IDText => KText false
  | None => KOther "undefined"
  end.

(** Lines 611-621. *)
Definition requireTimestamps (fs : list Field) : list Field :=
  map (fun field =>
         if fieldAffectsData field && (hasName "createdAt" field || hasName "updatedAt" field)
         then withRequired field else field) fs.

(** [fieldType], lines 638-641. *)
Definition authFieldType : Value :=
  VObj [("type", VStr "string"); ("required", VBool false)].

Inductive AuthOperation : Type := ForgotOrUnlock | Login | Register.

(** Lines 642-746. *)
Definition generateAuthFieldTypes (loginWithUsername : option LoginWithUsername)
    (type : AuthOperation) : Value :=
  let fieldType := authFieldType in
  let default :=
    VObj [ ("additionalProperties", VBool false);
           ("properties", VObj [("email", fieldType); ("password", fieldType)]);
           ("required", strings ["email"; "password"]) ] in
  match loginWithUsername with
  | Some l =>
      match type with
      | Login =>
          if allowEmailLogin l then
            VObj [ ("additionalProperties", VBool false);
                   ("oneOf",
                     VArr [ VObj [ ("additionalProperties", VBool false);
                                   ("properties",
                                     VObj [("email", fieldType); ("password", fieldType)]);
                                   ("required", strings ["email"; "password"]) ];
                            VObj [ ("additionalProperties", VBool false);
                                   ("properties",
                                     VObj [("password", fieldType); ("username", fieldType)]);
                                   ("required", strings ["username"; "password"]) ] ]) ]
          else
            VObj [ ("additionalProperties", VBool false);
                   ("properties", VObj [("password", fieldType); ("username", fieldType)]);
                   ("required", strings ["username"; "password"]) ]
      | Register =>
          let requiredFields :=
            ["password"] ++ (if requireEmail l then ["email"] else [])
                         ++ (if requireUsername l then ["username"] else []) in
          let properties :=
            [("password", fieldType); ("username", fieldType)] in
          let properties :=
            if requireEmail l || allowEmailLogin l
            then objSet "email" fieldType properties else properties in
          VObj [ ("additionalProperties", VBool false);
                 ("properties", VObj properties);
                 ("required", strings requiredFields) ]
      | ForgotOrUnlock =>
          if allowEmailLogin l then
            VObj [ ("additionalProperties", VBool false);
                   ("oneOf",
                     VArr [ VObj [ ("additionalProperties", VBool false);
                                   ("properties", VObj [("email", fieldType)]);
                                   ("required", strings ["email"]) ];
                            VObj [ ("additionalProperties", VBool false);
                                   ("properties", VObj [("username", fieldType)]);
                                   ("required", strings ["username"]) ] ]) ]
          else
            VObj [ ("additionalProperties", VBool false);
                   ("properties", VObj [("username", fieldType)]);
                   ("required", strings ["username"]) ]
      end
  | None => default
  end.

(** [Object.keys(o)]. *)
Definition keys (o : Obj) : list string := map fst o.

(** Lines 58-75. *)
Definition generateEntitySchemas (entities : list Entity) : Value :=
  let properties :=
    fold_left (fun acc e => objSet (slug e) (ref (slug e)) acc) entities [] in
  VObj [ ("type", VStr "object");
         ("additionalProperties", VBool false);
         ("properties", VObj properties);
         ("required", strings (keys properties)) ].

(** Lines 77-94. *)
Definition generateLocaleEntitySchemas (localization : option (list string)) : Value :=
  match localization with
  | Some locales => VObj [("type", VStr "string"); ("enum", strings locales)]
  | None => VObj [("type", VStr "null")]
  end.

Definition hasAuth (e : Entity) : bool :=
  match auth e with Some _ => true | None => false end.

(** Lines 96-118. *)
Definition generateAuthEntitySchemas (entities : list Entity) : Value :=
  VObj [("oneOf",
         VArr (map (fun e =>
                      VObj [("allOf",
                             VArr [ ref (slug e);
                                    VObj [ ("type", VStr "object");
                                           ("additionalProperties", VBool false);
                                           ("properties",
                                             VObj [("collection",
                                                    VObj [ ("type", VStr "string");
                                                           ("enum", strings [slug e]) ])]);
                                           ("required", strings ["collection"]) ] ])])
                 (List.filter hasAuth entities)))].

(** Lines 125-137. *)
Definition generateDbEntitySchema (config : Config) : Value :=
  let defaultIDType :=
    match dbDefaultIDType config with
    | Some t => if String.eqb t "number" then VObj [("type", VStr "number")]
                else VObj [("type", VStr "string")]
    | None => VObj [("type", VStr "string")]
    end in
  VObj [ ("type", VStr "object");
         ("additionalProperties", VBool false);
         ("properties", VObj [("defaultIDType", defaultIDType)]);
         ("required", strings ["defaultIDType"]) ].

(** Lines 778-794. *)
Definition generateAuthOperationSchemas (collections : list Entity) : Value :=
  let properties :=
    fold_left (fun acc collection =>
                 if hasAuth collection
                 then objSet (slug collection)
                        (VObj [("$ref", VStr ("#/definitions/auth/" +:+ slug collection))]) acc
                 else acc)
      collections [] in
  VObj [ ("type", VStr "object");
         ("additionalProperties", VBool false);
         ("properties", VObj properties);
         ("required", strings (keys properties)) ].


(** *** Notions used to state the properties *)

(** A continuation that always returns. *)
Definition total {S A B} (k : A -> ST S B) : Prop :=
  forall a s, exists b, fst (k a s) = Normal b.

(** The fields [entityToJSONSchema] derives from, lines 599-628 applied
    to the entity as configured: the identifier field is required or
    put first, timestamp fields are required, and [password] is put
    last for a local-strategy auth collection. *)
Definition preparedFields (defaultIDType : option IDType) (e : Entity) : list Field :=
  let idField := MkField (Some "id") (mkBase true false []) (idKind defaultIDType) in
  let withID :=
    match List.find isIDField (fields e) with
    | Some customIdField =>
        if notGroupOrTab customIdField then requireFirst isIDField (fields e)
        else idField :: fields e
    | None => idField :: fields e
    end in
  let withTimestamps :=
    match timestamps e with
    | Some true => requireTimestamps withID
    | _ => withID
    end in
  match auth e with
  | Some a =>
      if negb (disableLocalStrategy a)
      then withTimestamps ++ [MkField (Some "password") (mkBase false false []) (KText false)]
      else withTimestamps
  | None => withTimestamps
  end.

(** A computation that removes no key of the registry. *)
Definition grows {A} (m : M A) : Prop :=
  forall reg k, In k (map fst reg) -> In k (map fst (snd (m reg))).

(** A computation after which, when it returns, the registry has the
    key [n]. *)
Definition reaches {A} (n : string) (m : M A) : Prop :=
  forall reg, (exists a, fst (m reg) = Normal a) -> In n (map fst (snd (m reg))).

(** What holds of result and state when a computation returns. *)
Definition wp {S A} (m : ST S A) (Q : A -> S -> Prop) (s : S) : Prop :=
  match m s with
  | (Normal a, s') => Q a s'
  | (Abrupt _, _) => True
  end.

(** The top-level [definitions] of a derived schema. *)
Definition definitionsOf (jsonSchema : Value) : option Obj :=
  match jsonSchema with
  | VObj members =>
      match objGet "definitions" members with
      | Some (VObj definitions) => Some definitions
      | _ => None
      end
  | _ => None
  end.

(** The entity objects behind [refs] exist in [h] and are the same in
    [h']. *)
Definition sameEntities (refs : list nat) (h h' : gmap nat Entity) : Prop :=
  forall l, In l refs -> is_Some (h !! l) /\ h' !! l = h !! l.

Definition sameInputs (refs : list nat) (w w' : World) : Prop :=
  registry w = registry w' /\ sameEntities refs (heap w) (heap w').

(** A computation that reads nothing but the registry and the entities
    behind [refs], and leaves these entities as they are. *)
Definition respects {A} (refs : list nat) (m : ST World A) : Prop :=
  forall w w',
    sameInputs refs w w' ->
    fst (m w) = fst (m w') /\
    sameInputs refs (snd (m w)) (snd (m w')) /\
    sameEntities refs (heap w) (heap (snd (m w))).

Section Derivation.

(** Helpers defined elsewhere: [singular] of the
    pluralize package, [toWords] of formatLabels.ts, and
    [getCollectionIDFieldTypes], which is handed the collection
    configs and the default identifier type. *)
Variable singular : string -> string.
Variable toWords : string -> bool -> string.
Variable getCollectionIDFieldTypes : list Entity -> option IDType -> IDFieldTypes.

(** Lines 584-636.  [incomingEntity] is a reference; every write goes
    to the copy [entity]. *)
Definition entityToJSONSchema (config : Config) (incomingEntity : nat)
    (defaultIDType : option IDType) (collectionIDFieldTypes : option IDFieldTypes)
  : ST World Value :=
  let* collectionIDFieldTypes :=
    match collectionIDFieldTypes with
    | Some ids => ret ids
    | None =>
        let* cols := mapM readEntity (collections config) in
        ret (getCollectionIDFieldTypes cols defaultIDType)
    end in
  let* entity := deepCopyObject incomingEntity in
  let* e := readEntity entity in
  let title :=
    match typescriptInterface e with
    | Some i => if truthyStr i then i else singular (toWords (slug e) true)
    | None => singular (toWords (slug e) true)
    end in
  let idField := MkField (Some "id") (mkBase true false []) (idKind defaultIDType) in
  let* _ :=
    match List.find isIDField (fields e) with
    | Some customIdField =>
        if notGroupOrTab customIdField
        then modifyEntity entity (fun e => withFields (requireFirst isIDField (fields e)) e)
        else modifyEntity entity (fun e => withFields (idField :: fields e) e)
    | None => modifyEntity entity (fun e => withFields (idField :: fields e) e)
    end in
  let* _ :=
    match timestamps e with
    | Some true => modifyEntity entity (fun e => withFields (requireTimestamps (fields e)) e)
    | _ => ret tt
    end in
  let* _ :=
    match auth e with
    | Some a =>
        if negb (disableLocalStrategy a)
        then modifyEntity entity
               (fun e => withFields
                           (fields e ++ [MkField (Some "password") (mkBase false false [])
                                           (KText false)]) e)
        else ret tt
    | None => ret tt
    end in
  let* e := readEntity entity in
  let* schema := liftRegistry (fieldsToJSONSchema collectionIDFieldTypes (fields e)) in
  ret (VObj (objSpread (entries schema)
               [ ("type", VStr "object");
                 ("additionalProperties", VBool false);
                 ("title", VStr title) ])).

(** Lines 748-776. *)
Definition authCollectionToOperationsJSONSchema (config : Entity) : Value :=
  let loginWithUsername := auth config ≫= loginWithUsername in
  let loginUserFields := generateAuthFieldTypes loginWithUsername Login in
  let forgotOrUnlockUserFields := generateAuthFieldTypes loginWithUsername ForgotOrUnlock in
  let registerUserFields := generateAuthFieldTypes loginWithUsername Register in
  let properties :=
    [ ("forgotPassword", forgotOrUnlockUserFields);
      ("login", loginUserFields);
      ("registerFirstUser", registerUserFields);
      ("unlock", forgotOrUnlockUserFields) ] in
  VObj [ ("type", VStr "object");
         ("additionalProperties", VBool false);
         ("properties", VObj properties);
         ("required", strings (keys properties));
         ("title", VStr (singular (toWords (slug config) true) +:+ "AuthOperations")) ].

(** The object stored under a job definition key (lines 826-831,
    843-848 and 897-902). *)
Definition fullJobSchema (schema : FieldsSchema) : Value :=
  VObj [ ("type", VStr "object");
         ("additionalProperties", VBool false);
         ("properties", VObj (properties schema));
         ("required", strings (required_ schema)) ].

Definition nonEmpty {A} (xs : list A) : bool := negb (Nat.eqb (length xs) 0).

(** Lines 859-880. *)
Definition taskEntry (task : Task) : string * Value :=
  let required0 := ["input"; "output"] in
  let properties0 := [("input", VObj [])] in
  let '(required1, properties1) :=
    if nonEmpty (task_inputSchema task)
    then (required0 ++ ["input"],
          objSet "input" (ref ("Task" +:+ task_slug task +:+ "Input")) properties0)
    else (required0, properties0) in
  let '(required2, properties2) :=
    if nonEmpty (task_outputSchema task)
    then (required1 ++ ["output"],
          objSet "output" (ref ("Task" +:+ task_slug task +:+ "Output")) properties1)
    else (required1, properties1) in
  (task_slug task,
   VObj [ ("type", VStr "object");
          ("additionalProperties", VBool false);
          ("properties", VObj properties2);
          ("required", strings required2) ]).

(** Lines 912-928. *)
Definition workflowEntry (workflow : Workflow) : string * Value :=
  let required0 := ["input"] in
  let properties0 := [("input", VObj [])] in
  let '(required1, properties1) :=
    if nonEmpty (workflow_inputSchema workflow)
    then (required0 ++ ["input"],
          objSet "input" (ref ("Workflow" +:+ workflow_slug workflow +:+ "Input")) properties0)
    else (required0, properties0) in
  (workflow_slug workflow,
   VObj [ ("type", VStr "object");
          ("additionalProperties", VBool false);
          ("properties", VObj properties1);
          ("required", strings required1) ]).

(** [Object.fromEntries(pairs)]. *)
Definition fromEntries (pairs : list (string * Value)) : Obj := objSpread pairs [].

(** What [generateJobsSchemas] builds: its [definitions] map and the
    [tasks] and [workflows] properties. *)
Record JobsSchemas : Type := mkJobsSchemas {
  js_definitions : Obj;
  js_tasks : Value;
  js_workflows : Value
}.

(** Lines 796-940. *)
Definition generateJobsSchemas (jobsConfig : JobsConfig) (ids : IDFieldTypes)
  : M JobsSchemas :=
  let start := mkJobsSchemas [] (VObj []) (VObj []) in
  let* afterTasks :=
    match tasks jobsConfig with
    | Some ts =>
        if nonEmpty ts then
          let* definitions :=
            foldM (fun task definitions =>
                     let* definitions :=
                       if nonEmpty (task_inputSchema task) then
                         let* inputJsonSchema := fieldsToJSONSchema ids (task_inputSchema task) in
                         ret (objSet ("Task" +:+ task_slug task +:+ "Input")
                                (fullJobSchema inputJsonSchema) definitions)
                       else ret definitions in
                     if nonEmpty (task_outputSchema task) then
                       let* outputJsonSchema := fieldsToJSONSchema ids (task_outputSchema task) in
                       ret (objSet ("Task" +:+ task_slug task +:+ "Output")
                              (fullJobSchema outputJsonSchema) definitions)
                     else ret definitions)
              ts (js_definitions start) in
          ret (mkJobsSchemas definitions
                 (VObj [ ("type", VStr "object");
                         ("additionalProperties", VBool false);
                         ("properties", VObj (fromEntries (map taskEntry ts)));
                         ("required", strings (map task_slug ts)) ])
                 (js_workflows start))
        else ret start
    | None => ret start
    end in
  match workflows jobsConfig with
  | Some ws =>
      if nonEmpty ws then
        foldM (fun workflow (acc : JobsSchemas) =>
                 let* definitions :=
                   if nonEmpty (workflow_inputSchema workflow) then
                     let* inputJsonSchema :=
                       fieldsToJSONSchema ids (workflow_inputSchema workflow) in
                     ret (objSet ("Workflow" +:+ workflow_slug workflow +:+ "Input")
                            (fullJobSchema inputJsonSchema) (js_definitions acc))
                   else ret (js_definitions acc) in
                 match tasks jobsConfig with
                 | Some ts =>
                     ret (mkJobsSchemas definitions (js_tasks acc)
                            (VObj [ ("type", VStr "object");
                                    ("additionalProperties", VBool false);
                                    ("properties", VObj (fromEntries (map workflowEntry ws)));
                                    ("required", strings (map task_slug ts)) ]))
                 | None => throw (TypeError "jobsConfig.tasks.map")
                 end)
          ws afterTasks
      else ret afterTasks
  | None => ret afterTasks
  end.

(** Lines 953-1025: the body of [configToJSONSchema], run with the
    registry created at line 950. *)
Definition configToJSONSchemaBody (config : Config) (defaultIDType : option IDType)
  : ST World Value :=
  let* cols0 := mapM readEntity (collections config) in
  let collectionIDFieldTypes := getCollectionIDFieldTypes cols0 defaultIDType in
  let* entityDefinitions :=
    foldM (fun entity acc =>
             let* e := readEntity entity in
             let* schema :=
               entityToJSONSchema config entity defaultIDType
                 (Some collectionIDFieldTypes) in
             ret (objSet (slug e) schema acc))
      (globals config ++ collections config) [] in
  let* cols := mapM readEntity (collections config) in
  let* globs := mapM readEntity (globals config) in
  let authOperationDefinitions :=
    [("auth",
      VObj (fold_left (fun acc authCollection =>
                         objSet (slug authCollection)
                           (authCollectionToOperationsJSONSchema authCollection) acc)
              (List.filter hasAuth cols) []))] in
  let* jobsSchemas :=
    match jobs config with
    | Some jobsConfig =>
        let* j := liftRegistry (generateJobsSchemas jobsConfig collectionIDFieldTypes) in
        ret (Some j)
    | None => ret None
    end in
  let* interfaceNameDefinitions := (fun w => (Normal (registry w), w)) in
  let definitions :=
    objSpread authOperationDefinitions
      (objSpread (fromEntries interfaceNameDefinitions)
         (objSpread entityDefinitions [])) in
  let properties :=
    [ ("auth", generateAuthOperationSchemas cols);
      ("collections", generateEntitySchemas cols);
      ("db", generateDbEntitySchema config);
      ("globals", generateEntitySchemas globs);
      ("locale", generateLocaleEntitySchemas (localization config));
      ("user", generateAuthEntitySchemas cols) ] in
  let definitions :=
    match jobsSchemas with
    | Some j => objSpread (js_definitions j) definitions
    | None => definitions
    end in
  let properties :=
    match jobsSchemas with
    | Some j =>
        objSet "jobs"
          (VObj [ ("type", VStr "object");
                  ("additionalProperties", VBool false);
                  ("properties",
                    VObj [("tasks", js_tasks j); ("workflows", js_workflows j)]);
                  ("required", strings ["tasks"]) ])
          properties
    | None => properties
    end in
  let jsonSchema :=
    VObj [ ("additionalProperties", VBool false);
           ("definitions", VObj definitions);
           ("type", VStr "object");
           ("properties", VObj properties);
           ("required",
             strings ["user"; "locale"; "collections"; "globals"; "auth"; "db"]);
           ("title", VStr "Config") ] in
  ret (fold_left (fun jsonSchema schema => schema jsonSchema)
         (typescriptSchema_ config) jsonSchema).


(** Lines 945-1026: the derived schema or the exception thrown, and
    the entity objects as the call leaves them.  The registry is the
    call's own, created empty. *)
Definition configToJSONSchema (config : Config) (defaultIDType : option IDType)
    (h : gmap nat Entity) : Completion Value * gmap nat Entity :=
  let '(c, w) := configToJSONSchemaBody config defaultIDType (mkWorld h []) in
  (c, heap w).

End Derivation.

End Schema.

(** ** A small site, used to run the definitions

    Posts point to articles ([article]), articles to users ([author]);
    events carry numeric identifiers. *)

Module Samples.

Import JS JSString Query.

Definition textField (n : string) : Field := mkField n "text" RelAbsent.

Definition articleField : Field := mkField "article" "relationship" (RelOne "articles").
Definition authorField : Field := mkField "author" "relationship" (RelOne "users").
Definition idField : Field := mkField "id" "text" RelAbsent.
Definition ownerField : Field :=
  mkField "owner" "relationship" (RelMany ["users"; "events"]).

Definition payload : Payload :=
  {| collections :=
       list_to_map
         [ ("posts", mkCollection None [articleField; ownerField; textField "title"]);
           ("articles", mkCollection None [authorField; textField "headline"]);
           ("users", mkCollection None [textField "name"]);
           ("events", mkCollection (Some IDNumber) [textField "venue"]) ];
     globals_config := [] |}.

(** A resolver for the paths of this site, in the shape
    [getLocalizedPaths] returns them. *)
Definition getLocalizedPaths (collectionSlug : option string) (fields : list Field)
    (globalSlug : option string) (incomingPath : string) (locale : option string)
    (payload : Payload) : list PathToQuery :=
  let article := mkPathToQuery (Some "posts") true articleField "article" in
  if String.eqb incomingPath "article.author.name" then
    [ article;
      mkPathToQuery (Some "articles") true authorField "author";
      mkPathToQuery (Some "users") true (textField "name") "name" ]
  else if String.eqb incomingPath "article.author.id" then
    [ article;
      mkPathToQuery (Some "articles") true authorField "author";
      mkPathToQuery (Some "users") true idField "id" ]
  else if String.eqb incomingPath "article.id" then
    [ article; mkPathToQuery (Some "articles") true idField "id" ]
  else if String.eqb incomingPath "article" then [ article ]
  else if String.eqb incomingPath "owner" then
    [ mkPathToQuery (Some "posts") true ownerField "owner" ]
  else [ mkPathToQuery collectionSlug true (textField incomingPath) incomingPath ].

(** A [sanitizeQueryValue] that leaves operator and value as they are. *)
Definition sanitizeQueryValue (f : Field) (hasCustomID : bool) (operator path : string)
    (val : Value) : Sanitized :=
  mkSanitized (Some operator) VUndefined val.

Definition operatorMap (operator : string) : option string :=
  snd <$> List.find (fun e => String.eqb (fst e) operator)
    [ ("all", "$all"); ("equals", "$eq"); ("exists", "$exists");
      ("greater_than", "$gt"); ("greater_than_equal", "$gte"); ("in", "$in");
      ("intersects", "$geoIntersects"); ("less_than", "$lt");
      ("less_than_equal", "$lte"); ("near", "$near"); ("not_equals", "$ne");
      ("not_in", "$nin"); ("within", "$geoWithin") ].

Definition isHexDigit (c : ascii) : bool :=
  let n := nat_of_ascii c in
  ((48 <=? n) && (n <=? 57) || (97 <=? n) && (n <=? 102) || (65 <=? n) && (n <=? 70))%nat.

Definition isHex24 (s : string) : bool :=
  (String.length s =? 24)%nat && forallb isHexDigit (list_ascii_of_string s).

Definition objectIdFault (s : string) : option Exn :=
  if isHex24 s then None
  else Some (Error "Argument passed in must be a string of 24 hex characters").

Definition isValidObjectId (s : string) : bool := isHex24 s.

Definition digitValue (c : ascii) : option Z :=
  let n := nat_of_ascii c in
  if ((48 <=? n) && (n <=? 57))%nat then Some (Z.of_nat (n - 48)) else None.

(** The leading decimal digits of [s], as [parseFloat] reads them;
    [NaN] when there are none. *)
Fixpoint leadingDigits (s : string) (acc : option Z) : option Z :=
  match s with
  | EmptyString => acc
  | String c rest =>
      match digitValue c with
      | Some d => leadingDigits rest (Some (10 * default 0%Z acc + d)%Z)
      | None => acc
      end
  end.

Definition parseFloat (s : string) : Value :=
  match leadingDigits s None with
  | Some n => VNum n
  | None => VNaN
  end.

Definition buildSearchParam : Args -> Store -> Completion (option SearchParam) * Store :=
  Query.buildSearchParam getLocalizedPaths sanitizeQueryValue operatorMap objectIdFault
    isValidObjectId parseFloat.

Definition args (incomingPath operator : string) (val : Value) : Args :=
  {| a_collectionSlug := Some "posts";
     a_fields := [articleField; ownerField; textField "title"];
     a_globalSlug := None;
     a_incomingPath := incomingPath;
     a_locale := None;
     a_operator := operator;
     a_payload := payload;
     a_val := val |}.

Definition emptyStore : Store := mkStore [] (Some ∅).

(** A [parseParams] for a [Where] made of leaves only: each operator of
    each path goes through [buildSearchParam], and a search parameter
    with a path and a value becomes an entry of the filter. *)
Fixpoint parseOperators (mkArgs : string -> Value -> Args)
    (operators : list (string * Value)) (filter : list (string * Value)) (st : Store)
  : Completion (list (string * Value)) * Store :=
  match operators with
  | [] => (Normal filter, st)
  | (operator, val) :: rest =>
      match buildSearchParam (mkArgs operator val) st with
      | (Abrupt e, st') => (Abrupt e, st')
      | (Normal (Some sp), st') =>
          match sp_path sp, sp_value sp with
          | Some p, Some v => parseOperators mkArgs rest (filter ++ [(p, v)]) st'
          | None, Some (VObj found) => parseOperators mkArgs rest (filter ++ found) st'
          | _, _ => parseOperators mkArgs rest filter st'
          end
      | (Normal None, st') => parseOperators mkArgs rest filter st'
      end
  end.

Fixpoint parseLeaves (mkArgs : string -> string -> Value -> Args)
    (leaves : list (string * Value)) (filter : list (string * Value)) (st : Store)
  : Completion (list (string * Value)) * Store :=
  match leaves with
  | [] => (Normal filter, st)
  | (incomingPath, VObj operators) :: rest =>
      match parseOperators (mkArgs incomingPath) operators filter st with
      | (Abrupt e, st') => (Abrupt e, st')
      | (Normal filter', st') => parseLeaves mkArgs rest filter' st'
      end
  | _ :: rest => parseLeaves mkArgs rest filter st
  end.

Definition parseParams (collectionSlug : option string) (fields : option (list Field))
    (globalSlug locale : option string) (payload : Payload) (where_ : Value) (st : Store)
  : Completion Value * Store :=
  match where_ with
  | VObj leaves =>
      match parseLeaves
              (fun incomingPath operator val =>
                 {| a_collectionSlug := collectionSlug;
                    a_fields := default [] fields;
                    a_globalSlug := globalSlug;
                    a_incomingPath := incomingPath;
                    a_locale := locale;
                    a_operator := operator;
                    a_payload := payload;
                    a_val := val |})
              leaves [] st with
      | (Abrupt e, st') => (Abrupt e, st')
      | (Normal filter, st') => (Normal (VObj filter), st')
      end
  | _ => (Normal (VObj []), st)
  end.

Definition buildQuery : Value -> Store -> Completion Value * Store :=
  Query.buildQuery parseParams (Some "posts") None None None payload.

End Samples.

(** ** A small config, used to run schema derivation *)

Module SchemaSamples.

Import JS Schema.

Definition plain : Base := mkBase false false [].
Definition mandatory : Base := mkBase true false [].

Definition title : Field := MkField (Some "title") mandatory (KText false).
Definition caption : Field := MkField (Some "caption") plain KTextarea.

(** Two arrays that share the interface name [Foo] with different
    shapes, and one whose schema is overridden. *)
Definition items : Field := MkField (Some "items") plain (KArray (Some "Foo") [title]).

Definition body : Field := MkField (Some "body") plain (KRichText EditorAbsent).

Definition posts : Entity :=
  mkEntity "posts" [title; MkField None plain (KRow [items])] None (Some true) None.

Definition users : Entity :=
  mkEntity "users"
    [MkField (Some "id") plain (KNumber false); MkField (Some "createdAt") plain KDate]
    None (Some true) (Some (mkAuth false None)).

Definition heap : gmap nat Entity := list_to_map [(0, posts); (1, users)].

Definition config : Config :=
  {| globals := [];
     collections := [0; 1];
     jobs := None;
     localization := None;
     dbDefaultIDType := None;
     typescriptSchema_ := [] |}.

(** A collection with an array whose interface name is [auth], the
    key of the auth operations. *)
Definition logins : Field := MkField (Some "logins") plain (KArray (Some "auth") [title]).

Definition members : Entity := mkEntity "members" [logins] None (Some true) None.







Definition singular (s : string) : string := s.
Definition toWords (s : string) (joined : bool) : string := s.

Definition getCollectionIDFieldTypes (collections : list Entity)
    (defaultIDType : option IDType) : IDFieldTypes :=
  list_to_map
    (map (fun e => (slug e,
                    match defaultIDType with
                    | Some IDNumber => "number"
                    | _ => "string"
                    end)) collections).

Definition ids : IDFieldTypes := getCollectionIDFieldTypes [posts; users] (Some IDText).

Definition configToJSONSchema
  : Config -> option IDType -> gmap nat Entity -> Completion Value * gmap nat Entity :=
  Schema.configToJSONSchema singular toWords getCollectionIDFieldTypes.



End SchemaSamples.

(** ** Paths, joins and shapes: notions for further properties *)

Module Joins.

Import JS JSString Query.

(** The dotted path of the first [i] segments. *)
Definition prefixPath (paths : list PathToQuery) (i : nat) : string :=
  join "." (map path (take i paths)).

(** Is the last segment the literal [id]? *)
Definition endsInID (paths : list PathToQuery) : bool :=
  match last paths with
  | Some p => String.eqb (path p) "id"
  | None => false
  end.

(** How many segments are joined: every one after the first, except
    that a final [id] ends the walk two segments early. *)
Definition joinCount (paths : list PathToQuery) : nat :=
  if endsInID paths then length paths - 3 else length paths - 1.

(** The [$lookup] stage for segment [i]. *)
Definition stageAt (paths : list PathToQuery) (i : nat) : Lookup :=
  {| as_ := "_" +:+ prefixPath paths i;
     foreignField := "_id";
     from := lookupFrom (default "" (paths !! i ≫= collectionSlug));
     localField := if (i =? 1)%nat then prefixPath paths i
                   else "_" +:+ prefixPath paths i |}.

Definition joinStages (paths : list PathToQuery) : list Lookup :=
  map (stageAt paths) (seq 1 (joinCount paths)).

(** Does [s] hold two underscores in a row? *)
Fixpoint hasDoubleUnderscore (s : string) : bool :=
  match s with
  | String c1 rest =>
      match rest with
      | String c2 _ => (Ascii.eqb c1 "_" && Ascii.eqb c2 "_") || hasDoubleUnderscore rest
      | EmptyString => false
      end
  | EmptyString => false
  end.

End Joins.

(** ** A second site: comments point to posts

    [post.article.author.name] crosses three relationships;
    [post.article.draft] names a segment that belongs to no
    collection. *)

Module JoinSamples.

Import JS JSString Query.

Definition postField : Field := mkField "post" "relationship" (RelOne "posts").

Definition post : PathToQuery := mkPathToQuery (Some "comments") true postField "post".
Definition article : PathToQuery :=
  mkPathToQuery (Some "posts") true Samples.articleField "article".
Definition author : PathToQuery :=
  mkPathToQuery (Some "articles") true Samples.authorField "author".
Definition authorName : PathToQuery :=
  mkPathToQuery (Some "users") true (Samples.textField "name") "name".
Definition draft : PathToQuery :=
  mkPathToQuery None true (Samples.textField "draft") "draft".

Definition getLocalizedPaths (collectionSlug : option string) (fields : list Field)
    (globalSlug : option string) (incomingPath : string) (locale : option string)
    (payload : Payload) : list PathToQuery :=
  if String.eqb incomingPath "post.article.author.name"
  then [post; article; author; authorName]
  else if String.eqb incomingPath "post.article.draft" then [post; article; draft]
  else Samples.getLocalizedPaths collectionSlug fields globalSlug incomingPath locale payload.

(** A [sanitizeQueryValue] that answers [near] with a raw query. *)
Definition sanitizeQueryValue (f : Field) (hasCustomID : bool) (operator path : string)
    (val : Value) : Sanitized :=
  if String.eqb operator "near"
  then mkSanitized (Some operator) (VObj [(path, VObj [("$near", val)])]) val
  else Samples.sanitizeQueryValue f hasCustomID operator path val.

Definition buildSearchParam : Args -> Store -> Completion (option SearchParam) * Store :=
  Query.buildSearchParam getLocalizedPaths sanitizeQueryValue Samples.operatorMap
    Samples.objectIdFault Samples.isValidObjectId Samples.parseFloat.

Definition args (incomingPath operator : string) (val : Value) : Args :=
  {| a_collectionSlug := Some "comments";
     a_fields := [postField];
     a_globalSlug := None;
     a_incomingPath := incomingPath;
     a_locale := None;
     a_operator := operator;
     a_payload := Samples.payload;
     a_val := val |}.

End JoinSamples.

Module Shape.

Import JS Schema.



(** Is [interfaceName] the name [n]? *)
Definition namedAs (n : string) (interfaceName : option string) : bool :=
  match interfaceName with
  | Some m => String.eqb m n
  | None => false
  end.

(** Does the tree of [f], as far as derivation descends into it, hold
    an array, a group or a block whose [interfaceName] is [n]? *)
Fixpoint declaresInterface (n : string) (f : Field) : bool :=
  match f with
  | MkField _ _ kind =>
      match kind with
      | KArray interfaceName fields | KGroup interfaceName fields =>
          namedAs n interfaceName || existsb (declaresInterface n) fields
      | KBlocks blocks =>
          existsb (fun block =>
                     namedAs n (block_interfaceName block) ||
                     existsb (declaresInterface n) (block_fields block)) blocks
      | KRow fields | KCollapsible fields => existsb (declaresInterface n) fields
      | KTabs tabs => existsb (fun tab => existsb (declaresInterface n) (tab_fields tab)) tabs
      | _ => false
      end
  end.

(** Does the tree of [f] hold a rich-text field whose editor brings
    its own [outputSchema]? *)
Fixpoint usesOutputSchema (f : Field) : bool :=
  match f with
  | MkField _ _ kind =>
      match kind with
      | KRichText (EditorSanitized (Some _)) => true
      | KBlocks blocks =>
          existsb (fun block => existsb usesOutputSchema (block_fields block)) blocks
      | KArray _ fields | KRow fields | KCollapsible fields | KGroup _ fields =>
          existsb usesOutputSchema fields
      | KTabs tabs => existsb (fun tab => existsb usesOutputSchema (tab_fields tab)) tabs
      | _ => false
      end
  end.

(** Is [f], or a field below it in rows, collapsibles, groups and
    tabs, marked [required: true]? *)
Fixpoint marksRequired (f : Field) : bool :=
  match f with
  | MkField _ base kind =>
      required base ||
      match kind with
      | KRow fields | KCollapsible fields | KGroup _ fields => existsb marksRequired fields
      | KTabs tabs => existsb (fun tab => existsb marksRequired (tab_fields tab)) tabs
      | _ => false
      end
  end.

(** Is the schema of [f], and of every field that hands its schema up
    to the level of [f], derived by one of the built-in cases, without
    [typescriptSchema] overrides? *)
Fixpoint plainlyTyped (f : Field) : bool :=
  match f with
  | MkField _ base kind =>
      match typescriptSchema base with
      | [] => true
      | _ :: _ => false
      end &&
      match kind with
      | KOther _ => false
      | KRichText (EditorSanitized (Some _)) => false
      | KRow fields | KCollapsible fields => forallb plainlyTyped fields
      | KTabs tabs =>
          forallb (fun tab =>
                     match tab_name tab with
                     | Some _ => true
                     | None => forallb plainlyTyped (tab_fields tab)
                     end) tabs
      | _ => true
      end
  end.

(** An accumulator in which every required name has a property. *)
Definition covered (acc : Acc) : Prop :=
  forall n, In n (requiredFieldNames acc) -> In n (keys (fieldSchemas acc)).

(** A computation whose outcome does not depend on the registry it is
    run with. *)
Definition blind {A} (m : M A) : Prop :=
  forall reg reg', fst (m reg) = fst (m reg').

(** An accumulator in which no property and no required name occurs
    twice. *)
Definition distinct (acc : Acc) : Prop :=
  NoDup (keys (fieldSchemas acc)) /\ NoDup (requiredFieldNames acc).

(** The accumulator [acc] after the properties and required names
    gathered in [d] were handed to it. *)
Definition mergeAcc (d acc : Acc) : Acc := mergeChild (ofAcc d) acc.

(** A change of the accumulator that can be made before or after the
    hand-over, with the same result. *)
Definition local (g : Acc -> Acc) : Prop :=
  forall d, distinct d ->
    distinct (g d) /\ forall acc, g (mergeAcc d acc) = mergeAcc (g d) acc.

(** The outcome of a run from the empty accumulator, handed over to
    [acc]. *)
Definition handOver (outcome : Completion Acc * Registry) (acc : Acc)
  : Completion Acc * Registry :=
  match outcome with
  | (Normal d, reg) => (Normal (mergeAcc d acc), reg)
  | (Abrupt e, reg) => (Abrupt e, reg)
  end.

(** Does the object schema [v] require only names it declares as
    properties? *)
Definition requiresDeclared (v : Value) : bool :=
  match v with
  | VObj members =>
      match objGet "properties" members, objGet "required" members with
      | Some (VObj props), Some (VArr names) =>
          forallb (fun name =>
                     match name with
                     | VStr n => existsb (String.eqb n) (keys props)
                     | _ => false
                     end) names
      | _, _ => false
      end
  | _ => false
  end.

(** The same of an object schema or of every alternative of a
    [oneOf]. *)
Definition requiresDeclaredInEach (v : Value) : bool :=
  match v with
  | VObj members =>
      match objGet "oneOf" members with
      | Some (VArr alternatives) => forallb requiresDeclared alternatives
      | _ => requiresDeclared v
      end
  | _ => false
  end.

End Shape.

(** ** More fields and a jobs config, used to run schema derivation *)

Module ShapeSamples.

Import JS Schema.

Definition address : Field :=
  MkField (Some "address") SchemaSamples.plain
    (KGroup (Some "Address") [SchemaSamples.title]).

Definition layout : Field :=
  MkField (Some "layout") SchemaSamples.plain
    (KBlocks [mkBlock "hero" (Some "Hero") [SchemaSamples.caption]]).

Definition summary : Field := MkField (Some "summary") SchemaSamples.plain KTextarea.

Definition row : Field :=
  MkField None SchemaSamples.plain (KRow [SchemaSamples.title; SchemaSamples.items]).

Definition world : World := mkWorld SchemaSamples.heap [].

Definition entityToJSONSchema
  : Config -> nat -> option IDType -> option IDFieldTypes -> ST World Value :=
  Schema.entityToJSONSchema SchemaSamples.singular SchemaSamples.toWords
    SchemaSamples.getCollectionIDFieldTypes.

Definition unscheduled : JobsConfig :=
  mkJobsConfig None (Some [mkWorkflow "sync" [SchemaSamples.title]]).

Definition scheduled : JobsConfig :=
  mkJobsConfig (Some [mkTask "send" [] []]) (Some [mkWorkflow "sync" []]).

End ShapeSamples.

(** ** Properties of the query builder *)

Module QueryFacts.

Import JS JSString Query.

Lemma truthyStr_true (s : string) : s ≠ "" -> truthyStr s = true.
Proof.
  intros H. unfold truthyStr. destruct (String.eqb_spec s ""); [contradiction | reflexivity].
Qed.

Lemma eqb_id_false (s : string) : s ≠ "id" -> String.eqb s "id" = false.
Proof. intros H. destruct (String.eqb_spec s "id"); [contradiction | reflexivity]. Qed.

Lemma split_length (sep : ascii) (s : string) :
  length (split sep s) = S (occurrences sep s).
Proof.
  induction s as [| c rest IH]; [reflexivity |].
  cbn [split occurrences]. destruct (Ascii.eqb c sep).
  - cbn [length]. rewrite IH. reflexivity.
  - destruct (split sep rest) as [| w ws]; [discriminate IH |].
    cbn [length] in *. rewrite IH. reflexivity.
Qed.

Lemma escapeRegex_wellEscaped (word : string) : wellEscaped (escapeRegex word) = true.
Proof.
  induction word as [| c rest IH]; [reflexivity |].
  cbn [escapeRegex]. destruct (isRegexMeta c) eqn:Hmeta.
  - cbn [wellEscaped]. rewrite Ascii.eqb_refl, Hmeta, IH. reflexivity.
  - cbn [wellEscaped]. destruct (Ascii.eqb_spec c "\"%char) as [-> | _].
    + discriminate Hmeta.
    + rewrite Hmeta, IH. reflexivity.
Qed.

Section Facts.

Variable getLocalizedPaths :
  option string -> list Field -> option string -> string -> option string ->
  Payload -> list PathToQuery.
Variable sanitizeQueryValue :
  Field -> bool -> string -> string -> Value -> Sanitized.
Variable operatorMap : string -> option string.
Variable objectIdFault : string -> option Exn.
Variable isValidObjectId : string -> bool.
Variable parseFloat : string -> Value.

Local Abbreviation resolvePaths := (Query.resolvePaths getLocalizedPaths).
Local Abbreviation buildFragment :=
  (Query.buildFragment operatorMap objectIdFault isValidObjectId parseFloat).
Local Abbreviation buildSearchParam :=
  (Query.buildSearchParam getLocalizedPaths sanitizeQueryValue operatorMap
     objectIdFault isValidObjectId parseFloat).

(** C6. Resolving the path [id] (or [_id]) on any collection gives
    exactly one segment; it is complete, sits on [_id], and the type of
    its field is the collection's declared custom identifier type, or
    the default type [text] when the collection declares none. *)
Theorem id_path_resolves_to_one_complete_segment (a : Args) :
  a_incomingPath a = "id" \/ a_incomingPath a = "_id" ->
  exists segment,
    fst (resolvePaths a) = [segment] /\
    complete segment = true /\
    path segment = "_id" /\
    name (field segment) = "id" /\
    match customIDTypeOf (a_payload a) (a_collectionSlug a) with
    | Some declared => type (field segment) = IDType_name declared
    | None => type (field segment) = "text"
    end.
Proof.
  intros Hpath. unfold Query.resolvePaths, sanitizePath.
  assert (Hid : (if String.eqb (replaceDoubleUnderscore (a_incomingPath a)) "id"
                 then "_id" else replaceDoubleUnderscore (a_incomingPath a)) = "_id").
  { destruct Hpath as [-> | ->]; reflexivity. }
  rewrite Hid. simpl.
  destruct (customIDTypeOf (a_payload a) (a_collectionSlug a)) as [declared|];
    simpl; eexists; repeat split; reflexivity.
Qed.

Lemma truthyStr_app (s t : string) : truthyStr s = true -> truthyStr (s +:+ t) = true.
Proof. destruct s; [discriminate | reflexivity]. Qed.

(** C1, as amended. When the resolved path has three segments, the
    last of which is not the literal [id] (the leaf being an ordinary
    comparison on a named path through collections that have slugs),
    [buildSearchParam] appends exactly two [$lookup] stages to the
    caller's pipeline, in traversal order; the second one reads from
    a path under the alias the first one produced. *)
Theorem three_segments_push_two_lookups
    (a : Args) (st : Store) (p0 p1 p2 : PathToQuery) (hasCustomID : bool)
    (slug1 slug2 : string) :
  resolvePaths a = ([p0; p1; p2], hasCustomID) ->
  path p2 ≠ "id" ->
  path p0 ≠ "" ->
  collectionSlug p1 = Some slug1 ->
  collectionSlug p2 = Some slug2 ->
  truthy (s_rawQuery (sanitizeQueryValue (field p0) hasCustomID (a_operator a)
                        (path p0) (a_val a))) = false ->
  let stage1 :=
    {| as_ := "_" +:+ path p0; foreignField := "_id";
       from := lookupFrom slug1; localField := path p0 |} in
  let stage2 :=
    {| as_ := "_" +:+ path p0 +:+ "." +:+ path p1; foreignField := "_id";
       from := lookupFrom slug2;
       localField := "_" +:+ path p0 +:+ "." +:+ path p1 |} in
  pipeline (snd (buildSearchParam a st)) = pipeline st ++ [stage1; stage2] /\
  localField stage2 = as_ stage1 +:+ "." +:+ path p1.
Proof.
  intros Hpaths Hlast Hfirst Hslug1 Hslug2 Hraw stage1 stage2.
  split; [| reflexivity].
  pose proof (truthyStr_true _ Hfirst) as Ht.
  pose proof (truthyStr_app _ ("." +:+ path p1) Ht) as Ht'.
  pose proof (eqb_id_false _ Hlast) as Hid.
  unfold Query.buildSearchParam. rewrite Hpaths, Ht, Hraw.
  cbn [length Nat.ltb Nat.leb lookupLoop currentPath isID store].
  unfold nextIsFinalID.
  cbn [length Nat.add Nat.sub Nat.eqb andb lookup list_lookup].
  rewrite Hid, Hslug1, Hslug2.
  cbn [currentPath isID store andb]. rewrite !Ht, !Ht'.
  cbn [coerceID store isID snd].
  unfold pushStage, hideInProjection. cbn [pipeline projection].
  rewrite <- app_assoc. reflexivity.
Qed.


Lemma hasNumberIDRelation_true (payload : Payload) (rel : RelationTo) :
  hasNumberIDRelation payload rel = true <->
  exists target, In target (relationTargets rel) /\
                 customIDTypeOf payload target = Some IDNumber.
Proof.
  unfold hasNumberIDRelation. rewrite existsb_exists. split.
  - intros [target [Hin Hnum]]. exists target. split; [exact Hin |].
    destruct (customIDTypeOf payload target) as [[|]|]; congruence.
  - intros [target [Hin Hnum]]. exists target. rewrite Hnum. split; [exact Hin | reflexivity].
Qed.

Lemma hasNumberIDRelation_false (payload : Payload) (rel : RelationTo) :
  (forall target, In target (relationTargets rel) ->
                  customIDTypeOf payload target ≠ Some IDNumber) ->
  hasNumberIDRelation payload rel = false.
Proof.
  intros Hnone. destruct (hasNumberIDRelation payload rel) eqn:E; [| reflexivity].
  apply hasNumberIDRelation_true in E. destruct E as [target [Hin Hnum]].
  exfalso. exact (Hnone target Hin Hnum).
Qed.

(** C3. For a leaf that stays in its collection (one resolved
    segment) on a relationship or upload field compared with a string,
    [buildSearchParam] returns a condition under [$and] when the
    backend operator is [$ne] and under [$or] otherwise, made of the
    comparison with the string and a second branch: the comparison
    with the ObjectId of the string when the string is a valid
    ObjectId; otherwise the comparison with [parseFloat] of the string
    exactly when some declared target collection has the custom
    identifier type [number], a branch on the same path that names no
    target collection.  With neither branch the ordinary fragment is
    returned. *)
Theorem relationship_leaf_tries_identifier_forms
    (a : Args) (st : Store) (p0 : PathToQuery) (hasCustomID : bool)
    (operator s : string) :
  resolvePaths a = ([p0], hasCustomID) ->
  path p0 ≠ "" ->
  type (field p0) = "relationship" \/ type (field p0) = "upload" ->
  let result := sanitizeQueryValue (field p0) hasCustomID (a_operator a)
                  (path p0) (a_val a) in
  truthy (s_rawQuery result) = false ->
  s_operator result = Some operator ->
  includes validOperators operator = true ->
  s_val result = VStr s ->
  let operatorKey := operatorMap operator in
  let multiIDCondition :=
    match operatorKey with
    | Some k => if String.eqb k "$ne" then "$and" else "$or"
    | None => "$or"
    end in
  let stringBranch := VObj [(path p0, VObj [(propertyKey operatorKey, VStr s)])] in
  let multi second :=
    Normal (Some {| sp_path := None; sp_rawQuery := None;
                    sp_value := Some (VObj [(multiIDCondition,
                                             VArr [stringBranch; second])]) |}) in
  snd (buildSearchParam a st) = st /\
  (isValidObjectId s = true -> objectIdFault s = None ->
   fst (buildSearchParam a st) =
     multi (VObj [(path p0, VObj [(propertyKey operatorKey, VObjectId s)])])) /\
  (isValidObjectId s = false ->
   (exists target, In target (relationTargets (relationTo (field p0))) /\
                   customIDTypeOf (a_payload a) target = Some IDNumber) ->
   fst (buildSearchParam a st) =
     multi (VObj [(path p0, VObj [(propertyKey operatorKey, parseFloat s)])])) /\
  (isValidObjectId s = false ->
   (forall target, In target (relationTargets (relationTo (field p0))) ->
                   customIDTypeOf (a_payload a) target ≠ Some IDNumber) ->
   fst (buildSearchParam a st) =
     Normal (Some
       (if String.eqb operator "like"
        then {| sp_path := None; sp_rawQuery := None;
                sp_value := Some (likeFragment (path p0) s) |}
        else
          match operatorKey with
          | Some k =>
              if truthyStr k
              then {| sp_path := Some (path p0); sp_rawQuery := None;
                      sp_value := Some (VObj [(k, VStr s)]) |}
              else {| sp_path := Some (path p0); sp_rawQuery := None;
                      sp_value := Some (VStr s) |}
          | None => {| sp_path := Some (path p0); sp_rawQuery := None;
                       sp_value := Some (VStr s) |}
          end))).
Proof.
  intros Hpaths Hfirst Hkind result Hraw Hop Hvalid Hval operatorKey multiIDCondition
    stringBranch multi.
  pose proof (truthyStr_true _ Hfirst) as Ht.
  assert (Hop' : truthyStr operator = true).
  { apply truthyStr_true. intros ->. discriminate Hvalid. }
  assert (Hrel : (String.eqb (type (field p0)) "relationship"
                  || String.eqb (type (field p0)) "upload") = true).
  { destruct Hkind as [-> | ->]; reflexivity. }
  assert (Hrun : buildSearchParam a st =
            (buildFragment (a_payload a) [p0] (field p0) (path p0)
               (Some operator) (VStr s), st)).
  { unfold Query.buildSearchParam. rewrite Hpaths, Ht. fold result.
    rewrite Hraw, Hop, Hval. reflexivity. }
  rewrite Hrun. cbn [fst snd]. split; [reflexivity |].
  unfold Query.buildFragment. rewrite Hop', Hvalid.
  cbn [length Nat.ltb Nat.leb andb]. rewrite Hrel.
  unfold multiIDBranches, comparison. fold operatorKey.
  repeat split.
  - intros Hoid Hfault. rewrite Hoid. unfold ObjectId. rewrite Hfault. reflexivity.
  - intros Hoid Hnum. rewrite Hoid.
    rewrite (proj2 (hasNumberIDRelation_true _ _) Hnum). reflexivity.
  - intros Hoid Hnone. rewrite Hoid.
    rewrite (hasNumberIDRelation_false _ _ Hnone).
    cbn [length Nat.ltb Nat.leb]. destruct (String.eqb operator "like"); reflexivity.
Qed.

Lemma eqb_neq (s t : string) : s ≠ t -> String.eqb s t = false.
Proof. intros H. destruct (String.eqb_spec s t); [contradiction | reflexivity]. Qed.

(** C5, as amended. For a string given to [like] on a field of the
    collection itself that is neither a relationship nor an upload,
    the fragment is a conjunction ([$and]) with one case-insensitive
    partial match ([$regex] with [$options] ['i']) per piece of the
    value cut at every single space character: one more piece than the
    value has spaces, adjacent spaces giving empty pieces and other
    whitespace not cutting.  In each piece every regex metacharacter
    is escaped.  The value [red fox] gives two pieces. *)
Theorem like_matches_every_space_separated_piece
    (a : Args) (st : Store) (p0 : PathToQuery) (hasCustomID : bool) (s : string) :
  resolvePaths a = ([p0], hasCustomID) ->
  path p0 ≠ "" ->
  type (field p0) ≠ "relationship" ->
  type (field p0) ≠ "upload" ->
  let result := sanitizeQueryValue (field p0) hasCustomID (a_operator a)
                  (path p0) (a_val a) in
  truthy (s_rawQuery result) = false ->
  s_operator result = Some "like" ->
  s_val result = VStr s ->
  let words := split " " s in
  buildSearchParam a st =
    (Normal (Some {| sp_path := None; sp_rawQuery := None;
                     sp_value :=
                       Some (VObj [("$and",
                                    VArr (map (fun word =>
                                                 VObj [(path p0,
                                                        VObj [("$options", VStr "i");
                                                              ("$regex",
                                                               VStr (escapeRegex word))])])
                                            words))]) |}),
     st) /\
  length words = S (occurrences " " s) /\
  Forall (fun word => wellEscaped (escapeRegex word) = true) words /\
  split " " "red fox" = ["red"; "fox"] /\
  (forall (payload : Payload) (paths : list PathToQuery) (f : Field) (joined s' : string),
      (length paths <? 2)%nat &&
      (String.eqb (type f) "relationship" || String.eqb (type f) "upload") = false ->
      buildFragment payload paths f joined (Some "like") (VStr s')
      = Normal (Some {| sp_path := None; sp_rawQuery := None;
                        sp_value := Some (likeConjunction joined (split " " s')) |})).
Proof.
  intros Hpaths Hfirst Hrel Hupload result Hraw Hop Hval words.
  pose proof (truthyStr_true _ Hfirst) as Ht.
  split; [| split; [| split; [| split]]]; [| | | reflexivity |].
  - unfold Query.buildSearchParam. rewrite Hpaths, Ht. fold result.
    rewrite Hraw, Hop, Hval.
    cbn [length Nat.ltb Nat.leb]. unfold Query.buildFragment.
    cbn [truthyStr String.eqb Ascii.eqb Bool.eqb negb includes validOperators existsb
           orb andb length Nat.ltb Nat.leb].
    rewrite (eqb_neq _ _ Hrel), (eqb_neq _ _ Hupload). reflexivity.
  - apply split_length.
  - apply Forall_forall. intros word _. apply escapeRegex_wellEscaped.
  - intros payload paths f joined s' Hordinary. unfold Query.buildFragment.
    cbn [truthyStr String.eqb Ascii.eqb Bool.eqb negb includes validOperators existsb
           orb andb].
    rewrite Hordinary. reflexivity.
Qed.

Lemma lookupLoop_stages (paths rest : list PathToQuery) (i : nat) (st : Loop) :
  rest = drop i paths ->
  exists stages,
    pipeline (store (snd (lookupLoop paths rest i st))) = pipeline (store st) ++ stages /\
    forall (k : nat) (stage : Lookup),
      stages !! k = Some stage ->
      exists segment slug,
        paths !! (Nat.max i 1 + k)%nat = Some segment /\
        collectionSlug segment = Some slug /\
        from stage = lookupFrom slug.
Proof.
  revert i st. induction rest as [| pathToQuery rest IH]; intros i st Hrest.
  - exists []. cbn. rewrite app_nil_r. split; [reflexivity |].
    intros k stage Hk. destruct k; discriminate Hk.
  - assert (Hhere : paths !! i = Some pathToQuery).
    { pose proof (lookup_drop paths i 0) as Hd. rewrite <- Hrest in Hd.
      rewrite Nat.add_0_r in Hd. symmetry. exact Hd. }
    assert (Hnext : rest = drop (S i) paths).
    { pose proof (f_equal (drop 1) Hrest) as Hd. rewrite drop_drop in Hd.
      cbn [drop] in Hd. rewrite drop_0 in Hd. rewrite Hd. f_equal. lia. }
    cbn [lookupLoop]. destruct (nextIsFinalID paths i).
    { exists []. cbn. rewrite app_nil_r. split; [reflexivity |].
      intros k stage Hk. destruct k; discriminate Hk. }
    destruct (i =? 0)%nat eqn:Hzero.
    { apply Nat.eqb_eq in Hzero. subst i.
      destruct (IH 1%nat (mkLoop
                           (Some match currentPath st with
                                 | Some c => if truthyStr c then c else path pathToQuery
                                 | None => path pathToQuery
                                 end) (isID st) (store st)) Hnext)
        as [stages [Hpipe Hall]].
      exists stages. split; [exact Hpipe | exact Hall]. }
    apply Nat.eqb_neq in Hzero.
    destruct (collectionSlug pathToQuery) as [slug |] eqn:Hslug.
    + destruct (i =? 1)%nat;
        (match goal with
         | |- context [lookupLoop paths rest (S i) ?l] =>
             destruct (IH (S i) l Hnext) as [stages [Hpipe Hall]]
         end;
         cbn [store] in Hpipe; eexists (_ :: stages); split;
         [ rewrite Hpipe; unfold hideInProjection, pushStage; cbn [pipeline];
           rewrite <- app_assoc; reflexivity
         | intros k stage Hk; destruct k as [| k];
           [ injection Hk as <-; exists pathToQuery, slug;
             replace (Nat.max i 1 + 0)%nat with i by lia;
             split; [exact Hhere | split; [exact Hslug | reflexivity]]
           | destruct (Hall k stage Hk) as [segment [slug' [Hseg Hrest']]];
             exists segment, slug';
             replace (Nat.max i 1 + S k)%nat with (Nat.max (S i) 1 + k)%nat by lia;
             split; [exact Hseg | exact Hrest'] ] ]).
    + exists []. cbn. rewrite app_nil_r. split; [reflexivity |].
      intros k stage Hk. destruct k; discriminate Hk.
Qed.

(** C10. Every [$lookup] stage [buildSearchParam] adds to the pipeline
    takes its [from] from the slug of the segment it joins, the
    collection the stage reaches: stage [k] of the call (counted from
    0) belongs to segment [k + 1] of the resolved path, and its [from]
    is that segment's slug when the slug ends in [s] and the slug
    followed by [s] otherwise; no other plural is formed.  A
    collection stored under a name that is neither the slug followed
    by [s] nor a slug that ends in [s] is therefore not the one the
    stage names. *)
Theorem lookup_from_is_slug_with_s (a : Args) (st : Store) :
  exists stages,
    pipeline (snd (buildSearchParam a st)) = pipeline st ++ stages /\
    forall (k : nat) (stage : Lookup),
      stages !! k = Some stage ->
      exists segment slug,
        fst (resolvePaths a) !! S k = Some segment /\
        collectionSlug segment = Some slug /\
        from stage = (if endsWith slug "s" then slug else slug +:+ "s") /\
        forall backing : string,
          backing ≠ slug +:+ "s" ->
          (endsWith slug "s" = true -> backing ≠ slug) ->
          from stage ≠ backing.
Proof.
  unfold Query.buildSearchParam.
  destruct (resolvePaths a) as [paths hasCustomID]. cbn [fst].
  assert (Hnone : exists stages : list Lookup,
             pipeline st = pipeline st ++ stages /\
             forall (k : nat) (stage : Lookup),
               stages !! k = Some stage ->
               exists segment slug,
                 paths !! S k = Some segment /\
                 collectionSlug segment = Some slug /\
                 from stage = (if endsWith slug "s" then slug else slug +:+ "s") /\
                 forall backing : string,
                   backing ≠ slug +:+ "s" ->
                   (endsWith slug "s" = true -> backing ≠ slug) ->
                   from stage ≠ backing).
  { exists []. rewrite app_nil_r. split; [reflexivity |].
    intros k stage Hk. destruct k; discriminate Hk. }
  destruct paths as [| p0 rest]; [exact Hnone |].
  destruct (truthyStr (path p0)); [| exact Hnone].
  destruct (truthy _); [exact Hnone |].
  destruct (1 <? length (p0 :: rest))%nat; [| exact Hnone].
  destruct (lookupLoop_stages (p0 :: rest) (p0 :: rest) 0 (mkLoop None false st) eq_refl)
    as [stages [Hpipe Hall]].
  destruct (lookupLoop (p0 :: rest) (p0 :: rest) 0 (mkLoop None false st)) as [c lp].
  cbn [snd store] in Hpipe.
  exists stages. split.
  - destruct c as [[] | e]; [destruct (coerceID _ _ _) |]; exact Hpipe.
  - intros k stage Hk.
    destruct (Hall k stage Hk) as [segment [slug [Hseg [Hslug Hfrom]]]].
    exists segment, slug. split; [exact Hseg |]. split; [exact Hslug |].
    split; [exact Hfrom |].
    intros backing Hplus Hself Heq. rewrite Hfrom in Heq. unfold lookupFrom in Heq.
    destruct (endsWith slug "s") eqn:Hends.
    + apply (Hself eq_refl). symmetry. exact Heq.
    + apply Hplus. symmetry. exact Heq.
Qed.

Variable parseParams :
  option string -> option (list Field) -> option string -> option string ->
  Payload -> Value -> Store -> Completion Value * Store.

(** C4. The claim is that an operator outside the fixed set makes
    building the query fail with a [QueryError] that lists every
    malformed leaf.  The code collects nothing: [buildQuery] hands
    back whatever [parseParams] produced, its own [errors] list
    staying empty, and [buildSearchParam] answers an operator outside
    [validOperators] with [undefined], throwing nothing and recording
    nothing. *)
Theorem malformed_operator_is_not_reported
    (collectionSlug : option string) (versionsFields fields : option (list Field))
    (globalSlug locale : option string) (payload : Payload) (where_ : Value)
    (st : Store) :
  queryFields collectionSlug versionsFields globalSlug payload = Normal fields ->
  Query.buildQuery parseParams collectionSlug versionsFields globalSlug locale payload
    where_ st
  = parseParams collectionSlug fields globalSlug locale payload where_ st /\
  (forall (a : Args) (st : Store) (p0 : PathToQuery) (hasCustomID : bool)
          (operator : string),
      resolvePaths a = ([p0], hasCustomID) ->
      let result := sanitizeQueryValue (field p0) hasCustomID (a_operator a)
                      (path p0) (a_val a) in
      truthy (s_rawQuery result) = false ->
      s_operator result = Some operator ->
      includes validOperators operator = false ->
      buildSearchParam a st = (Normal None, st)).
Proof.
  intros Hfields. split.
  - unfold Query.buildQuery. rewrite Hfields.
    destruct (parseParams collectionSlug fields globalSlug locale payload where_ st)
      as [[result | e] st']; reflexivity.
  - intros a st0 p0 hasCustomID operator Hpaths result Hraw Hop Hinvalid.
    unfold Query.buildSearchParam. rewrite Hpaths. fold result.
    destruct (truthyStr (path p0)); [| reflexivity].
    rewrite Hraw, Hop. cbn [length Nat.ltb Nat.leb].
    unfold Query.buildFragment. rewrite Hinvalid, andb_false_r. reflexivity.
Qed.

End Facts.

(** *** The theorems at work on the sample site *)

Lemma id_path_resolves_to_one_complete_segment_witness :
  (a_incomingPath (Samples.args "id" "equals" (VStr "7")) = "id" \/
   a_incomingPath (Samples.args "id" "equals" (VStr "7")) = "_id") /\
  exists segment,
    fst (Query.resolvePaths Samples.getLocalizedPaths (Samples.args "id" "equals" (VStr "7")))
      = [segment] /\
    complete segment = true /\
    path segment = "_id" /\
    name (field segment) = "id" /\
    type (field segment) = "text".
Proof.
  split; [left; reflexivity |].
  apply (id_path_resolves_to_one_complete_segment Samples.getLocalizedPaths
           (Samples.args "id" "equals" (VStr "7"))).
  left; reflexivity.
Defined.

(** C1, counterexample: [article.author.id] resolves to three segments
    over two relationship hops, and no [$lookup] stage is pushed. *)
Lemma three_segments_ending_in_id_push_no_lookup :
  length (fst (Query.resolvePaths Samples.getLocalizedPaths
                 (Samples.args "article.author.id" "equals"
                    (VStr "507f1f77bcf86cd799439011")))) = 3 /\
  pipeline (snd (Samples.buildSearchParam
                   (Samples.args "article.author.id" "equals"
                      (VStr "507f1f77bcf86cd799439011"))
                   Samples.emptyStore)) = [].
Proof. split; vm_compute; reflexivity. Qed.

Lemma three_segments_push_two_lookups_witness :
  pipeline (snd (Samples.buildSearchParam
                   (Samples.args "article.author.name" "equals" (VStr "bob"))
                   Samples.emptyStore))
  = [ {| as_ := "_article"; foreignField := "_id"; from := "articles";
         localField := "article" |};
      {| as_ := "_article.author"; foreignField := "_id"; from := "users";
         localField := "_article.author" |} ].
Proof.
  refine (proj1 (three_segments_push_two_lookups
                   Samples.getLocalizedPaths Samples.sanitizeQueryValue Samples.operatorMap
                   Samples.objectIdFault Samples.isValidObjectId Samples.parseFloat
                   (Samples.args "article.author.name" "equals" (VStr "bob"))
                   Samples.emptyStore
                   (mkPathToQuery (Some "posts") true Samples.articleField "article")
                   (mkPathToQuery (Some "articles") true Samples.authorField "author")
                   (mkPathToQuery (Some "users") true (Samples.textField "name") "name")
                   false "articles" "users" _ _ _ _ _ _));
    first [reflexivity | discriminate].
Defined.



Lemma relationship_leaf_tries_identifier_forms_witness :
  fst (Samples.buildSearchParam (Samples.args "owner" "not_equals" (VStr "42"))
         Samples.emptyStore)
  = Normal (Some {| sp_path := None; sp_rawQuery := None;
                    sp_value :=
                      Some (VObj [("$and",
                                   VArr [ VObj [("owner", VObj [("$ne", VStr "42")])];
                                          VObj [("owner", VObj [("$ne", VNum 42)])] ])]) |}).
Proof.
  destruct (relationship_leaf_tries_identifier_forms
              Samples.getLocalizedPaths Samples.sanitizeQueryValue Samples.operatorMap
              Samples.objectIdFault Samples.isValidObjectId Samples.parseFloat
              (Samples.args "owner" "not_equals" (VStr "42")) Samples.emptyStore
              (mkPathToQuery (Some "posts") true Samples.ownerField "owner")
              false "not_equals" "42"
              eq_refl ltac:(discriminate) (or_introl eq_refl) eq_refl eq_refl eq_refl eq_refl)
    as [_ [_ [Hnumber _]]].
  apply Hnumber; [reflexivity |].
  exists (Some "events"). split; [right; left; reflexivity | reflexivity].
Defined.

(** C5, counterexample: two adjacent spaces give three fragments, one
    of them with an empty pattern, where the whitespace-separated
    tokens are two. *)
Lemma like_keeps_the_empty_piece_between_two_spaces :
  Samples.buildSearchParam (Samples.args "title" "like" (VStr "red  fox"))
    Samples.emptyStore
  = (Normal (Some {| sp_path := None; sp_rawQuery := None;
                     sp_value := Some (likeConjunction "title" ["red"; ""; "fox"]) |}),
     Samples.emptyStore) /\
  likeFragmentByWhitespace "title" "red  fox" = likeConjunction "title" ["red"; "fox"] /\
  likeConjunction "title" ["red"; ""; "fox"] ≠ likeFragmentByWhitespace "title" "red  fox".
Proof.
  split; [vm_compute; reflexivity |]. split; [reflexivity |].
  intros H. vm_compute in H. discriminate H.
Qed.

Lemma like_matches_every_space_separated_piece_witness :
  Samples.buildSearchParam (Samples.args "title" "like" (VStr "red f.x"))
    Samples.emptyStore
  = (Normal (Some {| sp_path := None; sp_rawQuery := None;
                     sp_value := Some (likeConjunction "title" ["red"; "f.x"]) |}),
     Samples.emptyStore).
Proof.
  refine (proj1 (like_matches_every_space_separated_piece
                   Samples.getLocalizedPaths Samples.sanitizeQueryValue Samples.operatorMap
                   Samples.objectIdFault Samples.isValidObjectId Samples.parseFloat
                   (Samples.args "title" "like" (VStr "red f.x")) Samples.emptyStore
                   (mkPathToQuery (Some "posts") true (Samples.textField "title") "title")
                   false "red f.x" _ _ _ _ _ _ _));
    first [reflexivity | discriminate].
Defined.

Lemma malformed_operator_is_not_reported_witness :
  Samples.buildQuery (VObj [("title", VObj [("bogus_op", VStr "x")])]) Samples.emptyStore
  = (Normal (VObj []), Samples.emptyStore) /\
  Samples.buildSearchParam (Samples.args "title" "bogus_op" (VStr "x")) Samples.emptyStore
  = (Normal None, Samples.emptyStore).
Proof.
  destruct (malformed_operator_is_not_reported
              Samples.getLocalizedPaths Samples.sanitizeQueryValue Samples.operatorMap
              Samples.objectIdFault Samples.isValidObjectId Samples.parseFloat
              Samples.parseParams
              (Some "posts") None
              (Some [Samples.articleField; Samples.ownerField; Samples.textField "title"])
              None None Samples.payload
              (VObj [("title", VObj [("bogus_op", VStr "x")])]) Samples.emptyStore
              eq_refl) as [Hquery Hparam].
  split.
  - unfold Samples.buildQuery. rewrite Hquery. vm_compute. reflexivity.
  - apply (Hparam (Samples.args "title" "bogus_op" (VStr "x")) Samples.emptyStore
             (mkPathToQuery (Some "posts") true (Samples.textField "title") "title")
             false "bogus_op"); reflexivity.
Defined.

Example lookupFrom_category :
  lookupFrom "category" = "categorys" /\ lookupFrom "posts" = "posts".
Proof. split; reflexivity. Qed.

End QueryFacts.

(** ** Properties of schema derivation *)

Module SchemaFacts.

Import JS Schema.

(** *** Outcomes of composed computations *)

Lemma endsAs_bind_total {S A B} (fault : option Exn) (m : ST S A) (k : A -> ST S B) (s : S) :
  endsAs fault (m s) -> total k -> endsAs fault (bind m k s).
Proof.
  intros Hm Hk. unfold bind. destruct (m s) as [[a | e] s'].
  - destruct fault as [e |]; cbn in *; [discriminate Hm | apply Hk].
  - destruct fault as [e' |]; cbn in *;
      [injection Hm as ->; reflexivity | destruct Hm as [a Ha]; discriminate Ha].
Qed.

Lemma endsAs_bind_first {S A B} (e : Exn) (m : ST S A) (k : A -> ST S B) (s : S) :
  fst (m s) = Abrupt e -> fst (bind m k s) = Abrupt e.
Proof.
  intros Hm. unfold bind. destruct (m s) as [[a | e'] s']; cbn in *;
    [discriminate Hm | injection Hm as ->; reflexivity].
Qed.

Lemma foldM_endsAs {S A B} (step : A -> B -> ST S B) (fault : A -> option Exn)
    (xs : list A) :
  Forall (fun x => forall acc s, endsAs (fault x) (step x acc s)) xs ->
  forall acc s, endsAs (firstFault fault xs) (foldM step xs acc s).
Proof.
  induction 1 as [| x rest Hx _ IH]; intros acc s.
  - cbn. eexists. reflexivity.
  - cbn [firstFault foldM]. specialize (Hx acc s).
    destruct (fault x) as [e |]; cbn in Hx.
    + cbn. apply endsAs_bind_first. exact Hx.
    + destruct Hx as [acc' Hacc']. unfold bind.
      destruct (step x acc s) as [c s']. cbn in Hacc'. subst c. apply IH.
Qed.

Lemma mapM_endsAs {S A B} (f : A -> ST S B) (fault : A -> option Exn) (xs : list A) :
  Forall (fun x => forall s, endsAs (fault x) (f x s)) xs ->
  forall s, endsAs (firstFault fault xs) (mapM f xs s).
Proof.
  induction 1 as [| x rest Hx _ IH]; intros s.
  - cbn. eexists. reflexivity.
  - cbn [firstFault mapM]. specialize (Hx s).
    destruct (fault x) as [e |]; cbn in Hx.
    + cbn. apply endsAs_bind_first. exact Hx.
    + destruct Hx as [y Hy]. unfold bind at 1.
      destruct (f x s) as [c s']. cbn in Hy. subst c.
      apply endsAs_bind_total; [apply IH |].
      intros ys s''. eexists. reflexivity.
Qed.

Lemma normal_bind {S A B} (m : ST S A) (k : A -> ST S B) (s : S) :
  (exists a, fst (m s) = Normal a) -> total k -> exists b, fst (bind m k s) = Normal b.
Proof.
  intros [a Ha] Hk. unfold bind. destruct (m s) as [c s']. cbn in Ha. subst c. apply Hk.
Qed.

Lemma liftInterface_total (interfaceName : option string) (schema : Value) (reg : Registry) :
  exists s, fst (liftInterface interfaceName schema reg) = Normal s.
Proof.
  unfold liftInterface. destruct interfaceName as [n |]; [destruct (truthyStr n) |];
    eexists; reflexivity.
Qed.

Section Derivation.
Variable ids : IDFieldTypes.

Lemma fieldsToJSONSchema_endsAs (fields : list Field) :
  Forall (fun f => forall acc reg, endsAs (editorFault f) (fieldStep ids f acc reg)) fields ->
  forall reg, endsAs (firstFault editorFault fields) (fieldsToJSONSchema ids fields reg).
Proof.
  intros Hall reg. unfold fieldsToJSONSchema.
  apply endsAs_bind_total.
  - apply foldM_endsAs. exact Hall.
  - intros a s. eexists. reflexivity.
Qed.

Lemma fieldStep_endsAs (f : Field) :
  forall acc reg, endsAs (editorFault f) (fieldStep ids f acc reg).
Proof.
  induction f as [name base kind IH] using Field_nested_ind.
  intros acc reg.
  assert (Htail : forall A (m : M (Value * Acc)) fault reg,
             endsAs fault (m reg) ->
             endsAs fault
               (bind m (fun switched =>
                  let '(fieldSchema, acc) := switched in
                  let fieldSchema :=
                    fold_left (fun jsonSchema schema => schema jsonSchema)
                      (typescriptSchema base) fieldSchema in
                  ret (match name with
                       | Some n =>
                           if truthy fieldSchema && A
                           then setFieldSchema n fieldSchema acc else acc
                       | None => acc
                       end)) reg)).
  { intros A m fault reg0 Hm. apply endsAs_bind_total; [exact Hm |].
    intros [fieldSchema acc0] s. eexists. reflexivity. }
  destruct kind; cbn [fieldStep editorFault]; apply Htail;
    try (eexists; reflexivity).
  - (* richText *)
    destruct editor as [| | [outputSchema |]]; cbn;
      try reflexivity; try (eexists; reflexivity).
    unfold bind. destruct (outputSchema ids _ reg). eexists. reflexivity.
  - (* blocks *)
    apply endsAs_bind_total; [| intros a s; eexists; reflexivity].
    destruct blocks as [| block blocks']; [eexists; reflexivity |].
    cbn [length Nat.eqb negb].
    apply mapM_endsAs. cbn [nestedAll] in IH.
    eapply List.Forall_impl; [| exact IH].
    intros b Hb s. apply endsAs_bind_total.
    + apply (fieldsToJSONSchema_endsAs _ Hb).
    + intros a s'. apply liftInterface_total.
  - (* array *)
    apply endsAs_bind_total; [apply (fieldsToJSONSchema_endsAs _ IH) |].
    intros child s. apply normal_bind; [apply liftInterface_total |].
    intros v s'. eexists. reflexivity.
  - (* row *)
    apply endsAs_bind_total; [apply (fieldsToJSONSchema_endsAs _ IH) |].
    intros child s. eexists. reflexivity.
  - (* collapsible *)
    apply endsAs_bind_total; [apply (fieldsToJSONSchema_endsAs _ IH) |].
    intros child s. eexists. reflexivity.
  - (* tabs *)
    apply endsAs_bind_total; [| intros a s; eexists; reflexivity].
    apply foldM_endsAs. cbn [nestedAll] in IH.
    eapply List.Forall_impl; [| exact IH].
    intros tab Htab acc0 s. apply endsAs_bind_total.
    + apply (fieldsToJSONSchema_endsAs _ Htab).
    + intros a s'. eexists. reflexivity.
  - (* group *)
    apply endsAs_bind_total; [apply (fieldsToJSONSchema_endsAs _ IH) |].
    intros child s. apply normal_bind; [apply liftInterface_total |].
    intros v s'. eexists. reflexivity.
Qed.

(** C8. Derivation from a field list throws in two cases only, both
    at a rich-text field: the missing-editor error ([MissingEditorProp]
    of the field) when the field has no editor, and the error
    [Attempted to access unsanitized rich text editor.] when its editor
    is still a function; the first such field, in the order the tree
    is visited, decides.  With no such field derivation returns a
    schema. *)
Theorem derivation_throws_only_for_rich_text_editors
    (fields : list Field) (reg : Registry) :
  match firstFault editorFault fields with
  | Some e =>
      fst (fieldsToJSONSchema ids fields reg) = Abrupt e /\
      ((exists name, e = MissingEditorProp name) \/
       e = Error "Attempted to access unsanitized rich text editor.")
  | None => exists schema, fst (fieldsToJSONSchema ids fields reg) = Normal schema
  end /\
  (forall name base acc,
      fst (fieldStep ids (MkField name base (KRichText EditorAbsent)) acc reg)
      = Abrupt (MissingEditorProp name)) /\
  (forall name base acc,
      fst (fieldStep ids (MkField name base (KRichText EditorFunction)) acc reg)
      = Abrupt (Error "Attempted to access unsanitized rich text editor.")).
Proof.
  split; [| split; intros name base acc;
            [exact (fieldStep_endsAs (MkField name base (KRichText EditorAbsent)) acc reg)
            |exact (fieldStep_endsAs (MkField name base (KRichText EditorFunction)) acc reg)]].
  pose proof (fieldsToJSONSchema_endsAs fields
                (proj2 (Forall_forall _ _) (fun f _ => fieldStep_endsAs f)) reg) as Hends.
  destruct (firstFault editorFault fields) as [e |] eqn:Hfault; [| exact Hends].
  split; [exact Hends |].
  clear Hends. revert e Hfault.
  assert (Hfield : forall f e, editorFault f = Some e ->
            (exists name, e = MissingEditorProp name) \/
            e = Error "Attempted to access unsanitized rich text editor.").
  { assert (Hlist : forall (A : Type) (fault : A -> option Exn) (xs : list A) (Q : Exn -> Prop),
               Forall (fun x => forall e, fault x = Some e -> Q e) xs ->
               forall e, firstFault fault xs = Some e -> Q e).
    { intros A fault xs Q Hall. induction Hall as [| x rest Hx _ IH]; intros e He.
      - discriminate He.
      - cbn in He. destruct (fault x) as [e' |] eqn:Hfx.
        + injection He as <-. apply Hx. reflexivity.
        + apply IH. exact He. }
    intros f. induction f as [name base kind IH] using Field_nested_ind.
    intros e He. destruct kind; cbn in He; try discriminate He.
    - destruct editor as [| | outputSchema]; [| | discriminate He];
        injection He as <-; [left; eexists; reflexivity | right; reflexivity].
    - revert e He. apply Hlist. cbn in IH.
      eapply List.Forall_impl; [| exact IH]. intros block Hblock. apply Hlist. exact Hblock.
    - revert e He. apply Hlist. exact IH.
    - revert e He. apply Hlist. exact IH.
    - revert e He. apply Hlist. exact IH.
    - revert e He. apply Hlist. cbn in IH.
      eapply List.Forall_impl; [| exact IH]. intros tab Htab. apply Hlist. exact Htab.
    - revert e He. apply Hlist. exact IH. }
  induction fields as [| f rest IH]; intros e He; [discriminate He |].
  cbn in He. destruct (editorFault f) as [e' |] eqn:Hf.
  - injection He as <-. exact (Hfield f e' Hf).
  - exact (IH e He).
Qed.

End Derivation.

(** *** The registry only grows *)

Lemma keys_objSet (k k' : string) (v : Value) (o : Obj) :
  In k (map fst (objSet k' v o)) <-> k = k' \/ In k (map fst o).
Proof.
  induction o as [| [k0 v0] rest IH]; cbn.
  - intuition congruence.
  - destruct (String.eqb_spec k0 k'); cbn.
    + subst k0. intuition congruence.
    + rewrite IH. intuition congruence.
Qed.

Lemma keys_objSpread (k : string) (src dst : Obj) :
  In k (map fst (objSpread src dst)) <-> In k (map fst src) \/ In k (map fst dst).
Proof.
  unfold objSpread. revert dst. induction src as [| [k0 v0] rest IH]; intros dst; cbn.
  - intuition.
  - rewrite IH, keys_objSet. intuition congruence.
Qed.

Lemma objGet_is_Some (k : string) (o : Obj) : In k (map fst o) -> is_Some (objGet k o).
Proof.
  induction o as [| [k0 v0] rest IH]; cbn; [intros [] |].
  destruct (String.eqb_spec k0 k); [eexists; reflexivity |].
  intros [Heq | Hin]; [contradiction | apply IH, Hin].
Qed.

(** *** Maps and sets as lists *)

Lemma keys_objSet_setAdd (k : string) (v : Value) (o : Obj) :
  keys (objSet k v o) = setAdd k (keys o).
Proof.
  unfold keys, setAdd. induction o as [| [k0 v0] rest IH]; [reflexivity |].
  cbn [objSet map fst existsb]. rewrite (String.eqb_sym k k0).
  destruct (String.eqb_spec k0 k) as [-> | _]; cbn [orb map fst]; [reflexivity |].
  rewrite IH. destruct (existsb (String.eqb k) (map fst rest)); reflexivity.
Qed.

Lemma existsb_eqb_In (x : string) (s : list string) :
  existsb (String.eqb x) s = true <-> In x s.
Proof.
  rewrite existsb_exists. split.
  - intros [y [Hin Heq]]. apply String.eqb_eq in Heq. subst y. exact Hin.
  - intros Hin. exists x. split; [exact Hin | apply String.eqb_refl].
Qed.

Lemma NoDup_setAdd (x : string) (s : list string) : NoDup s -> NoDup (setAdd x s).
Proof.
  intros Hs. unfold setAdd. destruct (existsb (String.eqb x) s) eqn:Hx; [exact Hs |].
  apply NoDup_app. split; [exact Hs |]. split.
  - intros y Hy Hin. apply list_elem_of_singleton in Hin. subst y.
    apply list_elem_of_In, existsb_eqb_In in Hy. congruence.
  - apply NoDup_singleton.
Qed.

Lemma In_setAdd (x y : string) (s : list string) :
  In y (setAdd x s) <-> y = x \/ In y s.
Proof.
  unfold setAdd. destruct (existsb (String.eqb x) s) eqn:Hx.
  - apply existsb_eqb_In in Hx. intuition congruence.
  - rewrite in_app_iff. cbn. intuition congruence.
Qed.

Lemma objGet_objSet_eq (k : string) (v : Value) (o : Obj) :
  objGet k (objSet k v o) = Some v.
Proof.
  induction o as [| [k0 v0] rest IH]; cbn [objSet objGet].
  - rewrite String.eqb_refl. reflexivity.
  - destruct (String.eqb k0 k) eqn:Hk; cbn [objGet].
    + rewrite String.eqb_refl. reflexivity.
    + rewrite Hk. exact IH.
Qed.

Lemma objGet_objSet_ne (k k' : string) (v : Value) (o : Obj) :
  k ≠ k' -> objGet k (objSet k' v o) = objGet k o.
Proof.
  intros Hne. induction o as [| [k0 v0] rest IH]; cbn [objSet objGet].
  - destruct (String.eqb_spec k' k); [congruence | reflexivity].
  - destruct (String.eqb_spec k0 k'); cbn [objGet].
    + subst k0. destruct (String.eqb_spec k' k); [congruence | reflexivity].
    + rewrite IH. reflexivity.
Qed.

Lemma NoDup_keys_objSet (k : string) (v : Value) (o : Obj) :
  NoDup (keys o) -> NoDup (keys (objSet k v o)).
Proof. intros H. rewrite keys_objSet_setAdd. apply NoDup_setAdd, H. Qed.






Lemma grows_ret {A} (a : A) : grows (ret a).
Proof. intros reg k Hk. exact Hk. Qed.

Lemma grows_throw {A} (e : Exn) : grows (@throw Registry A e).
Proof. intros reg k Hk. exact Hk. Qed.

Lemma grows_bind {A B} (m : M A) (k : A -> M B) :
  grows m -> (forall a, grows (k a)) -> grows (bind m k).
Proof.
  intros Hm Hk reg key Hkey. specialize (Hm reg key Hkey). unfold bind.
  destruct (m reg) as [[a | e] reg']; [apply Hk |]; exact Hm.
Qed.

Lemma grows_foldM {A B} (step : A -> B -> M B) (xs : list A) :
  Forall (fun x => forall acc, grows (step x acc)) xs -> forall acc, grows (foldM step xs acc).
Proof.
  induction 1 as [| x rest Hx _ IH]; intros acc; cbn [foldM].
  - apply grows_ret.
  - apply grows_bind; [apply Hx | exact IH].
Qed.

Lemma grows_mapM {A B} (f : A -> M B) (xs : list A) :
  Forall (fun x => grows (f x)) xs -> grows (mapM f xs).
Proof.
  induction 1 as [| x rest Hx _ IH]; cbn [mapM].
  - apply grows_ret.
  - apply grows_bind; [exact Hx |]. intros y.
    apply grows_bind; [exact IH |]. intros ys. apply grows_ret.
Qed.

Lemma grows_liftInterface (interfaceName : option string) (schema : Value) :
  grows (liftInterface interfaceName schema).
Proof.
  unfold liftInterface. destruct interfaceName as [n |]; [| apply grows_ret].
  destruct (truthyStr n); [| apply grows_ret].
  intros reg k Hk. cbn. apply keys_objSet. right. exact Hk.
Qed.

Lemma grows_richTextSchema (ids : IDFieldTypes) (name : option string) (editor : Editor)
    (isRequired : bool) :
  grows (richTextSchema ids name editor isRequired).
Proof.
  destruct editor as [| | [outputSchema |]]; cbn;
    try apply grows_throw; try apply grows_ret.
  intros reg k Hk. destruct (outputSchema ids isRequired reg) as [schema writes]. cbn.
  apply keys_objSpread. right. exact Hk.
Qed.

Lemma reaches_bind_l {A B} (n : string) (m : M A) (k : A -> M B) :
  reaches n m -> (forall a, grows (k a)) -> reaches n (bind m k).
Proof.
  intros Hm Hk reg [b Hb]. unfold bind in *. specialize (Hm reg).
  destruct (m reg) as [[a | e] reg']; [| discriminate Hb].
  apply Hk. apply Hm. eexists. reflexivity.
Qed.

Lemma reaches_bind_r {A B} (n : string) (m : M A) (k : A -> M B) :
  (forall a, reaches n (k a)) -> reaches n (bind m k).
Proof.
  intros Hk reg [b Hb]. unfold bind in *.
  destruct (m reg) as [[a | e] reg']; [| discriminate Hb].
  apply Hk. eexists. exact Hb.
Qed.

Lemma reaches_foldM {A B} (n : string) (step : A -> B -> M B) (hit : A -> bool)
    (xs : list A) :
  Forall (fun x => forall acc, grows (step x acc)) xs ->
  Forall (fun x => hit x = true -> forall acc, reaches n (step x acc)) xs ->
  existsb hit xs = true ->
  forall acc, reaches n (foldM step xs acc).
Proof.
  intros Hgrow Hreach. induction Hreach as [| x rest Hx Hrest IH]; intros Hhit acc.
  - discriminate Hhit.
  - inversion Hgrow as [| ? ? Hgx Hgrest]; subst. cbn [foldM existsb] in *.
    destruct (hit x) eqn:Hhx.
    + apply reaches_bind_l; [apply Hx; reflexivity |]. intros acc'.
      apply grows_foldM. exact Hgrest.
    + apply reaches_bind_r. intros acc'. apply IH; assumption.
Qed.

Lemma reaches_mapM {A B} (n : string) (f : A -> M B) (hit : A -> bool) (xs : list A) :
  Forall (fun x => grows (f x)) xs ->
  Forall (fun x => hit x = true -> reaches n (f x)) xs ->
  existsb hit xs = true ->
  reaches n (mapM f xs).
Proof.
  intros Hgrow Hreach. induction Hreach as [| x rest Hx Hrest IH]; intros Hhit.
  - discriminate Hhit.
  - inversion Hgrow as [| ? ? Hgx Hgrest]; subst. cbn [mapM existsb] in *.
    destruct (hit x) eqn:Hhx.
    + apply reaches_bind_l; [apply Hx; reflexivity |]. intros y.
      apply grows_bind; [apply grows_mapM; exact Hgrest | intros ys; apply grows_ret].
    + apply reaches_bind_r. intros y. apply reaches_bind_l; [apply IH; assumption |].
      intros ys. apply grows_ret.
Qed.

Section Registry.
Variable ids : IDFieldTypes.

Lemma grows_fieldsToJSONSchema (fields : list Field) :
  Forall (fun f => forall acc, grows (fieldStep ids f acc)) fields ->
  grows (fieldsToJSONSchema ids fields).
Proof.
  intros Hall. unfold fieldsToJSONSchema. apply grows_bind.
  - apply grows_foldM. exact Hall.
  - intros a. apply grows_ret.
Qed.

Lemma grows_fieldStep (f : Field) : forall acc, grows (fieldStep ids f acc).
Proof.
  induction f as [name base kind IH] using Field_nested_ind. intros acc.
  destruct kind; cbn [fieldStep];
    (apply grows_bind; [| intros [fieldSchema acc0]; apply grows_ret]);
    try apply grows_ret.
  - apply grows_bind; [apply grows_richTextSchema | intros s; apply grows_ret].
  - apply grows_bind; [| intros options; apply grows_ret].
    destruct (negb (length blocks =? 0)%nat); [| apply grows_ret].
    apply grows_mapM. cbn [nestedAll] in IH.
    eapply List.Forall_impl; [| exact IH]. intros block Hblock.
    apply grows_bind; [apply grows_fieldsToJSONSchema, Hblock |].
    intros child. apply grows_liftInterface.
  - apply grows_bind; [apply grows_fieldsToJSONSchema, IH |]. intros child.
    apply grows_bind; [apply grows_liftInterface | intros s; apply grows_ret].
  - apply grows_bind; [apply grows_fieldsToJSONSchema, IH |]. intros child.
    apply grows_ret.
  - apply grows_bind; [apply grows_fieldsToJSONSchema, IH |]. intros child.
    apply grows_ret.
  - apply grows_bind; [| intros acc0; apply grows_ret].
    apply grows_foldM. cbn [nestedAll] in IH.
    eapply List.Forall_impl; [| exact IH]. intros tab Htab acc0.
    apply grows_bind; [apply grows_fieldsToJSONSchema, Htab |].
    intros child. apply grows_ret.
  - apply grows_bind; [apply grows_fieldsToJSONSchema, IH |]. intros child.
    apply grows_bind; [apply grows_liftInterface | intros s; apply grows_ret].
Qed.

Lemma grows_all (fields : list Field) :
  Forall (fun f => forall acc, grows (fieldStep ids f acc)) fields.
Proof. apply Forall_forall. intros f _. apply grows_fieldStep. Qed.











Variable n : string.
Hypothesis n_truthy : truthyStr n = true.

Lemma reaches_liftInterface (schema : Value) : reaches n (liftInterface (Some n) schema).
Proof.
  intros reg _. unfold liftInterface. rewrite n_truthy. cbn.
  apply keys_objSet. left. reflexivity.
Qed.





End Registry.

(** *** Derivation and the entity objects *)

Lemma sameEntities_trans (refs : list nat) (h1 h2 h3 : gmap nat Entity) :
  sameEntities refs h1 h2 -> sameEntities refs h2 h3 -> sameEntities refs h1 h3.
Proof.
  intros H12 H23 l Hl. destruct (H12 l Hl) as [Hsome H2]. destruct (H23 l Hl) as [_ H3].
  split; [exact Hsome | congruence].
Qed.

Lemma sameEntities_refl (refs : list nat) (h h' : gmap nat Entity) :
  sameEntities refs h h' -> sameEntities refs h h.
Proof. intros H l Hl. destruct (H l Hl) as [Hsome _]. split; [exact Hsome | reflexivity]. Qed.

Lemma respects_ret {A} (refs : list nat) (a : A) : respects refs (ret a).
Proof.
  intros w w' [Hreg Hheap]. cbn.
  split; [reflexivity | split; [split; assumption | eapply sameEntities_refl, Hheap]].
Qed.

Lemma respects_bind {A B} (refs : list nat) (m : ST World A) (k : A -> ST World B) :
  respects refs m -> (forall a, respects refs (k a)) -> respects refs (bind m k).
Proof.
  intros Hm Hk w w' Hin. destruct (Hm w w' Hin) as [Hfst [Hnext Hkeep]].
  unfold bind. destruct (m w) as [c w1], (m w') as [c' w1']. cbn in Hfst, Hnext, Hkeep.
  subst c'. destruct c as [a | e].
  - destruct (Hk a w1 w1' Hnext) as [Hfst' [Hnext' Hkeep']].
    split; [exact Hfst' | split; [exact Hnext' |]].
    eapply sameEntities_trans; eassumption.
  - cbn. split; [reflexivity | split; assumption].
Qed.

Lemma respects_foldM {A B} (refs : list nat) (step : A -> B -> ST World B) (xs : list A) :
  (forall x, In x xs -> forall acc, respects refs (step x acc)) ->
  forall acc, respects refs (foldM step xs acc).
Proof.
  induction xs as [| x rest IH]; intros Hstep acc.
  - apply respects_ret.
  - cbn [foldM]. apply respects_bind.
    + apply Hstep. left. reflexivity.
    + intros acc'. apply IH. intros y Hy. apply Hstep. right. exact Hy.
Qed.

Lemma respects_mapM {A B} (refs : list nat) (f : A -> ST World B) (xs : list A) :
  (forall x, In x xs -> respects refs (f x)) -> respects refs (mapM f xs).
Proof.
  induction xs as [| x rest IH]; intros Hf.
  - apply respects_ret.
  - cbn [mapM]. apply respects_bind.
    + apply Hf. left. reflexivity.
    + intros y. apply respects_bind.
      * apply IH. intros z Hz. apply Hf. right. exact Hz.
      * intros ys. apply respects_ret.
Qed.

Lemma respects_readEntity (refs : list nat) (l : nat) :
  In l refs -> respects refs (readEntity l).
Proof.
  intros Hl w w' Hin. destruct Hin as [Hreg Hheap].
  destruct (Hheap l Hl) as [[e He] Hsame]. unfold readEntity. rewrite Hsame, He. cbn.
  split; [reflexivity | split; [split; assumption | eapply sameEntities_refl, Hheap]].
Qed.

Lemma respects_liftRegistry {A} (refs : list nat) (m : M A) :
  respects refs (liftRegistry m).
Proof.
  intros w w' [Hreg Hheap]. unfold liftRegistry. rewrite <- Hreg.
  destruct (m (registry w)) as [c reg]. cbn.
  split; [reflexivity | split; [split; [reflexivity | assumption] |]].
  eapply sameEntities_refl, Hheap.
Qed.

Lemma respects_registry (refs : list nat) :
  respects refs (fun w : World => (Normal (registry w), w)).
Proof.
  intros w w' [Hreg Hheap]. cbn. rewrite Hreg.
  split; [reflexivity | split; [split; assumption | eapply sameEntities_refl, Hheap]].
Qed.

Lemma wp_ret {S A} (a : A) (Q : A -> S -> Prop) (s : S) : Q a s -> wp (ret a) Q s.
Proof. intros H. exact H. Qed.

Lemma wp_bind {S A B} (m : ST S A) (k : A -> ST S B) (Q : B -> S -> Prop) (s : S) :
  wp m (fun a s' => wp (k a) Q s') s -> wp (bind m k) Q s.
Proof.
  unfold wp, bind. destruct (m s) as [[a | e] s']; intros H; exact H.
Qed.

Lemma wp_any {S A} (m : ST S A) (Q : A -> S -> Prop) (s : S) :
  (forall a s', Q a s') -> wp m Q s.
Proof. intros H. unfold wp. destruct (m s) as [[a | e] s']; [apply H | exact I]. Qed.

Lemma wp_run {S A} (m : ST S A) (Q : A -> S -> Prop) (s s' : S) (a : A) :
  wp m Q s -> m s = (Normal a, s') -> Q a s'.
Proof. unfold wp. intros H Hrun. rewrite Hrun in H. exact H. Qed.

Lemma wp_mono {S A} (m : ST S A) (Q Q' : A -> S -> Prop) (s : S) :
  wp m Q s -> (forall a s', Q a s' -> Q' a s') -> wp m Q' s.
Proof.
  unfold wp. destruct (m s) as [[a | e] s']; intros H Himp; [apply Himp, H | exact I].
Qed.

Lemma wp_foldM {S A B} (step : A -> B -> ST S B) (Inv : list A -> B -> S -> Prop)
    (xs : list A) :
  (forall pre x acc s,
      (exists post, xs = pre ++ x :: post) -> Inv pre acc s ->
      wp (step x acc) (fun acc' s' => Inv (pre ++ [x]) acc' s') s) ->
  forall acc s, Inv [] acc s -> wp (foldM step xs acc) (fun acc' s' => Inv xs acc' s') s.
Proof.
  intros Hstep.
  assert (Hgen : forall rest pre acc s,
             xs = pre ++ rest -> Inv pre acc s ->
             wp (foldM step rest acc) (fun acc' s' => Inv xs acc' s') s).
  { induction rest as [| x rest IH]; intros pre acc s Hxs Hpre.
    - rewrite app_nil_r in Hxs. subst pre. exact Hpre.
    - cbn [foldM]. apply wp_bind.
      assert (Hx := Hstep pre x acc s (ex_intro _ rest Hxs) Hpre).
      unfold wp in *. destruct (step x acc s) as [[acc' | e] s']; [| exact I].
      apply (IH (pre ++ [x])); [| exact Hx].
      rewrite <- app_assoc. exact Hxs. }
  intros acc s H0. apply (Hgen xs []); [reflexivity | exact H0].
Qed.

Lemma mapM_readEntity_state (ls : list nat) (w : World) :
  snd (mapM readEntity ls w) = w.
Proof.
  induction ls as [| l rest IH]; [reflexivity |].
  cbn [mapM]. unfold bind at 1. unfold readEntity at 1.
  destruct (heap w !! l) as [e |]; [| reflexivity].
  unfold bind. destruct (mapM readEntity rest w) as [[es | ex] w'] eqn:Hrest;
    cbn in IH; subst w'; reflexivity.
Qed.

Lemma wp_mapM_readEntity {B} (ls : list nat) (k : list Entity -> ST World B)
    (Q : B -> World -> Prop) (w : World) :
  (forall es, wp (k es) Q w) -> wp (bind (mapM readEntity ls) k) Q w.
Proof.
  intros Hk. apply wp_bind. unfold wp at 1.
  pose proof (mapM_readEntity_state ls w) as Hstate.
  destruct (mapM readEntity ls w) as [[es | e] w']; [| exact I].
  cbn in Hstate. subst w'. apply Hk.
Qed.



Section ConfigLevel.

Variable singular : string -> string.
Variable toWords : string -> bool -> string.
Variable getCollectionIDFieldTypes : list Entity -> option IDType -> IDFieldTypes.

Local Abbreviation entityToJSONSchema :=
  (Schema.entityToJSONSchema singular toWords getCollectionIDFieldTypes).
Local Abbreviation configToJSONSchema :=
  (Schema.configToJSONSchema singular toWords getCollectionIDFieldTypes).

(** What [entityToJSONSchema] does when the entity exists: the copy
    goes to a fresh reference, takes the prepared fields, and the
    schema is derived from these. *)
Lemma entityToJSONSchema_closed (config : Config) (l : nat) (defaultIDType : option IDType)
    (ids : IDFieldTypes) (w : World) (e : Entity) :
  heap w !! l = Some e ->
  entityToJSONSchema config l defaultIDType (Some ids) w =
    let prepared := preparedFields defaultIDType e in
    let title :=
      match typescriptInterface e with
      | Some i => if truthyStr i then i else singular (toWords (slug e) true)
      | None => singular (toWords (slug e) true)
      end in
    let '(c, reg) := fieldsToJSONSchema ids prepared (registry w) in
    (match c with
     | Normal schema =>
         Normal (VObj (objSpread (entries schema)
                         [ ("type", VStr "object");
                           ("additionalProperties", VBool false);
                           ("title", VStr title) ]))
     | Abrupt e => Abrupt e
     end,
     mkWorld (<[fresh (dom (heap w)) := withFields prepared e]> (heap w)) reg).
Proof.
  intros He. unfold Schema.entityToJSONSchema, preparedFields.
  unfold bind at 1. cbn [ret]. unfold bind at 1. unfold deepCopyObject. rewrite He.
  set (l' := fresh (dom (heap w))).
  unfold bind at 1. unfold readEntity at 1. cbn [heap]. rewrite lookup_insert_eq.
  assert (Hmod : forall (g : list Field -> list Field) (x : Entity) (h : gmap nat Entity)
                        (reg : Registry) B (k : unit -> ST World B),
             bind (modifyEntity l' (fun e0 => withFields (g (fields e0)) e0)) k
               (mkWorld (<[l' := x]> h) reg)
             = k tt (mkWorld (<[l' := withFields (g (fields x)) x]> h) reg)).
  { intros g x h reg B k. unfold bind, modifyEntity. cbn [heap registry].
    rewrite alter_insert_eq. reflexivity. }
  assert (Hfinish : forall (fs : list Field) (x : Entity) (h : gmap nat Entity) reg title,
             x = withFields fs e ->
             bind (readEntity l')
               (fun e1 =>
                  bind (liftRegistry (fieldsToJSONSchema ids (fields e1)))
                    (fun schema =>
                       ret (VObj (objSpread (entries schema)
                                    [ ("type", VStr "object");
                                      ("additionalProperties", VBool false);
                                      ("title", VStr title) ]))))
               (mkWorld (<[l' := x]> h) reg)
             = (let '(c, reg') := fieldsToJSONSchema ids fs reg in
                (match c with
                 | Normal schema =>
                     Normal (VObj (objSpread (entries schema)
                                     [ ("type", VStr "object");
                                       ("additionalProperties", VBool false);
                                       ("title", VStr title) ]))
                 | Abrupt e => Abrupt e
                 end,
                 mkWorld (<[l' := withFields fs e]> h) reg'))).
  { intros fs x h reg title ->. unfold bind, readEntity, liftRegistry, ret.
    cbn [heap registry]. rewrite lookup_insert_eq. cbn [fields withFields heap registry].
    destruct (fieldsToJSONSchema ids fs reg) as [[schema | ex] reg']; reflexivity. }
  set (idField := MkField (Some "id") (mkBase true false []) (idKind defaultIDType)).
  destruct (List.find isIDField (fields e)) as [customIdField |];
    [destruct (notGroupOrTab customIdField) |];
    (first [ rewrite (Hmod (requireFirst isIDField)) | rewrite (Hmod (cons idField)) ]);
    (destruct (timestamps e) as [[|] |];
     [ rewrite (Hmod requireTimestamps) | unfold bind at 1; cbn [ret] .. ]);
    (destruct (auth e) as [a |];
     [ destruct (disableLocalStrategy a); cbn [negb];
       [ unfold bind at 1; cbn [ret]
       | rewrite (Hmod (fun fs => fs ++ [MkField (Some "password") (mkBase false false [])
                                           (KText false)])) ]
     | unfold bind at 1; cbn [ret] ]);
    apply Hfinish; reflexivity.
Qed.

Lemma lookup_insert_fresh (h : gmap nat Entity) (l : nat) (x : Entity) :
  is_Some (h !! l) -> <[fresh (dom h) := x]> h !! l = h !! l.
Proof.
  intros Hsome. apply lookup_insert_ne. intros Heq.
  apply (is_fresh (dom h)). rewrite Heq. apply elem_of_dom. exact Hsome.
Qed.

Lemma respects_entityToJSONSchema (refs : list nat) (config : Config) (l : nat)
    (defaultIDType : option IDType) (ids : IDFieldTypes) :
  In l refs -> respects refs (entityToJSONSchema config l defaultIDType (Some ids)).
Proof.
  intros Hl w w' [Hreg Hheap]. destruct (Hheap l Hl) as [[e He] Hsame].
  rewrite (entityToJSONSchema_closed config l defaultIDType ids w e He).
  rewrite (entityToJSONSchema_closed config l defaultIDType ids w' e (eq_trans Hsame He)).
  cbn zeta. rewrite <- Hreg.
  destruct (fieldsToJSONSchema ids (preparedFields defaultIDType e) (registry w))
    as [c reg].
  cbn [fst snd heap registry].
  split; [reflexivity | split; [split; [reflexivity |] |]].
  - intros l0 Hl0. destruct (Hheap l0 Hl0) as [Hsome Hsame0]. cbn [heap]. split.
    + rewrite lookup_insert_fresh; assumption.
    + rewrite !lookup_insert_fresh; [exact Hsame0 | exact Hsome |].
      rewrite Hsame0. exact Hsome.
  - intros l0 Hl0. destruct (Hheap l0 Hl0) as [Hsome _]. cbn [heap].
    split; [exact Hsome |]. apply lookup_insert_fresh. exact Hsome.
Qed.

Lemma respects_configToJSONSchemaBody (config : Config) (defaultIDType : option IDType) :
  respects (globals config ++ collections config)
    (configToJSONSchemaBody singular toWords getCollectionIDFieldTypes config defaultIDType).
Proof.
  unfold configToJSONSchemaBody.
  assert (Hcols : forall l, In l (collections config) ->
                            In l (globals config ++ collections config)).
  { intros l Hl. apply in_or_app. right. exact Hl. }
  assert (Hglobs : forall l, In l (globals config) ->
                             In l (globals config ++ collections config)).
  { intros l Hl. apply in_or_app. left. exact Hl. }
  apply respects_bind.
  { apply respects_mapM. intros l Hl. apply respects_readEntity, Hcols, Hl. }
  intros cols0. apply respects_bind.
  { apply respects_foldM. intros l Hl acc. apply respects_bind.
    - apply respects_readEntity, Hl.
    - intros e. apply respects_bind.
      + apply respects_entityToJSONSchema, Hl.
      + intros schema. apply respects_ret. }
  intros entityDefinitions. apply respects_bind.
  { apply respects_mapM. intros l Hl. apply respects_readEntity, Hcols, Hl. }
  intros cols. apply respects_bind.
  { apply respects_mapM. intros l Hl. apply respects_readEntity, Hglobs, Hl. }
  intros globs. apply respects_bind.
  { destruct (jobs config) as [jobsConfig |].
    - apply respects_bind; [apply respects_liftRegistry |].
      intros j. apply respects_ret.
    - apply respects_ret. }
  intros jobsSchemas. apply respects_bind; [apply respects_registry |].
  intros interfaceNameDefinitions. apply respects_ret.
Qed.






(** C9. Deriving the schema of a config twice, one call after the
    other, each with its own empty registry, gives the same outcome
    both times (the same schema, structurally, or the same exception),
    and the entity configs the config refers to are left as they
    were. *)
Theorem deriving_twice_gives_the_same_schema
    (config : Config) (defaultIDType : option IDType) (h : gmap nat Entity) :
  (forall l, In l (globals config ++ collections config) -> is_Some (h !! l)) ->
  fst (configToJSONSchema config defaultIDType
         (snd (configToJSONSchema config defaultIDType h)))
  = fst (configToJSONSchema config defaultIDType h) /\
  (forall l, In l (globals config ++ collections config) ->
             snd (configToJSONSchema config defaultIDType h) !! l = h !! l).
Proof.
  intros Hrefs. unfold Schema.configToJSONSchema.
  pose proof (respects_configToJSONSchemaBody config defaultIDType) as Hbody.
  assert (Hstart : sameInputs (globals config ++ collections config)
                     (mkWorld h []) (mkWorld h [])).
  { split; [reflexivity |]. intros l Hl. split; [apply Hrefs, Hl | reflexivity]. }
  destruct (Hbody _ _ Hstart) as [_ [_ Hkept]].
  destruct (configToJSONSchemaBody singular toWords getCollectionIDFieldTypes config
              defaultIDType (mkWorld h [])) as [c w] eqn:Hfirst.
  cbn [fst snd heap] in *.
  assert (Hagain : sameInputs (globals config ++ collections config)
                     (mkWorld h []) (mkWorld (heap w) [])).
  { split; [reflexivity | exact Hkept]. }
  destruct (Hbody _ _ Hagain) as [Hsame _]. rewrite Hfirst in Hsame. cbn [fst] in Hsame.
  split.
  - destruct (configToJSONSchemaBody singular toWords getCollectionIDFieldTypes config
                defaultIDType (mkWorld (heap w) [])) as [c' w'].
    cbn [fst] in *. symmetry. exact Hsame.
  - intros l Hl. apply Hkept, Hl.
Qed.


End ConfigLevel.

(** *** The theorems at work on the sample config *)



Lemma deriving_twice_gives_the_same_schema_witness :
  fst (SchemaSamples.configToJSONSchema SchemaSamples.config (Some IDText)
         (snd (SchemaSamples.configToJSONSchema SchemaSamples.config (Some IDText)
                 SchemaSamples.heap)))
  = fst (SchemaSamples.configToJSONSchema SchemaSamples.config (Some IDText)
           SchemaSamples.heap).
Proof.
  refine (proj1 (deriving_twice_gives_the_same_schema
                   SchemaSamples.singular SchemaSamples.toWords
                   SchemaSamples.getCollectionIDFieldTypes
                   SchemaSamples.config (Some IDText) SchemaSamples.heap _)).
  intros l [<- | [<- | []]]; eexists; reflexivity.
Defined.

Example missing_editor_is_reported :
  fst (fieldsToJSONSchema SchemaSamples.ids
         [SchemaSamples.title; SchemaSamples.body; SchemaSamples.items] [])
  = Abrupt (MissingEditorProp (Some "body")).
Proof. reflexivity. Qed.

End SchemaFacts.

(** ** Further properties of the query builder *)

Module PathFacts.

Import JS JSString Query Joins.

Lemma append_assoc (a b c : string) : (a +:+ b) +:+ c = a +:+ (b +:+ c).
Proof.
  induction a as [| x a IH]; [reflexivity |].
  change (String x ((a +:+ b) +:+ c) = String x (a +:+ (b +:+ c))).
  rewrite IH. reflexivity.
Qed.

Lemma join_snoc (sep : string) (xs : list string) (x : string) :
  xs ≠ [] -> join sep (xs ++ [x]) = join sep xs +:+ sep +:+ x.
Proof.
  induction xs as [| a [| b r] IH]; intros Hne.
  - congruence.
  - reflexivity.
  - change (join sep ((a :: b :: r) ++ [x]))
      with (a +:+ sep +:+ join sep ((b :: r) ++ [x])).
    rewrite IH by discriminate.
    change (join sep (a :: b :: r)) with (a +:+ sep +:+ join sep (b :: r)).
    rewrite !append_assoc. reflexivity.
Qed.

Lemma join_head_truthy (sep x : string) (xs : list string) :
  x ≠ "" -> truthyStr (join sep (x :: xs)) = true.
Proof.
  intros Hx. destruct xs as [| y r].
  - apply QueryFacts.truthyStr_true. exact Hx.
  - change (join sep (x :: y :: r)) with (x +:+ sep +:+ join sep (y :: r)).
    apply QueryFacts.truthyStr_app, QueryFacts.truthyStr_true. exact Hx.
Qed.

Lemma named_segments_kept (l : list PathToQuery) :
  Forall (fun p => path p ≠ "") l ->
  omap (fun x : option string => x ≫= fun s => if truthyStr s then Some s else None)
    (imap (fun _ p => Some (path p)) l)
  = map path l.
Proof.
  induction 1 as [| p rest Hp _ IH]; [reflexivity |].
  cbn [imap omap list_omap map mbind option_bind]. unfold compose.
  rewrite (QueryFacts.truthyStr_true _ Hp). f_equal. exact IH.
Qed.

Section Walk.

Variable paths : list PathToQuery.
Variable p0 : PathToQuery.
Hypothesis first : paths !! 0%nat = Some p0.
Hypothesis first_named : path p0 ≠ "".

Lemma prefixPath_truthy (i : nat) : 1 <= i -> truthyStr (prefixPath paths i) = true.
Proof.
  intros Hi. unfold prefixPath. destruct paths as [| q rest]; [discriminate |].
  injection first as ->. destruct i as [| i]; [lia |].
  cbn [take map]. apply join_head_truthy. exact first_named.
Qed.

Lemma prefixPath_1 : prefixPath paths 1 = path p0.
Proof.
  unfold prefixPath. destruct paths as [| q rest]; [discriminate |].
  injection first as ->. destruct rest; reflexivity.
Qed.

Lemma prefixPath_S (i : nat) (p : PathToQuery) :
  1 <= i -> paths !! i = Some p ->
  prefixPath paths (S i) = prefixPath paths i +:+ "." +:+ path p.
Proof.
  intros Hi Hp. unfold prefixPath. rewrite (take_S_r _ _ _ Hp), map_app.
  cbn [map]. apply join_snoc.
  destruct paths as [| q rest]; [discriminate |]. destruct i; [lia | discriminate].
Qed.

(** The walk from index [i] over [d] segments that are all joined. *)
Lemma lookupLoop_run (d : nat) : forall (i : nat) (lp : Loop),
  1 <= i -> i + d <= length paths ->
  (forall k, i <= k < i + d ->
             nextIsFinalID paths k = false /\ is_Some (paths !! k ≫= collectionSlug)) ->
  currentPath lp = Some (prefixPath paths i) ->
  lookupLoop paths (drop i paths) i lp =
  lookupLoop paths (drop (i + d) paths) (i + d)
    (mkLoop (Some (prefixPath paths (i + d))) (isID lp)
       (mkStore (pipeline (store lp) ++ map (stageAt paths) (seq i d))
          (if (i =? 1)%nat && (0 <? d)%nat
           then insert ("_" +:+ path p0) false <$> projection (store lp)
           else projection (store lp)))).
Proof.
  induction d as [| d IH]; intros i lp Hi Hlen Hall Hcur.
  - rewrite Nat.add_0_r, andb_false_r. cbn [seq map]. rewrite app_nil_r.
    destruct lp as [c b [pl pr]]. cbn in Hcur |- *. rewrite Hcur. reflexivity.
  - destruct (lookup_lt_is_Some_2 paths i ltac:(lia)) as [p Hp].
    rewrite (drop_S _ _ _ Hp). cbn [lookupLoop]. rewrite Hcur. cbv zeta.
    rewrite !(prefixPath_truthy i Hi).
    destruct (Hall i ltac:(lia)) as [Hfinal [slug Hslug]].
    rewrite Hfinal. destruct (Nat.eqb_spec i 0) as [-> | _]; [lia |].
    rewrite Hp in Hslug. cbn in Hslug. rewrite Hslug.
    rewrite <- (prefixPath_S i p Hi Hp).
    rewrite IH; cycle 1.
    + lia.
    + lia.
    + intros k Hk. apply Hall. lia.
    + reflexivity.
    + replace (S i + d) with (i + S d) by lia. cbn [isID store].
      f_equal. f_equal. f_equal.
      * cbn [seq map]. unfold stageAt at 2. rewrite Hp. cbn [mbind option_bind].
        rewrite Hslug. cbn [default].
        destruct (i =? 1)%nat; unfold hideInProjection, pushStage; cbn [pipeline];
          rewrite <- app_assoc; reflexivity.
      * destruct i as [| [| i]]; [lia | |].
        -- rewrite prefixPath_1. reflexivity.
        -- reflexivity.
Qed.

Lemma nextIsFinalID_spec (k : nat) :
  nextIsFinalID paths k = (k + 2 =? length paths)%nat && endsInID paths.
Proof.
  unfold nextIsFinalID.
  destruct (Nat.eqb_spec (k + 1) (length paths - 1));
    destruct (Nat.eqb_spec (k + 2) (length paths)); try lia; cbn [andb].
  unfold endsInID. rewrite last_lookup.
  replace (Init.Nat.pred (length paths)) with (k + 1)%nat by lia. reflexivity.
Qed.

(** The whole walk of lines 113-151 over a path of two or more
    segments whose joined segments all carry a slug. *)
Lemma lookupLoop_closed (st : Store) :
  2 <= length paths ->
  (forall k, 1 <= k <= joinCount paths -> is_Some (paths !! k ≫= collectionSlug)) ->
  exists cur,
    lookupLoop paths paths 0 (mkLoop None false st) =
    (Normal tt,
     mkLoop cur (endsInID paths)
       (mkStore (pipeline st ++ joinStages paths)
          (if (0 <? joinCount paths)%nat
           then insert ("_" +:+ path p0) false <$> projection st
           else projection st))).
Proof.
  intros Hlen Hslugs.
  replace (lookupLoop paths paths 0 (mkLoop None false st))
    with (lookupLoop paths (drop 0 paths) 0 (mkLoop None false st)) by reflexivity.
  rewrite (drop_S _ _ _ first). cbn [lookupLoop currentPath isID store].
  rewrite nextIsFinalID_spec. unfold joinStages, joinCount in *.
  destruct (endsInID paths) eqn:Hends.
  - destruct (Nat.eqb_spec (0 + 2) (length paths)) as [Htwo | Hmore]; cbn [andb].
    + exists (Some (path p0)). rewrite <- Htwo. cbn. rewrite app_nil_r.
      destruct st; reflexivity.
    + cbn [Nat.eqb].
      rewrite (lookupLoop_run (length paths - 3) 1); cycle 1.
      * lia.
      * lia.
      * intros k Hk. split.
        -- rewrite nextIsFinalID_spec.
           destruct (Nat.eqb_spec (k + 2) (length paths)); [lia | reflexivity].
        -- apply Hslugs. lia.
      * cbn [currentPath]. rewrite prefixPath_1. reflexivity.
      * destruct (lookup_lt_is_Some_2 paths (1 + (length paths - 3)) ltac:(lia))
          as [p Hp].
        rewrite (drop_S _ _ _ Hp). cbn [lookupLoop currentPath isID store].
        rewrite nextIsFinalID_spec, Hends.
        destruct (Nat.eqb_spec (1 + (length paths - 3) + 2) (length paths)); [| lia].
        cbn [andb pipeline projection Nat.eqb].
        eexists. reflexivity.
  - rewrite andb_false_r. cbn [Nat.eqb].
    rewrite (lookupLoop_run (length paths - 1) 1); cycle 1.
    + lia.
    + lia.
    + intros k Hk. split.
      * rewrite nextIsFinalID_spec, Hends, andb_false_r. reflexivity.
      * apply Hslugs. lia.
    + cbn [currentPath]. rewrite prefixPath_1. reflexivity.
    + rewrite drop_ge by lia. cbn [lookupLoop isID store pipeline projection Nat.eqb andb].
      eexists. reflexivity.
Qed.

(** Where the filter goes when the path does not end in [id] and no
    segment is empty: under all segments, joined by dots. *)
Lemma joinedPath_plain :
  endsInID paths = false ->
  Forall (fun p => path p ≠ "") paths ->
  joinedPath paths p0 = "_" +:+ join "." (map path paths).
Proof.
  intros Hends Hall. unfold joinedPath.
  assert (Hno : (length paths =? 2)%nat &&
                match paths !! 1%nat with
                | Some p1 => String.eqb (path p1) "id"
                | None => false
                end = false).
  { pose proof (nextIsFinalID_spec 0) as Hspec. unfold nextIsFinalID in Hspec.
    rewrite Hends, andb_false_r in Hspec. cbn [Nat.add] in Hspec.
    destruct (Nat.eqb_spec (length paths) 2) as [Htwo | _]; [| reflexivity].
    rewrite Htwo in Hspec. exact Hspec. }
  rewrite Hno. f_equal. f_equal.
  rewrite (imap_ext _ (fun _ p => Some (path p))); cycle 1.
  { intros i p _. rewrite nextIsFinalID_spec, Hends, andb_false_r. reflexivity. }
  apply named_segments_kept. exact Hall.
Qed.

Lemma full_path_under_last_alias (plast : PathToQuery) :
  2 <= length paths ->
  last paths = Some plast ->
  "_" +:+ join "." (map path paths)
  = as_ (stageAt paths (length paths - 1)) +:+ "." +:+ path plast.
Proof.
  intros Hlen Hlast. rewrite last_lookup in Hlast.
  assert (Hsplit : paths = take (length paths - 1) paths ++ [plast]).
  { rewrite <- take_S_r.
    - rewrite take_ge by lia. reflexivity.
    - rewrite <- Hlast. f_equal. lia. }
  rewrite Hsplit at 1. rewrite map_app. cbn [map].
  rewrite join_snoc.
  - reflexivity.
  - intros Hnil. apply (f_equal length) in Hnil.
    rewrite length_map, length_take in Hnil. cbn [length] in Hnil. lia.
Qed.

(** The walk up to a joined segment that has no slug. *)
Lemma lookupLoop_fault (st : Store) (j : nat) (p : PathToQuery) :
  2 <= length paths ->
  1 <= j <= joinCount paths ->
  (forall k, 1 <= k < j -> is_Some (paths !! k ≫= collectionSlug)) ->
  paths !! j = Some p ->
  collectionSlug p = None ->
  exists cur,
    lookupLoop paths paths 0 (mkLoop None false st) =
    (Abrupt (TypeError "pathToQuery.collectionSlug.endsWith"),
     mkLoop cur false
       (mkStore (pipeline st ++ map (stageAt paths) (seq 1 (j - 1)))
          (if (1 <? j)%nat
           then insert ("_" +:+ path p0) false <$> projection st
           else projection st))).
Proof.
  intros Hlen Hj Hslugs Hp Hnone.
  assert (Hnot : forall k, k <= j -> nextIsFinalID paths k = false).
  { intros k Hk. rewrite nextIsFinalID_spec. unfold joinCount in Hj.
    destruct (endsInID paths); [| apply andb_false_r].
    destruct (Nat.eqb_spec (k + 2) (length paths)); [lia | reflexivity]. }
  replace (lookupLoop paths paths 0 (mkLoop None false st))
    with (lookupLoop paths (drop 0 paths) 0 (mkLoop None false st)) by reflexivity.
  rewrite (drop_S _ _ _ first). cbn [lookupLoop currentPath isID store].
  rewrite (Hnot 0) by lia. cbn [Nat.eqb].
  rewrite (lookupLoop_run (j - 1) 1); cycle 1.
  - lia.
  - apply lookup_lt_Some in Hp. lia.
  - intros k Hk. split; [apply Hnot; lia | apply Hslugs; lia].
  - cbn [currentPath]. rewrite prefixPath_1. reflexivity.
  - replace (1 + (j - 1)) with j by lia.
    rewrite (drop_S _ _ _ Hp). cbn [lookupLoop currentPath isID store].
    rewrite (Hnot j) by lia.
    destruct (Nat.eqb_spec j 0) as [-> | _]; [lia |].
    rewrite Hnone. cbn [Nat.eqb andb pipeline projection].
    replace (0 <? j - 1)%nat with (1 <? j)%nat by (destruct j as [| [| j]]; reflexivity).
    eexists. reflexivity.
Qed.

End Walk.

Lemma valid_operator_truthy (op : string) :
  includes validOperators op = true -> truthyStr op = true.
Proof.
  intros H. apply existsb_exists in H. destruct H as [x [Hin Heq]].
  apply String.eqb_eq in Heq. subst x.
  cbn in Hin. repeat (destruct Hin as [<- | Hin]; [reflexivity |]). contradiction.
Qed.

Section Facts.

Variable getLocalizedPaths :
  option string -> list Field -> option string -> string -> option string ->
  Payload -> list PathToQuery.
Variable sanitizeQueryValue :
  Field -> bool -> string -> string -> Value -> Sanitized.
Variable operatorMap : string -> option string.
Variable objectIdFault : string -> option Exn.
Variable isValidObjectId : string -> bool.
Variable parseFloat : string -> Value.

Local Abbreviation resolvePaths := (Query.resolvePaths getLocalizedPaths).
Local Abbreviation buildSearchParam :=
  (Query.buildSearchParam getLocalizedPaths sanitizeQueryValue operatorMap
     objectIdFault isValidObjectId parseFloat).

(** The caller's objects after a call on a path of two or more
    segments. *)
Lemma crossing_store (a : Args) (st : Store) (paths : list PathToQuery)
    (p0 : PathToQuery) (hasCustomID : bool) :
  resolvePaths a = (paths, hasCustomID) ->
  paths !! 0%nat = Some p0 ->
  path p0 ≠ "" ->
  2 <= length paths ->
  truthy (s_rawQuery (sanitizeQueryValue (field p0) hasCustomID (a_operator a)
                        (path p0) (a_val a))) = false ->
  (forall k, 1 <= k <= joinCount paths -> is_Some (paths !! k ≫= collectionSlug)) ->
  snd (buildSearchParam a st)
  = mkStore (pipeline st ++ joinStages paths)
      (if (0 <? joinCount paths)%nat
       then insert ("_" +:+ path p0) false <$> projection st
       else projection st).
Proof.
  intros Hpaths Hfirst Hnamed Hlen Hraw Hslugs.
  destruct (lookupLoop_closed paths p0 Hfirst Hnamed st Hlen Hslugs) as [cur Hloop].
  unfold Query.buildSearchParam. rewrite Hpaths.
  destruct paths as [| q rest]; [discriminate |]. injection Hfirst as ->.
  rewrite (QueryFacts.truthyStr_true _ Hnamed), Hraw.
  destruct (Nat.ltb_spec 1 (length (p0 :: rest))) as [_ | Hshort]; [| lia].
  rewrite Hloop. cbn [isID store].
  destruct (coerceID _ _ _); reflexivity.
Qed.

(** X1. When the resolved path has two or more segments (the first
    one named, no raw query, every joined segment carrying a slug),
    [buildSearchParam] appends one [$lookup] stage per joined segment,
    in order: every segment after the first, except that a final [id]
    ends the walk two segments early.  Each stage is aliased [_]
    followed by the dotted path of the segments before it and reads
    [_id]; the first takes its local field from the first segment's
    path, the later ones from their own alias. *)
Theorem every_joined_segment_gets_one_lookup
    (a : Args) (st : Store) (paths : list PathToQuery) (p0 : PathToQuery)
    (hasCustomID : bool) :
  resolvePaths a = (paths, hasCustomID) ->
  paths !! 0%nat = Some p0 ->
  path p0 ≠ "" ->
  2 <= length paths ->
  truthy (s_rawQuery (sanitizeQueryValue (field p0) hasCustomID (a_operator a)
                        (path p0) (a_val a))) = false ->
  (forall k, 1 <= k <= joinCount paths -> is_Some (paths !! k ≫= collectionSlug)) ->
  pipeline (snd (buildSearchParam a st)) = pipeline st ++ joinStages paths /\
  length (joinStages paths)
  = (if endsInID paths then length paths - 3 else length paths - 1) /\
  (forall k stage, joinStages paths !! k = Some stage ->
     as_ stage = "_" +:+ join "." (map path (take (S k) paths)) /\
     localField stage = (if (k =? 0)%nat then path p0 else as_ stage) /\
     foreignField stage = "_id").
Proof.
  intros Hpaths Hfirst Hnamed Hlen Hraw Hslugs.
  rewrite (crossing_store a st paths p0 hasCustomID) by assumption.
  cbn [pipeline]. split; [reflexivity |]. split.
  - unfold joinStages, joinCount. rewrite length_map, length_seq. reflexivity.
  - intros k stage Hk. unfold joinStages in Hk.
    rewrite list_lookup_fmap in Hk.
    destruct (seq 1 (joinCount paths) !! k) as [i |] eqn:Hi; [| discriminate].
    apply lookup_seq in Hi. destruct Hi as [-> _].
    injection Hk as <-. cbn [stageAt as_ localField foreignField Nat.add].
    split; [reflexivity |]. split; [| reflexivity].
    destruct k as [| k]; [| reflexivity].
    cbn [Nat.eqb]. apply prefixPath_1. exact Hfirst.
Qed.

(** X2. On such a path the caller's projection, when there is one,
    gets the alias of the first stage set to [false] and keeps every
    other entry; without a projection none is made, and when no stage
    is pushed the projection is left as it was. *)
Theorem only_the_first_alias_is_hidden
    (a : Args) (st : Store) (paths : list PathToQuery) (p0 : PathToQuery)
    (hasCustomID : bool) :
  resolvePaths a = (paths, hasCustomID) ->
  paths !! 0%nat = Some p0 ->
  path p0 ≠ "" ->
  2 <= length paths ->
  truthy (s_rawQuery (sanitizeQueryValue (field p0) hasCustomID (a_operator a)
                        (path p0) (a_val a))) = false ->
  (forall k, 1 <= k <= joinCount paths -> is_Some (paths !! k ≫= collectionSlug)) ->
  projection (snd (buildSearchParam a st))
  = (if (0 <? joinCount paths)%nat
     then insert ("_" +:+ path p0) false <$> projection st
     else projection st).
Proof.
  intros Hpaths Hfirst Hnamed Hlen Hraw Hslugs.
  rewrite (crossing_store a st paths p0 hasCustomID) by assumption. reflexivity.
Qed.

(** X3. A joined segment that carries no collection slug makes
    [buildSearchParam] throw a TypeError; the stages of the segments
    before it stay in the caller's pipeline. *)
Theorem segment_without_slug_throws_after_earlier_joins
    (a : Args) (st : Store) (paths : list PathToQuery) (p0 p : PathToQuery)
    (hasCustomID : bool) (j : nat) :
  resolvePaths a = (paths, hasCustomID) ->
  paths !! 0%nat = Some p0 ->
  path p0 ≠ "" ->
  truthy (s_rawQuery (sanitizeQueryValue (field p0) hasCustomID (a_operator a)
                        (path p0) (a_val a))) = false ->
  1 <= j <= joinCount paths ->
  (forall k, 1 <= k < j -> is_Some (paths !! k ≫= collectionSlug)) ->
  paths !! j = Some p ->
  collectionSlug p = None ->
  exists what,
    fst (buildSearchParam a st) = Abrupt (TypeError what) /\
    pipeline (snd (buildSearchParam a st))
    = pipeline st ++ map (stageAt paths) (seq 1 (j - 1)).
Proof.
  intros Hpaths Hfirst Hnamed Hraw Hj Hslugs Hp Hnone.
  assert (Hlen : 2 <= length paths).
  { apply lookup_lt_Some in Hp. lia. }
  destruct (lookupLoop_fault paths p0 Hfirst Hnamed st j p Hlen Hj Hslugs Hp Hnone)
    as [cur Hloop].
  unfold Query.buildSearchParam. rewrite Hpaths.
  destruct paths as [| q rest]; [discriminate |]. injection Hfirst as ->.
  rewrite (QueryFacts.truthyStr_true _ Hnamed), Hraw.
  destruct (Nat.ltb_spec 1 (length (p0 :: rest))) as [_ | Hshort]; [| lia].
  rewrite Hloop. cbn [fst snd store pipeline]. eexists. split; reflexivity.
Qed.

(** X4. On a path of two or more non-empty segments that does not
    end in [id], a valid operator with a symbol (other than [like])
    gives the comparison on the alias of the last stage followed by
    the last segment's path, and that stage is the last one of the
    pipeline. *)
Theorem filter_is_put_under_the_last_alias
    (a : Args) (st : Store) (paths : list PathToQuery) (p0 plast : PathToQuery)
    (hasCustomID : bool) (operator operatorKey : string) :
  resolvePaths a = (paths, hasCustomID) ->
  paths !! 0%nat = Some p0 ->
  2 <= length paths ->
  last paths = Some plast ->
  path plast ≠ "id" ->
  Forall (fun p => path p ≠ "") paths ->
  (forall k, 1 <= k <= length paths - 1 -> is_Some (paths !! k ≫= collectionSlug)) ->
  let result := sanitizeQueryValue (field p0) hasCustomID (a_operator a)
                  (path p0) (a_val a) in
  truthy (s_rawQuery result) = false ->
  s_operator result = Some operator ->
  includes validOperators operator = true ->
  operator ≠ "like" ->
  operatorMap operator = Some operatorKey ->
  operatorKey ≠ "" ->
  let lastStage := stageAt paths (length paths - 1) in
  last (pipeline (snd (buildSearchParam a st))) = Some lastStage /\
  fst (buildSearchParam a st)
  = Normal (Some {| sp_path := Some (as_ lastStage +:+ "." +:+ path plast);
                    sp_rawQuery := None;
                    sp_value := Some (VObj [(operatorKey, s_val result)]) |}).
Proof.
  intros Hpaths Hfirst Hlen Hlast Hnotid Hall Hslugs result Hraw Hop Hvalid Hlike
    Hkey Hkeyt lastStage.
  assert (Hnamed : path p0 ≠ "").
  { rewrite Forall_lookup in Hall. exact (Hall 0%nat p0 Hfirst). }
  assert (Hends : endsInID paths = false).
  { unfold endsInID. rewrite Hlast. apply QueryFacts.eqb_neq. exact Hnotid. }
  assert (Hcount : joinCount paths = length paths - 1).
  { unfold joinCount. rewrite Hends. reflexivity. }
  split.
  - rewrite (crossing_store a st paths p0 hasCustomID); try assumption.
    + cbn [pipeline]. unfold joinStages. rewrite Hcount.
      replace (length paths - 1) with (S (length paths - 2)) by lia.
      rewrite seq_S, map_app, app_assoc. cbn [map]. rewrite last_snoc.
      unfold lastStage. do 2 f_equal. lia.
    + rewrite Hcount. exact Hslugs.
  - destruct (lookupLoop_closed paths p0 Hfirst Hnamed st Hlen) as [cur Hloop].
    { unfold joinCount. rewrite Hends. exact Hslugs. }
    pose proof (joinedPath_plain paths p0 Hends Hall) as Hjoined.
    rewrite (full_path_under_last_alias paths plast Hlen Hlast) in Hjoined.
    unfold Query.buildSearchParam. rewrite Hpaths.
    destruct paths as [| q rest]; [discriminate |]. injection Hfirst as ->.
    fold result. rewrite (QueryFacts.truthyStr_true _ Hnamed), Hraw.
    destruct (Nat.ltb_spec 1 (length (p0 :: rest))) as [_ | Hshort]; [| lia].
    rewrite Hloop. cbn [isID store fst]. rewrite Hends. cbn [coerceID].
    rewrite Hjoined, Hop. unfold Query.buildFragment.
    rewrite (valid_operator_truthy _ Hvalid), Hvalid, Hkey.
    rewrite (QueryFacts.eqb_neq _ _ Hlike), (QueryFacts.truthyStr_true _ Hkeyt).
    destruct (Nat.ltb_spec (length (p0 :: rest)) 2) as [Hshort | _]; [lia |].
    reflexivity.
Qed.

(** X28. On a path of two or more segments that ends in [id] (the
    first segment named, no raw query), a string value is turned into
    an ObjectId: when the constructor throws, [buildSearchParam]
    throws the same exception; otherwise a valid operator with a
    symbol gives the comparison of the joined path with the
    ObjectId. *)
Theorem path_ending_in_id_compares_object_ids
    (a : Args) (st : Store) (paths : list PathToQuery) (p0 : PathToQuery)
    (hasCustomID : bool) (s : string) :
  resolvePaths a = (paths, hasCustomID) ->
  paths !! 0%nat = Some p0 ->
  path p0 ≠ "" ->
  2 <= length paths ->
  endsInID paths = true ->
  (forall k, 1 <= k <= joinCount paths -> is_Some (paths !! k ≫= collectionSlug)) ->
  let result := sanitizeQueryValue (field p0) hasCustomID (a_operator a)
                  (path p0) (a_val a) in
  truthy (s_rawQuery result) = false ->
  s_val result = VStr s ->
  (forall e, objectIdFault s = Some e -> fst (buildSearchParam a st) = Abrupt e) /\
  (forall operator operatorKey,
      objectIdFault s = None ->
      s_operator result = Some operator ->
      includes validOperators operator = true ->
      operatorMap operator = Some operatorKey ->
      operatorKey ≠ "" ->
      fst (buildSearchParam a st)
      = Normal (Some {| sp_path := Some (joinedPath paths p0);
                        sp_rawQuery := None;
                        sp_value := Some (VObj [(operatorKey, VObjectId s)]) |})).
Proof.
  intros Hpaths Hfirst Hnamed Hlen Hends Hslugs result Hraw Hval.
  destruct (lookupLoop_closed paths p0 Hfirst Hnamed st Hlen Hslugs) as [cur Hloop].
  assert (Hrun : buildSearchParam a st
                 = match coerceID objectIdFault true (VStr s) with
                   | Abrupt e =>
                       (Abrupt e,
                        mkStore (pipeline st ++ joinStages paths)
                          (if (0 <? joinCount paths)%nat
                           then insert ("_" +:+ path p0) false <$> projection st
                           else projection st))
                   | Normal formattedValue =>
                       (Query.buildFragment operatorMap objectIdFault isValidObjectId
                          parseFloat (a_payload a) paths (field p0) (joinedPath paths p0)
                          (s_operator result) formattedValue,
                        mkStore (pipeline st ++ joinStages paths)
                          (if (0 <? joinCount paths)%nat
                           then insert ("_" +:+ path p0) false <$> projection st
                           else projection st))
                   end).
  { unfold Query.buildSearchParam. rewrite Hpaths.
    destruct paths as [| q rest]; [discriminate |]. injection Hfirst as ->.
    fold result. rewrite (QueryFacts.truthyStr_true _ Hnamed), Hraw.
    destruct (Nat.ltb_spec 1 (length (p0 :: rest))) as [_ | Hshort]; [| lia].
    rewrite Hloop. cbn [isID store]. rewrite Hends, Hval. reflexivity. }
  rewrite Hrun. cbn [coerceID]. unfold ObjectId. split.
  - intros e He. rewrite He. reflexivity.
  - intros operator operatorKey Hok Hop Hvalid Hkey Hkeyt. rewrite Hok, Hop. cbn [fst].
    unfold Query.buildFragment.
    rewrite (valid_operator_truthy _ Hvalid), Hvalid, Hkey.
    rewrite (QueryFacts.truthyStr_true _ Hkeyt).
    destruct (Nat.ltb_spec (length paths) 2) as [Hshort | _]; [lia |].
    cbn [andb]. destruct (String.eqb operator "like"); reflexivity.
Qed.

(** X5. A path that resolves to at most one segment leaves the
    caller's pipeline and projection as they were, whatever the
    operator and the value. *)
Theorem single_segment_leaves_pipeline_and_projection
    (a : Args) (st : Store) :
  length (fst (resolvePaths a)) <= 1 ->
  snd (buildSearchParam a st) = st.
Proof.
  intros Hlen. unfold Query.buildSearchParam.
  destruct (resolvePaths a) as [paths hasCustomID]. cbn [fst] in Hlen.
  destruct paths as [| p0 rest]; [reflexivity |].
  destruct (truthyStr (path p0)); [| reflexivity].
  destruct (truthy _); [reflexivity |].
  destruct (Nat.ltb_spec 1 (length (p0 :: rest))) as [Hlong | _]; [lia | reflexivity].
Qed.

(** X6. When [sanitizeQueryValue] hands back a raw query,
    [buildSearchParam] returns it as the value, without a path, before
    any join is considered and whether or not the operator is valid;
    pipeline and projection stay as they were. *)
Theorem raw_query_is_returned_as_is
    (a : Args) (st : Store) (p0 : PathToQuery) (rest : list PathToQuery)
    (hasCustomID : bool) :
  resolvePaths a = (p0 :: rest, hasCustomID) ->
  path p0 ≠ "" ->
  let result := sanitizeQueryValue (field p0) hasCustomID (a_operator a)
                  (path p0) (a_val a) in
  truthy (s_rawQuery result) = true ->
  buildSearchParam a st
  = (Normal (Some {| sp_path := None; sp_rawQuery := None;
                     sp_value := Some (s_rawQuery result) |}), st).
Proof.
  intros Hpaths Hnamed result Hraw. unfold Query.buildSearchParam.
  rewrite Hpaths. fold result.
  rewrite (QueryFacts.truthyStr_true _ Hnamed), Hraw. reflexivity.
Qed.

(** X7. A filter on [id] or [_id] with a valid operator that has a
    symbol (other than [like]) is the plain comparison on [_id]:
    [sanitizeQueryValue] is handed an [id] field of the collection's
    custom identifier type (text when it has none) and is told whether
    there is one; no stage is pushed and no identifier branches are
    added. *)
Theorem id_filter_is_a_plain_comparison_on__id
    (a : Args) (st : Store) (operator operatorKey : string) :
  a_incomingPath a = "id" \/ a_incomingPath a = "_id" ->
  let custom := customIDTypeOf (a_payload a) (a_collectionSlug a) in
  let idField :=
    {| name := "id";
       type := match custom with Some t => IDType_name t | None => "text" end;
       relationTo := RelAbsent |} in
  let result :=
    sanitizeQueryValue idField (match custom with Some _ => true | None => false end)
      (a_operator a) "_id" (a_val a) in
  truthy (s_rawQuery result) = false ->
  s_operator result = Some operator ->
  includes validOperators operator = true ->
  operator ≠ "like" ->
  operatorMap operator = Some operatorKey ->
  operatorKey ≠ "" ->
  buildSearchParam a st
  = (Normal (Some {| sp_path := Some "_id"; sp_rawQuery := None;
                     sp_value := Some (VObj [(operatorKey, s_val result)]) |}), st).
Proof.
  intros Hpath custom idField result Hraw Hop Hvalid Hlike Hkey Hkeyt.
  assert (Hsan : sanitizePath (a_incomingPath a) = "_id").
  { unfold sanitizePath. destruct Hpath as [-> | ->]; reflexivity. }
  assert (Hres : resolvePaths a
                 = ([ {| collectionSlug := a_collectionSlug a; complete := true;
                         field := idField; path := "_id" |} ],
                    match custom with Some _ => true | None => false end)).
  { unfold Query.resolvePaths. rewrite Hsan. cbn [String.eqb Ascii.eqb Bool.eqb andb].
    fold custom. subst idField. destruct custom; reflexivity. }
  unfold Query.buildSearchParam. rewrite Hres.
  cbn [path field truthyStr String.eqb negb]. fold result. rewrite Hraw, Hop.
  cbn [length Nat.ltb Nat.leb]. unfold Query.buildFragment.
  rewrite (valid_operator_truthy _ Hvalid), Hvalid, Hkey.
  rewrite (QueryFacts.eqb_neq _ _ Hlike), (QueryFacts.truthyStr_true _ Hkeyt).
  cbn [length Nat.ltb Nat.leb andb].
  assert (Hplain : String.eqb (type idField) "relationship"
                   || String.eqb (type idField) "upload" = false).
  { subst idField. cbn [type]. destruct custom as [[] |]; reflexivity. }
  rewrite Hplain. reflexivity.
Qed.

Variable parseParams :
  option string -> option (list Field) -> option string -> option string ->
  Payload -> Value -> Store -> Completion Value * Store.

(** X8. [buildQuery], made without versions fields, throws a
    TypeError before anything is parsed when the global slug names no
    configured global, or when (without a global slug) the collection
    slug names no collection; pipeline and projection are untouched. *)
Theorem unknown_slug_fails_before_parsing
    (collectionSlug globalSlug locale : option string) (payload : Payload)
    (where_ : Value) (st : Store) :
  (exists g, globalSlug = Some g /\ g ≠ "" /\
             Forall (fun c => fst c ≠ g) (globals_config payload)) \/
  ((globalSlug = None \/ globalSlug = Some "") /\
   exists c, collectionSlug = Some c /\ c ≠ "" /\ collections payload !! c = None) ->
  exists what,
    Query.buildQuery parseParams collectionSlug None globalSlug locale payload where_ st
    = (Abrupt (TypeError what), st).
Proof.
  intros [[g [-> [Hg Hall]]] | [Hglobal [c [-> [Hc Hnone]]]]];
    unfold Query.buildQuery, queryFields.
  - rewrite (QueryFacts.truthyStr_true _ Hg).
    assert (Hfind : List.find (fun c => String.eqb (fst c) g) (globals_config payload)
                    = None).
    { induction Hall as [| c rest Hc _ IH]; [reflexivity |].
      cbn [List.find]. rewrite (QueryFacts.eqb_neq _ _ Hc). exact IH. }
    rewrite Hfind. eexists. reflexivity.
  - rewrite (QueryFacts.truthyStr_true _ Hc), Hnone.
    destruct Hglobal as [-> | ->]; eexists; reflexivity.
Qed.

End Facts.

(** *** The path as it is sanitized *)

Lemma replaceDoubleUnderscore_head (c : ascii) (rest : string) :
  c ≠ "_"%char ->
  exists tail, replaceDoubleUnderscore (String c rest) = String c tail.
Proof.
  intros Hc. destruct rest as [| c2 rest2]; [exists ""; reflexivity |].
  cbn [replaceDoubleUnderscore].
  destruct (Ascii.eqb_spec c "_") as [-> | _]; [contradiction |].
  cbn [andb]. eexists. reflexivity.
Qed.

Lemma replaceDoubleUnderscore_step (c1 c2 : ascii) (rest2 : string) :
  replaceDoubleUnderscore (String c1 (String c2 rest2))
  = if (Ascii.eqb c1 "_" && Ascii.eqb c2 "_")%bool
    then String "." (replaceDoubleUnderscore rest2)
    else String c1 (replaceDoubleUnderscore (String c2 rest2)).
Proof. reflexivity. Qed.

Lemma hasDoubleUnderscore_step (c1 c2 : ascii) (rest2 : string) :
  hasDoubleUnderscore (String c1 (String c2 rest2))
  = (Ascii.eqb c1 "_" && Ascii.eqb c2 "_") || hasDoubleUnderscore (String c2 rest2).
Proof. reflexivity. Qed.

Lemma replaceDoubleUnderscore_clean (n : nat) : forall s,
  String.length s <= n -> hasDoubleUnderscore (replaceDoubleUnderscore s) = false.
Proof.
  induction n as [| n IH]; intros s Hlen.
  - destruct s; [reflexivity | cbn in Hlen; lia].
  - destruct s as [| c1 [| c2 rest2]]; [reflexivity | reflexivity |].
    cbn [String.length] in Hlen. rewrite replaceDoubleUnderscore_step.
    destruct (Ascii.eqb c1 "_" && Ascii.eqb c2 "_") eqn:Hpair.
    + specialize (IH rest2 ltac:(lia)).
      destruct (replaceDoubleUnderscore rest2) as [| d tail]; [reflexivity |].
      rewrite hasDoubleUnderscore_step. exact IH.
    + specialize (IH (String c2 rest2) ltac:(cbn [String.length]; lia)).
      destruct (replaceDoubleUnderscore (String c2 rest2)) as [| d tail] eqn:Htail;
        [reflexivity |].
      rewrite hasDoubleUnderscore_step, IH, orb_false_r.
      destruct (Ascii.eqb_spec c1 "_") as [-> | _]; [| reflexivity].
      cbn [andb] in Hpair |- *.
      destruct (Ascii.eqb_spec c2 "_") as [-> | Hc2]; [discriminate Hpair |].
      destruct (replaceDoubleUnderscore_head c2 rest2 Hc2) as [tail' Htail'].
      rewrite Htail' in Htail. injection Htail as -> _.
      destruct (Ascii.eqb_spec d "_"); [contradiction | reflexivity].
Qed.

Lemma replaceDoubleUnderscore_same (n : nat) : forall s,
  String.length s <= n -> hasDoubleUnderscore s = false -> replaceDoubleUnderscore s = s.
Proof.
  induction n as [| n IH]; intros s Hlen Hnone.
  - destruct s; [reflexivity | cbn in Hlen; lia].
  - destruct s as [| c1 [| c2 rest2]]; [reflexivity | reflexivity |].
    cbn [String.length] in Hlen. rewrite hasDoubleUnderscore_step in Hnone.
    apply orb_false_iff in Hnone. destruct Hnone as [Hpair Hrest].
    rewrite replaceDoubleUnderscore_step, Hpair.
    rewrite (IH (String c2 rest2)); [reflexivity | cbn [String.length]; lia | exact Hrest].
Qed.

(** X9. The path [buildSearchParam] works with never holds two
    underscores in a row and is never the literal [id]; an incoming
    path without double underscores, other than [id], is used as it
    is. *)
Theorem sanitized_path_has_no_double_underscore (incomingPath : string) :
  hasDoubleUnderscore (sanitizePath incomingPath) = false /\
  sanitizePath incomingPath ≠ "id" /\
  (hasDoubleUnderscore incomingPath = false -> incomingPath ≠ "id" ->
   sanitizePath incomingPath = incomingPath).
Proof.
  unfold sanitizePath. split; [| split].
  - destruct (String.eqb (replaceDoubleUnderscore incomingPath) "id"); [reflexivity |].
    apply (replaceDoubleUnderscore_clean (String.length incomingPath)). lia.
  - destruct (String.eqb_spec (replaceDoubleUnderscore incomingPath) "id");
      [discriminate | assumption].
  - intros Hnone Hid.
    rewrite (replaceDoubleUnderscore_same (String.length incomingPath)) by (lia || exact Hnone).
    apply QueryFacts.eqb_neq in Hid. rewrite Hid. reflexivity.
Qed.

(** *** The collection a stage reads from *)

Lemma length_append_s (s : string) : String.length (s +:+ "s") = S (String.length s).
Proof.
  induction s as [| c s IH]; [reflexivity |].
  change (S (String.length (s +:+ "s")) = S (S (String.length s))). rewrite IH. reflexivity.
Qed.

Lemma substring_last_s (s : string) : substring (String.length s) 1 (s +:+ "s") = "s".
Proof.
  induction s as [| c s IH]; [reflexivity |].
  change (substring (String.length s) 1 (s +:+ "s") = "s"). exact IH.
Qed.

Lemma endsWith_append_s (s : string) : endsWith (s +:+ "s") "s" = true.
Proof.
  unfold endsWith. rewrite length_append_s. cbn [String.length].
  replace (S (String.length s) - 1) with (String.length s) by lia.
  rewrite substring_last_s. reflexivity.
Qed.

(** X10. The collection name a [$lookup] stage reads from always
    ends in [s], and the rule leaves a name it produced as it is: a
    slug and the same slug followed by [s] are read from the same
    collection. *)
Theorem lookup_from_ends_in_s (slug : string) :
  endsWith (lookupFrom slug) "s" = true /\
  lookupFrom (lookupFrom slug) = lookupFrom slug /\
  (endsWith slug "s" = false -> lookupFrom (slug +:+ "s") = lookupFrom slug).
Proof.
  assert (Hends : endsWith (lookupFrom slug) "s" = true).
  { unfold lookupFrom. destruct (endsWith slug "s") eqn:H; [exact H |].
    apply endsWith_append_s. }
  split; [exact Hends |]. split.
  - unfold lookupFrom at 1. rewrite Hends. reflexivity.
  - intros Hnot. unfold lookupFrom. rewrite endsWith_append_s, Hnot. reflexivity.
Qed.

(** *** The theorems at work on the sample sites *)

Lemma every_joined_segment_gets_one_lookup_witness :
  pipeline (snd (JoinSamples.buildSearchParam
                   (JoinSamples.args "post.article.author.name" "equals" (VStr "bob"))
                   Samples.emptyStore))
  = [ {| as_ := "_post"; foreignField := "_id"; from := "posts"; localField := "post" |};
      {| as_ := "_post.article"; foreignField := "_id"; from := "articles";
         localField := "_post.article" |};
      {| as_ := "_post.article.author"; foreignField := "_id"; from := "users";
         localField := "_post.article.author" |} ].
Proof.
  refine (proj1 (every_joined_segment_gets_one_lookup
                   JoinSamples.getLocalizedPaths JoinSamples.sanitizeQueryValue
                   Samples.operatorMap Samples.objectIdFault Samples.isValidObjectId
                   Samples.parseFloat
                   (JoinSamples.args "post.article.author.name" "equals" (VStr "bob"))
                   Samples.emptyStore
                   [JoinSamples.post; JoinSamples.article; JoinSamples.author;
                    JoinSamples.authorName]
                   JoinSamples.post false eq_refl eq_refl _ _ eq_refl _)).
  - discriminate.
  - cbn. lia.
  - intros k Hk. change (joinCount _) with 3 in Hk.
    assert (Hcases : k = 1 \/ k = 2 \/ k = 3) by lia.
    destruct Hcases as [-> | [-> | ->]]; eexists; reflexivity.
Defined.

Lemma only_the_first_alias_is_hidden_witness :
  projection (snd (JoinSamples.buildSearchParam
                     (JoinSamples.args "post.article.author.name" "equals" (VStr "bob"))
                     Samples.emptyStore))
  = Some {[ "_post" := false ]}.
Proof.
  refine (only_the_first_alias_is_hidden
            JoinSamples.getLocalizedPaths JoinSamples.sanitizeQueryValue
            Samples.operatorMap Samples.objectIdFault Samples.isValidObjectId
            Samples.parseFloat
            (JoinSamples.args "post.article.author.name" "equals" (VStr "bob"))
            Samples.emptyStore
            [JoinSamples.post; JoinSamples.article; JoinSamples.author;
             JoinSamples.authorName]
            JoinSamples.post false eq_refl eq_refl _ _ eq_refl _).
  - discriminate.
  - cbn. lia.
  - intros k Hk. change (joinCount _) with 3 in Hk.
    assert (Hcases : k = 1 \/ k = 2 \/ k = 3) by lia.
    destruct Hcases as [-> | [-> | ->]]; eexists; reflexivity.
Defined.

Lemma segment_without_slug_throws_after_earlier_joins_witness :
  exists what,
    fst (JoinSamples.buildSearchParam
           (JoinSamples.args "post.article.draft" "equals" (VStr "x")) Samples.emptyStore)
    = Abrupt (TypeError what) /\
    pipeline (snd (JoinSamples.buildSearchParam
                     (JoinSamples.args "post.article.draft" "equals" (VStr "x"))
                     Samples.emptyStore))
    = [ {| as_ := "_post"; foreignField := "_id"; from := "posts"; localField := "post" |} ].
Proof.
  refine (segment_without_slug_throws_after_earlier_joins
            JoinSamples.getLocalizedPaths JoinSamples.sanitizeQueryValue
            Samples.operatorMap Samples.objectIdFault Samples.isValidObjectId
            Samples.parseFloat
            (JoinSamples.args "post.article.draft" "equals" (VStr "x"))
            Samples.emptyStore
            [JoinSamples.post; JoinSamples.article; JoinSamples.draft]
            JoinSamples.post JoinSamples.draft false 2
            eq_refl eq_refl _ eq_refl _ _ eq_refl eq_refl).
  - discriminate.
  - change (joinCount _) with 2. lia.
  - intros k Hk. assert (k = 1) as -> by lia. eexists. reflexivity.
Defined.

Lemma filter_is_put_under_the_last_alias_witness :
  fst (JoinSamples.buildSearchParam
         (JoinSamples.args "post.article.author.name" "equals" (VStr "bob"))
         Samples.emptyStore)
  = Normal (Some {| sp_path := Some "_post.article.author.name"; sp_rawQuery := None;
                    sp_value := Some (VObj [("$eq", VStr "bob")]) |}).
Proof.
  refine (proj2 (filter_is_put_under_the_last_alias
                   JoinSamples.getLocalizedPaths JoinSamples.sanitizeQueryValue
                   Samples.operatorMap Samples.objectIdFault Samples.isValidObjectId
                   Samples.parseFloat
                   (JoinSamples.args "post.article.author.name" "equals" (VStr "bob"))
                   Samples.emptyStore
                   [JoinSamples.post; JoinSamples.article; JoinSamples.author;
                    JoinSamples.authorName]
                   JoinSamples.post JoinSamples.authorName false "equals" "$eq"
                   eq_refl eq_refl _ eq_refl _ _ _ eq_refl eq_refl eq_refl _ eq_refl _)).
  - cbn. lia.
  - discriminate.
  - repeat constructor; discriminate.
  - intros k Hk. cbn [length] in Hk.
    assert (Hcases : k = 1 \/ k = 2 \/ k = 3) by lia.
    destruct Hcases as [-> | [-> | ->]]; eexists; reflexivity.
  - discriminate.
  - discriminate.
Defined.

Lemma path_ending_in_id_compares_object_ids_witness :
  fst (Samples.buildSearchParam
         (Samples.args "article.author.id" "equals" (VStr "507f1f77bcf86cd799439011"))
         Samples.emptyStore)
  = Normal (Some {| sp_path := Some "_article.id"; sp_rawQuery := None;
                    sp_value :=
                      Some (VObj [("$eq", VObjectId "507f1f77bcf86cd799439011")]) |}).
Proof.
  refine (proj2 (path_ending_in_id_compares_object_ids
                   Samples.getLocalizedPaths Samples.sanitizeQueryValue Samples.operatorMap
                   Samples.objectIdFault Samples.isValidObjectId Samples.parseFloat
                   (Samples.args "article.author.id" "equals"
                      (VStr "507f1f77bcf86cd799439011"))
                   Samples.emptyStore
                   [ mkPathToQuery (Some "posts") true Samples.articleField "article";
                     mkPathToQuery (Some "articles") true Samples.authorField "author";
                     mkPathToQuery (Some "users") true Samples.idField "id" ]
                   (mkPathToQuery (Some "posts") true Samples.articleField "article")
                   false "507f1f77bcf86cd799439011"
                   eq_refl eq_refl _ _ eq_refl _ eq_refl eq_refl)
            "equals" "$eq" eq_refl eq_refl eq_refl eq_refl _).
  - discriminate.
  - cbn. lia.
  - intros k Hk. change (joinCount _) with 0 in Hk. lia.
  - discriminate.
Defined.

Lemma single_segment_leaves_pipeline_and_projection_witness :
  snd (Samples.buildSearchParam (Samples.args "owner" "equals" (VStr "42"))
         Samples.emptyStore)
  = Samples.emptyStore.
Proof.
  refine (single_segment_leaves_pipeline_and_projection
            Samples.getLocalizedPaths Samples.sanitizeQueryValue Samples.operatorMap
            Samples.objectIdFault Samples.isValidObjectId Samples.parseFloat
            (Samples.args "owner" "equals" (VStr "42")) Samples.emptyStore _).
  cbn. lia.
Defined.

Lemma raw_query_is_returned_as_is_witness :
  JoinSamples.buildSearchParam
    (JoinSamples.args "post.article.author.name" "near" (VStr "10,20"))
    Samples.emptyStore
  = (Normal (Some {| sp_path := None; sp_rawQuery := None;
                     sp_value := Some (VObj [("post", VObj [("$near", VStr "10,20")])]) |}),
     Samples.emptyStore).
Proof.
  refine (raw_query_is_returned_as_is
            JoinSamples.getLocalizedPaths JoinSamples.sanitizeQueryValue
            Samples.operatorMap Samples.objectIdFault Samples.isValidObjectId
            Samples.parseFloat
            (JoinSamples.args "post.article.author.name" "near" (VStr "10,20"))
            Samples.emptyStore JoinSamples.post
            [JoinSamples.article; JoinSamples.author; JoinSamples.authorName]
            false eq_refl _ eq_refl).
  discriminate.
Defined.

Lemma id_filter_is_a_plain_comparison_on__id_witness :
  Samples.buildSearchParam (Samples.args "id" "equals" (VStr "7")) Samples.emptyStore
  = (Normal (Some {| sp_path := Some "_id"; sp_rawQuery := None;
                     sp_value := Some (VObj [("$eq", VStr "7")]) |}),
     Samples.emptyStore).
Proof.
  refine (id_filter_is_a_plain_comparison_on__id
            Samples.getLocalizedPaths Samples.sanitizeQueryValue Samples.operatorMap
            Samples.objectIdFault Samples.isValidObjectId Samples.parseFloat
            (Samples.args "id" "equals" (VStr "7")) Samples.emptyStore "equals" "$eq"
            (or_introl eq_refl) eq_refl eq_refl eq_refl _ eq_refl _);
    discriminate.
Defined.

Lemma unknown_slug_fails_before_parsing_witness :
  exists what,
    Query.buildQuery Samples.parseParams (Some "pages") None None None Samples.payload
      (VObj [("title", VObj [("equals", VStr "x")])]) Samples.emptyStore
    = (Abrupt (TypeError what), Samples.emptyStore).
Proof.
  refine (unknown_slug_fails_before_parsing Samples.parseParams
            (Some "pages") None None Samples.payload
            (VObj [("title", VObj [("equals", VStr "x")])]) Samples.emptyStore _).
  right. split; [left; reflexivity |].
  exists "pages". split; [reflexivity | split; [discriminate | reflexivity]].
Defined.

End PathFacts.

(** ** Further properties of schema derivation *)

Module ShapeFacts.

Import JS Schema Shape SchemaFacts.

(** *** What holds when a computation returns *)

Lemma wp_foldM_keeps {S A B} (step : A -> B -> ST S B) (Inv : B -> Prop) (xs : list A) :
  (forall x acc s, Inv acc -> wp (step x acc) (fun acc' _ => Inv acc') s) ->
  forall acc s, Inv acc -> wp (foldM step xs acc) (fun acc' _ => Inv acc') s.
Proof.
  intros Hstep acc s Hacc.
  apply (wp_foldM step (fun _ acc' _ => Inv acc') xs); [| exact Hacc].
  intros pre x acc0 s0 _ H0. apply Hstep, H0.
Qed.

Section Accumulator.

Variable ids : IDFieldTypes.

(** A property of the accumulator that setting a schema and adding a
    required name keep. *)
Variable Inv : Acc -> Prop.
Hypothesis Inv_set : forall n s acc, Inv acc -> Inv (setFieldSchema n s acc).
Hypothesis Inv_add : forall n acc, Inv acc -> Inv (addRequired n acc).

Lemma Inv_mergeChild (child : FieldsSchema) (acc : Acc) :
  Inv acc -> Inv (mergeChild child acc).
Proof.
  intros Hacc. unfold mergeChild.
  assert (Hprops : forall ps a, Inv a ->
            Inv (fold_left (fun a kv => setFieldSchema (fst kv) (snd kv) a) ps a)).
  { induction ps as [| kv ps IH]; intros a Ha; [exact Ha |]. apply IH, Inv_set, Ha. }
  assert (Hreq : forall rs a, Inv a ->
            Inv (fold_left (fun a propName => addRequired propName a) rs a)).
  { induction rs as [| r rs IH]; intros a Ha; [exact Ha |]. apply IH, Inv_add, Ha. }
  apply Hreq, Hprops, Hacc.
Qed.

Lemma fieldStep_keeps_from (name : option string) (base : Base) (kind : Kind Field)
    (acc : Acc) (reg : Registry) :
  Inv (match name with
       | Some n =>
           if fieldAffectsData (MkField name base kind)
              && fieldIsRequired (MkField name base kind)
           then addRequired n acc else acc
       | None => acc
       end) ->
  wp (fieldStep ids (MkField name base kind) acc) (fun acc' _ => Inv acc') reg.
Proof.
  set (acc1 := match name with
               | Some n =>
                   if fieldAffectsData (MkField name base kind)
                      && fieldIsRequired (MkField name base kind)
                   then addRequired n acc else acc
               | None => acc
               end).
  intros Hacc1.
  assert (Htail : forall (m : M (Value * Acc)) reg0,
             wp m (fun out _ => Inv (snd out)) reg0 ->
             wp (bind m (fun switched =>
                   let '(fieldSchema, acc) := switched in
                   let fieldSchema :=
                     fold_left (fun jsonSchema schema => schema jsonSchema)
                       (typescriptSchema base) fieldSchema in
                   ret (match name with
                        | Some n =>
                            if truthy fieldSchema
                               && fieldAffectsData (MkField name base kind)
                            then setFieldSchema n fieldSchema acc else acc
                        | None => acc
                        end)))
               (fun acc' _ => Inv acc') reg0).
  { intros m reg0 Hm. apply wp_bind. unfold wp in *.
    destruct (m reg0) as [[[fieldSchema acc0] | e] reg1]; [| exact I].
    cbn [snd] in Hm. cbn [ret]. destruct name as [n |]; [| exact Hm].
    destruct (truthy _ && _); [apply Inv_set |]; exact Hm. }
  destruct kind; cbn [fieldStep]; fold acc1; apply Htail;
    try (apply wp_ret; exact Hacc1).
  - apply wp_bind, wp_any. intros s reg1. apply wp_ret. exact Hacc1.
  - apply wp_bind, wp_any. intros s reg1. apply wp_ret. exact Hacc1.
  - apply wp_bind, wp_any. intros child reg1.
    apply wp_bind, wp_any. intros s reg2. apply wp_ret. exact Hacc1.
  - apply wp_bind, wp_any. intros child reg1. apply wp_ret.
    apply Inv_mergeChild, Hacc1.
  - apply wp_bind, wp_any. intros child reg1. apply wp_ret.
    apply Inv_mergeChild, Hacc1.
  - apply wp_bind.
    eapply wp_mono; [apply (wp_foldM_keeps _ Inv); [| exact Hacc1] |].
    + intros tab acc0 reg0 Hacc0. apply wp_bind, wp_any. intros child reg1.
      apply wp_ret. destruct (tabHasName tab); [| apply Inv_mergeChild, Hacc0].
      destruct (existsb fieldIsRequired (tab_fields tab));
        [apply Inv_add |]; apply Inv_set, Hacc0.
    + intros acc0 reg0 Hacc0. exact Hacc0.
  - apply wp_bind, wp_any. intros child reg1.
    apply wp_bind, wp_any. intros s reg2. apply wp_ret. exact Hacc1.
Qed.

Lemma fieldStep_keeps (f : Field) (acc : Acc) (reg : Registry) :
  Inv acc -> wp (fieldStep ids f acc) (fun acc' _ => Inv acc') reg.
Proof.
  intros Hacc. destruct f as [name base kind]. apply fieldStep_keeps_from.
  destruct name as [n |]; [| exact Hacc].
  destruct (_ && _); [apply Inv_add |]; exact Hacc.
Qed.

Lemma fieldsToJSONSchema_keeps (fields : list Field) (reg : Registry) :
  Inv emptyAcc ->
  wp (fieldsToJSONSchema ids fields) (fun out _ => Inv (mkAcc (properties out) (required_ out)))
    reg.
Proof.
  intros Hempty. unfold fieldsToJSONSchema. apply wp_bind.
  eapply wp_mono; [apply (wp_foldM_keeps _ Inv); [| exact Hempty] |].
  - intros f acc s Hacc. apply fieldStep_keeps, Hacc.
  - intros acc s Hacc. apply wp_ret. destruct acc. exact Hacc.
Qed.

End Accumulator.

Lemma foldM_app {S A B} (step : A -> B -> ST S B) (xs ys : list A) (acc : B) (s : S) :
  foldM step (xs ++ ys) acc s = bind (foldM step xs acc) (foldM step ys) s.
Proof.
  revert acc s. induction xs as [| x xs IH]; intros acc s; [reflexivity |].
  cbn [app foldM]. unfold bind.
  destruct (step x acc s) as [[acc' | e] s']; [| reflexivity].
  rewrite IH. reflexivity.
Qed.

Section Names.

Variable ids : IDFieldTypes.

Lemma distinct_when_returned
    (fields : list Field) (reg reg' : Registry) (out : FieldsSchema) :
  fieldsToJSONSchema ids fields reg = (Normal out, reg') ->
  NoDup (keys (properties out)) /\ NoDup (required_ out).
Proof.
  intros Hrun.
  refine (wp_run _ _ _ _ _ (fieldsToJSONSchema_keeps ids distinct _ _ fields reg _) Hrun).
  - intros n s acc [Hprops Hreq]. split; [| exact Hreq].
    cbn [setFieldSchema fieldSchemas]. rewrite keys_objSet_setAdd.
    apply NoDup_setAdd, Hprops.
  - intros n acc [Hprops Hreq]. split; [exact Hprops |].
    cbn [addRequired requiredFieldNames]. apply NoDup_setAdd, Hreq.
  - split; apply NoDup_nil; exact I.
Qed.

(** X12. In what [fieldsToJSONSchema] returns no property key and no
    required name occurs twice, also when fields share a name or a row
    hands up a name the parent already has. *)
Theorem derived_names_are_distinct
    (fields : list Field) (reg reg' : Registry) (out : FieldsSchema) :
  fieldsToJSONSchema ids fields reg = (Normal out, reg') ->
  NoDup (keys (properties out)) /\ NoDup (required_ out).
Proof.
  intros Hrun. exact (distinct_when_returned fields reg reg' out Hrun).
Qed.

Lemma listed_when_required
    (fields : list Field) (f : Field) (n : string) (reg reg' : Registry)
    (out : FieldsSchema) :
  In f fields ->
  field_name f = Some n ->
  fieldAffectsData f = true ->
  fieldIsRequired f = true ->
  fieldsToJSONSchema ids fields reg = (Normal out, reg') ->
  In n (required_ out).
Proof.
  intros Hin Hname Hdata Hreq Hrun.
  apply in_split in Hin. destruct Hin as [pre [post ->]].
  pose (Listed := fun acc : Acc => In n (requiredFieldNames acc)).
  assert (Hset : forall m s acc, Listed acc -> Listed (setFieldSchema m s acc)).
  { intros m s acc H. exact H. }
  assert (Hadd : forall m acc, Listed acc -> Listed (addRequired m acc)).
  { intros m acc H. apply In_setAdd. right. exact H. }
  cut (wp (fieldsToJSONSchema ids (pre ++ f :: post)) (fun out _ => In n (required_ out)) reg).
  { intros H. exact (wp_run _ _ _ _ _ H Hrun). }
  unfold fieldsToJSONSchema. apply wp_bind. unfold wp at 1.
  rewrite foldM_app. unfold bind at 1.
  destruct (foldM (fieldStep ids) pre emptyAcc reg) as [[acc | e] reg1]; [| exact I].
  cbn [foldM]. fold (wp (bind (fieldStep ids f acc) (foldM (fieldStep ids) post))
                       (fun a s' => wp (ret (ofAcc a)) (fun out _ => In n (required_ out)) s')
                       reg1).
  apply wp_bind.
  eapply wp_mono.
  - destruct f as [name base kind]. cbn [field_name] in Hname. subst name.
    apply (fieldStep_keeps_from ids Listed Hset Hadd).
    rewrite Hdata, Hreq. cbn [andb]. apply In_setAdd. left. reflexivity.
  - intros acc1 reg2 Hacc1. cbn beta.
    eapply wp_mono; [apply (wp_foldM_keeps _ Listed); [| exact Hacc1] |].
    + intros x acc0 s0 H0. apply (fieldStep_keeps ids Listed Hset Hadd), H0.
    + intros acc2 reg3 Hacc2. exact Hacc2.
Qed.

(** X13. A field of the list that has a name, affects data and is
    required (by [fieldIsRequired]) has its name in the returned
    [required], wherever it stands in the list. *)
Theorem required_field_is_listed
    (fields : list Field) (f : Field) (n : string) (reg reg' : Registry)
    (out : FieldsSchema) :
  In f fields ->
  field_name f = Some n ->
  fieldAffectsData f = true ->
  fieldIsRequired f = true ->
  fieldsToJSONSchema ids fields reg = (Normal out, reg') ->
  In n (required_ out).
Proof.
  intros Hin Hname Hdata Hreq Hrun.
  exact (listed_when_required fields f n reg reg' out Hin Hname Hdata Hreq Hrun).
Qed.

End Names.

(** *** Where required names come from *)

Lemma existsb_impl {A} (p q : A -> bool) (xs : list A) :
  Forall (fun x => p x = true -> q x = true) xs ->
  existsb p xs = true -> existsb q xs = true.
Proof.
  induction 1 as [| x rest Hx _ IH]; cbn [existsb]; [discriminate |].
  intros H. apply orb_true_iff in H. apply orb_true_iff.
  destruct H as [H | H]; [left; apply Hx, H | right; apply IH, H].
Qed.

Lemma existsb_false_Forall {A} (p : A -> bool) (xs : list A) :
  existsb p xs = false -> Forall (fun x => p x = false) xs.
Proof.
  induction xs as [| x rest IH]; cbn [existsb]; intros H; constructor;
    apply orb_false_iff in H; [apply H | apply IH, H].
Qed.

Lemma fieldIsRequired_marks (f : Field) :
  fieldIsRequired f = true -> marksRequired f = true.
Proof.
  induction f as [name base kind IH] using Field_nested_ind.
  cbn [fieldIsRequired marksRequired]. destruct (condition base); [discriminate |].
  destruct (required base); [reflexivity |]. rewrite andb_false_r. cbn [orb].
  destruct kind; cbn [nestedAll] in IH; try discriminate;
    try (apply existsb_impl; exact IH).
  apply existsb_impl. eapply List.Forall_impl; [| exact IH].
  intros tab Htab Hreq. destruct (tab_name tab); [| discriminate Hreq].
  exact (existsb_impl _ _ _ Htab Hreq).
Qed.

Lemma mergeChild_required (child : FieldsSchema) (acc : Acc) :
  requiredFieldNames (mergeChild child acc)
  = fold_left (fun r n => setAdd n r) (required_ child) (requiredFieldNames acc).
Proof.
  unfold mergeChild.
  assert (Hprops : forall ps a,
            requiredFieldNames
              (fold_left (fun a kv => setFieldSchema (fst kv) (snd kv) a) ps a)
            = requiredFieldNames a).
  { induction ps as [| kv ps IH]; intros a; [reflexivity |]. cbn [fold_left]. rewrite IH.
    reflexivity. }
  assert (Hreq : forall rs a,
            requiredFieldNames (fold_left (fun a propName => addRequired propName a) rs a)
            = fold_left (fun r n => setAdd n r) rs (requiredFieldNames a)).
  { induction rs as [| r rs IH]; intros a; [reflexivity |]. cbn [fold_left]. rewrite IH.
    reflexivity. }
  rewrite Hreq, Hprops. reflexivity.
Qed.

Lemma mergeChild_properties (child : FieldsSchema) (acc : Acc) :
  fieldSchemas (mergeChild child acc) = objSpread (properties child) (fieldSchemas acc).
Proof.
  unfold mergeChild, objSpread.
  assert (Hreq : forall rs a,
            fieldSchemas (fold_left (fun a propName => addRequired propName a) rs a)
            = fieldSchemas a).
  { induction rs as [| r rs IH]; intros a; [reflexivity |]. cbn [fold_left]. rewrite IH.
    reflexivity. }
  rewrite Hreq. generalize (properties child). intros ps. revert acc.
  induction ps as [| kv ps IH]; intros acc; [reflexivity |]. cbn [fold_left]. rewrite IH.
  reflexivity.
Qed.

Section Required.

Variable ids : IDFieldTypes.

Lemma unmarked_list_requires_nothing (fields : list Field) :
  Forall (fun f => marksRequired f = false ->
                   forall acc reg,
                     wp (fieldStep ids f acc)
                       (fun acc' _ => requiredFieldNames acc' = requiredFieldNames acc) reg)
    fields ->
  existsb marksRequired fields = false ->
  forall reg, wp (fieldsToJSONSchema ids fields) (fun out _ => required_ out = []) reg.
Proof.
  intros Hall Hnone reg. unfold fieldsToJSONSchema. apply wp_bind.
  apply existsb_false_Forall in Hnone.
  eapply wp_mono.
  - apply (wp_foldM (fieldStep ids) (fun _ acc _ => requiredFieldNames acc = [])).
    + intros pre x acc s [post Hsplit] Hacc.
      assert (Hin : In x fields). { rewrite Hsplit. apply in_elt. }
      rewrite List.Forall_forall in Hall, Hnone.
      eapply wp_mono; [apply (Hall x Hin (Hnone x Hin)) |].
      intros acc' s' Hsame. cbn beta in Hsame. rewrite Hsame. exact Hacc.
    + reflexivity.
  - intros acc s Hacc. apply wp_ret. exact Hacc.
Qed.

Lemma unmarked_step_requires_nothing (f : Field) :
  marksRequired f = false ->
  forall acc reg,
    wp (fieldStep ids f acc)
      (fun acc' _ => requiredFieldNames acc' = requiredFieldNames acc) reg.
Proof.
  induction f as [name base kind IH] using Field_nested_ind.
  intros Hmarks acc reg.
  assert (Hnot : fieldIsRequired (MkField name base kind) = false).
  { destruct (fieldIsRequired (MkField name base kind)) eqn:Hreq; [| reflexivity].
    apply fieldIsRequired_marks in Hreq. congruence. }
  cbn [marksRequired] in Hmarks. apply orb_false_iff in Hmarks.
  destruct Hmarks as [_ Hnested].
  assert (Htail : forall (m : M (Value * Acc)) reg0,
             wp m (fun out _ => requiredFieldNames (snd out) = requiredFieldNames acc) reg0 ->
             wp (bind m (fun switched =>
                   let '(fieldSchema, acc) := switched in
                   let fieldSchema :=
                     fold_left (fun jsonSchema schema => schema jsonSchema)
                       (typescriptSchema base) fieldSchema in
                   ret (match name with
                        | Some n =>
                            if truthy fieldSchema
                               && fieldAffectsData (MkField name base kind)
                            then setFieldSchema n fieldSchema acc else acc
                        | None => acc
                        end)))
               (fun acc' _ => requiredFieldNames acc' = requiredFieldNames acc) reg0).
  { intros m reg0 Hm. apply wp_bind. unfold wp in *.
    destruct (m reg0) as [[[fieldSchema acc0] | e] reg1]; [| exact I].
    cbn [snd] in Hm. cbn [ret]. destruct name as [n |]; [| exact Hm].
    destruct (truthy _ && _); exact Hm. }
  assert (Hacc1 : match name with
                  | Some n =>
                      if fieldAffectsData (MkField name base kind)
                         && fieldIsRequired (MkField name base kind)
                      then addRequired n acc else acc
                  | None => acc
                  end = acc).
  { rewrite Hnot, andb_false_r. destruct name; reflexivity. }
  destruct kind; cbn [fieldStep]; rewrite Hacc1; apply Htail;
    try (apply wp_ret; reflexivity); cbn [nestedAll] in IH.
  - apply wp_bind, wp_any. intros s reg1. apply wp_ret. reflexivity.
  - apply wp_bind, wp_any. intros s reg1. apply wp_ret. reflexivity.
  - apply wp_bind, wp_any. intros child reg1.
    apply wp_bind, wp_any. intros s reg2. apply wp_ret. reflexivity.
  - apply wp_bind.
    eapply wp_mono; [apply (unmarked_list_requires_nothing _ IH Hnested) |].
    intros child reg1 Hchild. apply wp_ret. cbn [snd].
    rewrite mergeChild_required, Hchild. reflexivity.
  - apply wp_bind.
    eapply wp_mono; [apply (unmarked_list_requires_nothing _ IH Hnested) |].
    intros child reg1 Hchild. apply wp_ret. cbn [snd].
    rewrite mergeChild_required, Hchild. reflexivity.
  - apply wp_bind. apply existsb_false_Forall in Hnested.
    eapply wp_mono.
    + apply (wp_foldM _ (fun _ a _ => requiredFieldNames a = requiredFieldNames acc)).
      * intros pre tab acc0 s [post Hsplit] Hacc0.
        assert (Hin : In tab tabs). { rewrite Hsplit. apply in_elt. }
        rewrite List.Forall_forall in IH, Hnested.
        specialize (IH tab Hin). specialize (Hnested tab Hin). cbn beta in Hnested.
        apply wp_bind.
        eapply wp_mono; [apply (unmarked_list_requires_nothing _ IH Hnested) |].
        intros child reg1 Hchild. apply wp_ret.
        destruct (tabHasName tab).
        -- destruct (existsb fieldIsRequired (tab_fields tab)) eqn:Hreq; [| exact Hacc0].
           apply (existsb_impl _ marksRequired) in Hreq; [congruence |].
           apply Forall_forall. intros g _. apply fieldIsRequired_marks.
        -- rewrite mergeChild_required, Hchild. exact Hacc0.
      * reflexivity.
    + intros acc0 reg0 Hacc0. apply wp_ret. exact Hacc0.
  - apply wp_bind, wp_any. intros child reg1.
    apply wp_bind, wp_any. intros s reg2. apply wp_ret. reflexivity.
Qed.

(** X14. When no field of the list, nor any field below one in
    rows, collapsibles, groups and tabs, is marked [required], the
    returned [required] is empty and [fieldIsRequired] is false of
    every field of the list. *)
Theorem nothing_is_required_unless_marked
    (fields : list Field) (reg reg' : Registry) (out : FieldsSchema) :
  existsb marksRequired fields = false ->
  fieldsToJSONSchema ids fields reg = (Normal out, reg') ->
  required_ out = [] /\
  Forall (fun f => fieldIsRequired f = false) fields.
Proof.
  intros Hnone Hrun. split.
  - refine (wp_run _ _ _ _ _ (unmarked_list_requires_nothing fields _ Hnone reg) Hrun).
    apply Forall_forall. intros f _. apply unmarked_step_requires_nothing.
  - apply existsb_false_Forall in Hnone.
    eapply List.Forall_impl; [| exact Hnone]. intros f Hf. cbn beta in Hf.
    destruct (fieldIsRequired f) eqn:Hreq; [| reflexivity].
    apply fieldIsRequired_marks in Hreq. congruence.
Qed.

End Required.

(** *** Built-in kinds only write the registry *)

Lemma blind_ret {A} (a : A) : blind (ret a).
Proof. intros reg reg'. reflexivity. Qed.

Lemma blind_throw {A} (e : Exn) : blind (@throw Registry A e).
Proof. intros reg reg'. reflexivity. Qed.

Lemma blind_bind {A B} (m : M A) (k : A -> M B) :
  blind m -> (forall a, blind (k a)) -> blind (bind m k).
Proof.
  intros Hm Hk reg reg'. specialize (Hm reg reg'). unfold bind.
  destruct (m reg) as [[a | e] reg1], (m reg') as [[a' | e'] reg1']; cbn [fst] in Hm;
    try discriminate Hm.
  - injection Hm as <-. apply Hk.
  - injection Hm as <-. reflexivity.
Qed.

Lemma blind_foldM {A B} (step : A -> B -> M B) (xs : list A) :
  Forall (fun x => forall acc, blind (step x acc)) xs -> forall acc, blind (foldM step xs acc).
Proof.
  induction 1 as [| x rest Hx _ IH]; intros acc; cbn [foldM].
  - apply blind_ret.
  - apply blind_bind; [apply Hx | exact IH].
Qed.

Lemma blind_mapM {A B} (f : A -> M B) (xs : list A) :
  Forall (fun x => blind (f x)) xs -> blind (mapM f xs).
Proof.
  induction 1 as [| x rest Hx _ IH]; cbn [mapM].
  - apply blind_ret.
  - apply blind_bind; [exact Hx |]. intros y.
    apply blind_bind; [exact IH |]. intros ys. apply blind_ret.
Qed.

Lemma blind_liftInterface (interfaceName : option string) (schema : Value) :
  blind (liftInterface interfaceName schema).
Proof.
  unfold liftInterface. destruct interfaceName as [n |]; [| apply blind_ret].
  destruct (truthyStr n); [| apply blind_ret]. intros reg reg'. reflexivity.
Qed.

Lemma Forall_and_false {A} (P : A -> Prop) (p : A -> bool) (xs : list A) :
  Forall (fun x => p x = false -> P x) xs -> existsb p xs = false -> Forall P xs.
Proof.
  intros Hall Hnone. apply existsb_false_Forall in Hnone.
  rewrite List.Forall_forall in *. intros x Hx. apply Hall; [exact Hx | apply Hnone, Hx].
Qed.

Section Blind.

Variable ids : IDFieldTypes.

Lemma blind_fieldsToJSONSchema (fields : list Field) :
  Forall (fun f => forall acc, blind (fieldStep ids f acc)) fields ->
  blind (fieldsToJSONSchema ids fields).
Proof.
  intros Hall. unfold fieldsToJSONSchema. apply blind_bind.
  - apply blind_foldM. exact Hall.
  - intros a. apply blind_ret.
Qed.

Lemma blind_fieldStep (f : Field) :
  usesOutputSchema f = false -> forall acc, blind (fieldStep ids f acc).
Proof.
  induction f as [name base kind IH] using Field_nested_ind. intros Hno acc.
  destruct kind; cbn [usesOutputSchema] in Hno; cbn [fieldStep nestedAll] in *;
    (apply blind_bind; [| intros [fieldSchema acc0]; apply blind_ret]);
    try apply blind_ret.
  - apply blind_bind; [| intros s; apply blind_ret].
    destruct editor as [| | [outputSchema |]]; cbn [richTextSchema];
      [apply blind_throw | apply blind_throw | discriminate Hno | apply blind_ret].
  - apply blind_bind; [| intros options; apply blind_ret].
    destruct (negb (length blocks =? 0)%nat); [| apply blind_ret].
    apply blind_mapM.
    apply (Forall_and_false _ (fun block => existsb usesOutputSchema (block_fields block)));
      [| exact Hno].
    eapply List.Forall_impl; [| exact IH]. intros block Hblock Hnone.
    apply blind_bind; [| intros child; apply blind_liftInterface].
    apply blind_fieldsToJSONSchema. exact (Forall_and_false _ _ _ Hblock Hnone).
  - apply blind_bind; [apply blind_fieldsToJSONSchema, (Forall_and_false _ _ _ IH Hno) |].
    intros child. apply blind_bind; [apply blind_liftInterface | intros s; apply blind_ret].
  - apply blind_bind; [apply blind_fieldsToJSONSchema, (Forall_and_false _ _ _ IH Hno) |].
    intros child. apply blind_ret.
  - apply blind_bind; [apply blind_fieldsToJSONSchema, (Forall_and_false _ _ _ IH Hno) |].
    intros child. apply blind_ret.
  - apply blind_bind; [| intros acc0; apply blind_ret].
    apply blind_foldM.
    apply (Forall_and_false _ (fun tab => existsb usesOutputSchema (tab_fields tab)));
      [| exact Hno].
    eapply List.Forall_impl; [| exact IH]. intros tab Htab Hnone acc0.
    apply blind_bind; [| intros child; apply blind_ret].
    apply blind_fieldsToJSONSchema. exact (Forall_and_false _ _ _ Htab Hnone).
  - apply blind_bind; [apply blind_fieldsToJSONSchema, (Forall_and_false _ _ _ IH Hno) |].
    intros child. apply blind_bind; [apply blind_liftInterface | intros s; apply blind_ret].
Qed.

(** X15. When no rich-text editor in the tree brings its own
    [outputSchema], the outcome of [fieldsToJSONSchema] (the schema or
    the exception) is the same whatever the registry holds: the
    built-in kinds only write to it. *)
Theorem outcome_does_not_depend_on_the_registry
    (fields : list Field) (reg reg' : Registry) :
  existsb usesOutputSchema fields = false ->
  fst (fieldsToJSONSchema ids fields reg) = fst (fieldsToJSONSchema ids fields reg').
Proof.
  intros Hno. apply blind_fieldsToJSONSchema.
  apply (Forall_and_false _ usesOutputSchema); [| exact Hno].
  apply Forall_forall. intros f _. apply blind_fieldStep.
Qed.

End Blind.

(** *** Interface names of groups and blocks *)

Lemma namedAs_true (n : string) (interfaceName : option string) :
  namedAs n interfaceName = true -> interfaceName = Some n.
Proof.
  destruct interfaceName as [m |]; cbn; [| discriminate].
  intros H. apply String.eqb_eq in H. subst m. reflexivity.
Qed.

Section Interfaces.

Variable ids : IDFieldTypes.
Variable n : string.
Hypothesis n_truthy : truthyStr n = true.

Lemma lifted_fieldsToJSONSchema (fields : list Field) :
  Forall (fun f => declaresInterface n f = true -> forall acc, reaches n (fieldStep ids f acc))
    fields ->
  existsb (declaresInterface n) fields = true ->
  reaches n (fieldsToJSONSchema ids fields).
Proof.
  intros Hall Hhit. unfold fieldsToJSONSchema.
  apply reaches_bind_l; [| intros a; apply grows_ret].
  apply (reaches_foldM n (fieldStep ids) (declaresInterface n));
    [apply grows_all | exact Hall | exact Hhit].
Qed.

Lemma lifted_fieldStep (f : Field) :
  declaresInterface n f = true -> forall acc, reaches n (fieldStep ids f acc).
Proof.
  induction f as [name base kind IH] using Field_nested_ind. intros Hdecl acc.
  destruct kind; cbn [declaresInterface] in Hdecl; try discriminate Hdecl;
    cbn [fieldStep nestedAll] in *;
    (apply reaches_bind_l; [| intros [fieldSchema acc0]; apply grows_ret]).
  - (* blocks *)
    apply reaches_bind_l; [| intros options; apply grows_ret].
    destruct blocks as [| block blocks']; [discriminate Hdecl |].
    cbn [length Nat.eqb negb].
    apply (reaches_mapM n _
             (fun block => namedAs n (block_interfaceName block) ||
                           existsb (declaresInterface n) (block_fields block)));
      [| | exact Hdecl].
    + apply Forall_forall. intros b _.
      apply grows_bind; [apply grows_fieldsToJSONSchema, grows_all |].
      intros child. apply grows_liftInterface.
    + eapply List.Forall_impl; [| exact IH]. intros b Hb Hhit.
      apply orb_true_iff in Hhit. destruct Hhit as [Hname | Hnested].
      * apply namedAs_true in Hname. rewrite Hname.
        apply reaches_bind_r. intros child. apply reaches_liftInterface, n_truthy.
      * apply reaches_bind_l; [apply lifted_fieldsToJSONSchema; assumption |].
        intros child. apply grows_liftInterface.
  - (* array *)
    apply orb_true_iff in Hdecl. destruct Hdecl as [Hname | Hnested].
    + apply namedAs_true in Hname. subst interfaceName.
      apply reaches_bind_r. intros child.
      apply reaches_bind_l; [apply reaches_liftInterface, n_truthy | intros s; apply grows_ret].
    + apply reaches_bind_l; [apply lifted_fieldsToJSONSchema; assumption |].
      intros child.
      apply grows_bind; [apply grows_liftInterface | intros s; apply grows_ret].
  - (* row *)
    apply reaches_bind_l; [apply lifted_fieldsToJSONSchema; assumption |].
    intros child. apply grows_ret.
  - (* collapsible *)
    apply reaches_bind_l; [apply lifted_fieldsToJSONSchema; assumption |].
    intros child. apply grows_ret.
  - (* tabs *)
    apply reaches_bind_l; [| intros acc0; apply grows_ret].
    apply (reaches_foldM n _ (fun tab => existsb (declaresInterface n) (tab_fields tab)));
      [| | exact Hdecl].
    + apply Forall_forall. intros tab _ acc0.
      apply grows_bind; [apply grows_fieldsToJSONSchema, grows_all |].
      intros child. apply grows_ret.
    + eapply List.Forall_impl; [| exact IH]. intros tab Htab Hhit acc0.
      apply reaches_bind_l; [apply lifted_fieldsToJSONSchema; assumption |].
      intros child. apply grows_ret.
  - (* group *)
    apply orb_true_iff in Hdecl. destruct Hdecl as [Hname | Hnested].
    + apply namedAs_true in Hname. subst interfaceName.
      apply reaches_bind_r. intros child.
      apply reaches_bind_l; [apply reaches_liftInterface, n_truthy | intros s; apply grows_ret].
    + apply reaches_bind_l; [apply lifted_fieldsToJSONSchema; assumption |].
      intros child.
      apply grows_bind; [apply grows_liftInterface | intros s; apply grows_ret].
Qed.

End Interfaces.

Section Lifting.

Variable ids : IDFieldTypes.

(** X16. A group, block or array with a non-empty [interfaceName]
    anywhere in the visited tree leaves that name as a key of the
    registry when derivation returns; a group so named, without
    [typescriptSchema] overrides, stores its object schema under the
    name and is itself the reference [#/definitions/<name>]. *)
Theorem interface_named_groups_and_blocks_are_lifted (n : string) :
  n ≠ "" ->
  (forall (fields : list Field) (reg reg' : Registry) (out : FieldsSchema),
      existsb (declaresInterface n) fields = true ->
      fieldsToJSONSchema ids fields reg = (Normal out, reg') ->
      In n (keys reg')) /\
  (forall (name : string) (base : Base) (children : list Field) (acc : Acc)
          (reg reg' : Registry) (child : FieldsSchema),
      typescriptSchema base = [] ->
      fieldsToJSONSchema ids children reg = (Normal child, reg') ->
      fieldStep ids (MkField (Some name) base (KGroup (Some n) children)) acc reg
      = (Normal (setFieldSchema name (ref n)
                   (if fieldIsRequired (MkField (Some name) base (KGroup (Some n) children))
                    then addRequired name acc else acc)),
         objSet n
           (VObj (objSpread (entries child)
                    [ ("type", VStr "object"); ("additionalProperties", VBool false) ]))
           reg')).
Proof.
  intros Hn.
  pose proof (QueryFacts.truthyStr_true n Hn) as Htruthy. split.
  - intros fields reg reg' out Hdecl Hrun.
    assert (Hreach : reaches n (fieldsToJSONSchema ids fields)).
    { apply (lifted_fieldsToJSONSchema ids n); [| exact Hdecl].
      apply Forall_forall. intros f _. apply lifted_fieldStep. exact Htruthy. }
    specialize (Hreach reg). rewrite Hrun in Hreach. apply Hreach. eexists. reflexivity.
  - intros name base children acc reg reg' child Hts Hchild.
    cbn [fieldStep]. unfold fieldsToJSONSchema in Hchild. unfold bind in *.
    destruct (foldM (fieldStep ids) children emptyAcc reg) as [[a | e] reg2];
      [| discriminate Hchild].
    cbn [ret] in Hchild. injection Hchild as <- <-.
    unfold liftInterface. rewrite Htruthy. cbn [registrySet ret bind].
    rewrite Hts.
    cbn [fold_left truthy ref andb fieldAffectsData field_name field_kind
           isLayoutKind negb].
    reflexivity.
Qed.

End Lifting.

(** *** Transparent containers *)

Lemma objSet_overwrite (k : string) (v v0 : Value) (o : Obj) :
  objSet k v (objSet k v0 o) = objSet k v o.
Proof.
  induction o as [| [k0 w] rest IH]; cbn [objSet].
  - rewrite String.eqb_refl. reflexivity.
  - destruct (String.eqb k0 k) eqn:Hk; cbn [objSet].
    + rewrite String.eqb_refl. reflexivity.
    + rewrite Hk, IH. reflexivity.
Qed.

Lemma objSet_commute (k k' : string) (v v' : Value) (o : Obj) :
  In k (keys o) -> k ≠ k' ->
  objSet k v (objSet k' v' o) = objSet k' v' (objSet k v o).
Proof.
  intros Hin Hne. induction o as [| [k0 w] rest IH]; [destruct Hin |].
  cbn [objSet].
  destruct (String.eqb k0 k') eqn:E1, (String.eqb k0 k) eqn:E2; cbn [objSet].
  - apply String.eqb_eq in E1, E2. congruence.
  - apply String.eqb_eq in E1. subst k0. rewrite E2, String.eqb_refl. reflexivity.
  - apply String.eqb_eq in E2. subst k0. rewrite E1, String.eqb_refl. reflexivity.
  - rewrite E1, E2, IH; [reflexivity |].
    destruct Hin as [Heq | Hin]; [| exact Hin].
    cbn in Heq. subst k0. rewrite String.eqb_refl in E2. discriminate E2.
Qed.

Lemma objSet_through_spread (k : string) (v : Value) (d o : Obj) :
  ~ In k (keys d) -> In k (keys o) ->
  objSet k v (objSpread d o) = objSpread d (objSet k v o).
Proof.
  unfold objSpread. revert o. induction d as [| [k' v'] d IH]; intros o Hout Hin;
    [reflexivity |].
  cbn [fold_left fst snd]. cbn [keys map fst] in Hout.
  rewrite IH.
  - rewrite objSet_commute; [reflexivity | exact Hin |].
    intros ->. apply Hout. left. reflexivity.
  - intros H. apply Hout. right. exact H.
  - apply keys_objSet. right. exact Hin.
Qed.

Lemma objSpread_objSet (k : string) (v : Value) (d a : Obj) :
  NoDup (keys d) ->
  objSpread (objSet k v d) a = objSet k v (objSpread d a).
Proof.
  revert a. induction d as [| [k0 v0] d IH]; intros a Hd; [reflexivity |].
  cbn [keys map fst] in Hd. apply NoDup_cons in Hd. destruct Hd as [Hout Hd].
  cbn [objSet]. destruct (String.eqb_spec k0 k) as [-> | Hne].
  - unfold objSpread. cbn [fold_left fst snd]. fold (objSpread d (objSet k v a)).
    fold (objSpread d (objSet k v0 a)).
    rewrite objSet_through_spread.
    + rewrite objSet_overwrite. reflexivity.
    + intros H. apply Hout, list_elem_of_In. exact H.
    + apply keys_objSet. left. reflexivity.
  - unfold objSpread. cbn [fold_left fst snd].
    fold (objSpread (objSet k v d) (objSet k0 v0 a)).
    fold (objSpread d (objSet k0 v0 a)). apply IH. exact Hd.
Qed.

Lemma objSpread_assoc (x d a : Obj) :
  NoDup (keys d) ->
  objSpread (objSpread x d) a = objSpread x (objSpread d a).
Proof.
  revert d. induction x as [| [k v] x IH]; intros d Hd; [reflexivity |].
  unfold objSpread at 2 3. cbn [fold_left fst snd].
  fold (objSpread x (objSet k v d)). fold (objSpread x (objSet k v (objSpread d a))).
  rewrite IH by (apply NoDup_keys_objSet, Hd).
  rewrite objSpread_objSet by exact Hd. reflexivity.
Qed.

Lemma setAdd_member (k : string) (s : list string) : In k s -> setAdd k s = s.
Proof. intros Hin. apply existsb_eqb_In in Hin. unfold setAdd. rewrite Hin. reflexivity. Qed.

Lemma addAll_member (k : string) (d a : list string) :
  In k d \/ In k a -> In k (fold_left (fun r n => setAdd n r) d a).
Proof.
  revert a. induction d as [| n d IH]; intros a H; cbn [fold_left].
  - destruct H as [[] | H]; exact H.
  - apply IH. destruct H as [[-> | H] | H].
    + right. apply In_setAdd. left. reflexivity.
    + left. exact H.
    + right. apply In_setAdd. right. exact H.
Qed.

Lemma addAll_setAdd (k : string) (d a : list string) :
  fold_left (fun r n => setAdd n r) (setAdd k d) a
  = setAdd k (fold_left (fun r n => setAdd n r) d a).
Proof.
  destruct (existsb (String.eqb k) d) eqn:Hk.
  - apply existsb_eqb_In in Hk. rewrite (setAdd_member k d Hk).
    symmetry. apply setAdd_member, addAll_member. left. exact Hk.
  - replace (setAdd k d) with (d ++ [k]) by (unfold setAdd; rewrite Hk; reflexivity).
    rewrite fold_left_app. reflexivity.
Qed.

Lemma addAll_assoc (x d a : list string) :
  fold_left (fun r n => setAdd n r) (fold_left (fun r n => setAdd n r) x d) a
  = fold_left (fun r n => setAdd n r) x (fold_left (fun r n => setAdd n r) d a).
Proof.
  revert d. induction x as [| n x IH]; intros d; [reflexivity |].
  cbn [fold_left]. rewrite IH, addAll_setAdd. reflexivity.
Qed.

Lemma acc_eq (a b : Acc) :
  fieldSchemas a = fieldSchemas b -> requiredFieldNames a = requiredFieldNames b -> a = b.
Proof. destruct a, b. cbn. intros -> ->. reflexivity. Qed.

Lemma distinct_set (n : string) (s : Value) (acc : Acc) :
  distinct acc -> distinct (setFieldSchema n s acc).
Proof.
  intros [Hprops Hreq]. split; [| exact Hreq]. apply NoDup_keys_objSet, Hprops.
Qed.

Lemma distinct_add (n : string) (acc : Acc) : distinct acc -> distinct (addRequired n acc).
Proof. intros [Hprops Hreq]. split; [exact Hprops |]. apply NoDup_setAdd, Hreq. Qed.

Lemma distinct_empty : distinct emptyAcc.
Proof. split; apply NoDup_nil; exact I. Qed.

Lemma local_id : local (fun acc => acc).
Proof. intros d Hd. split; [exact Hd | reflexivity]. Qed.

Lemma local_compose (g1 g2 : Acc -> Acc) :
  local g1 -> local g2 -> local (fun acc => g2 (g1 acc)).
Proof.
  intros H1 H2 d Hd. destruct (H1 d Hd) as [Hd1 Heq1].
  destruct (H2 (g1 d) Hd1) as [Hd2 Heq2]. split; [exact Hd2 |].
  intros acc. rewrite Heq1, Heq2. reflexivity.
Qed.

Lemma local_set (n : string) (s : Value) : local (setFieldSchema n s).
Proof.
  intros d Hd. split; [apply distinct_set, Hd |]. intros acc. apply acc_eq.
  - unfold mergeAcc. cbn [setFieldSchema fieldSchemas].
    rewrite !mergeChild_properties. cbn [ofAcc properties fieldSchemas].
    symmetry. apply objSpread_objSet. apply Hd.
  - unfold mergeAcc. cbn [setFieldSchema requiredFieldNames].
    rewrite !mergeChild_required. reflexivity.
Qed.

Lemma local_add (n : string) : local (addRequired n).
Proof.
  intros d Hd. split; [apply distinct_add, Hd |]. intros acc. apply acc_eq.
  - unfold mergeAcc. cbn [addRequired fieldSchemas].
    rewrite !mergeChild_properties. reflexivity.
  - unfold mergeAcc. cbn [addRequired requiredFieldNames].
    rewrite !mergeChild_required. cbn [ofAcc required_ requiredFieldNames].
    symmetry. apply addAll_setAdd.
Qed.

Lemma local_mergeChild (child : FieldsSchema) : local (mergeChild child).
Proof.
  intros d Hd. split.
  - apply (Inv_mergeChild distinct distinct_set distinct_add), Hd.
  - intros acc. apply acc_eq.
    + unfold mergeAcc. rewrite !mergeChild_properties.
      cbn [ofAcc properties]. rewrite !mergeChild_properties.
      symmetry. apply objSpread_assoc. apply Hd.
    + unfold mergeAcc. rewrite !mergeChild_required.
      cbn [ofAcc required_]. rewrite !mergeChild_required.
      symmetry. apply addAll_assoc.
Qed.

Lemma local_cases (b : bool) (g1 g2 : Acc -> Acc) :
  local g1 -> local g2 -> local (fun acc => if b then g1 acc else g2 acc).
Proof. destruct b; intros H1 H2; assumption. Qed.

Lemma mergeAcc_empty (acc : Acc) : mergeAcc emptyAcc acc = acc.
Proof. reflexivity. Qed.

Lemma local_from_empty (g : Acc -> Acc) (acc : Acc) :
  local g -> g acc = mergeAcc (g emptyAcc) acc.
Proof.
  intros Hg. destruct (Hg emptyAcc distinct_empty) as [_ Heq].
  rewrite <- Heq, mergeAcc_empty. reflexivity.
Qed.

Ltac solve_local :=
  cbn beta;
  lazymatch goal with
  | |- local (fun a => a) => apply local_id
  | |- local (fun a => setFieldSchema ?n ?s (@?g a)) =>
      apply (local_compose g (setFieldSchema n s)); [solve_local | apply local_set]
  | |- local (fun a => addRequired ?n (@?g a)) =>
      apply (local_compose g (addRequired n)); [solve_local | apply local_add]
  | |- local (fun a => mergeChild ?c (@?g a)) =>
      apply (local_compose g (mergeChild c)); [solve_local | apply local_mergeChild]
  | |- local (fun a => if ?b then @?g1 a else @?g2 a) =>
      apply (local_cases b g1 g2); solve_local
  end.

(** Closes [T acc = mergeAcc (T emptyAcc) acc] for a local [T]. *)
Ltac from_empty acc :=
  lazymatch goal with
  | |- ?l = mergeAcc ?r acc =>
      let g := eval pattern acc in l in
      lazymatch g with
      | ?g0 _ => change (g0 acc = mergeAcc (g0 emptyAcc) acc); apply local_from_empty
      end
  end.

Section Transparency.

Variable ids : IDFieldTypes.

Lemma foldM_local {A} (step : A -> Acc -> M Acc) (xs : list A) :
  (forall x acc reg, step x acc reg = handOver (step x emptyAcc reg) acc) ->
  (forall x acc reg, distinct acc -> wp (step x acc) (fun a _ => distinct a) reg) ->
  forall acc reg, foldM step xs acc reg = handOver (foldM step xs emptyAcc reg) acc.
Proof.
  intros Hstep Hdist. induction xs as [| x xs IH]; intros acc reg; [reflexivity |].
  cbn [foldM]. unfold bind. rewrite (Hstep x acc reg).
  pose proof (Hdist x emptyAcc reg distinct_empty) as Hd. unfold wp in Hd.
  destruct (step x emptyAcc reg) as [[d | e] r]; cbn [handOver]; [| reflexivity].
  rewrite (IH (mergeAcc d acc) r), (IH d r).
  destruct (foldM step xs emptyAcc r) as [[d' | e] r']; cbn [handOver]; [| reflexivity].
  f_equal. f_equal. unfold mergeAcc at 1 3.
  destruct (local_mergeChild (ofAcc d') d Hd) as [_ Heq]. apply Heq.
Qed.

Lemma tabStep_local (tab : Tab Field) (acc : Acc) (reg : Registry) :
  let step := fun (tab : Tab Field) (acc : Acc) =>
    bind (bind (foldM (fieldStep ids) (tab_fields tab) emptyAcc) (fun a => ret (ofAcc a)))
      (fun childSchema =>
         ret (if tabHasName tab then
                let tabName := propertyKey (tab_name tab) in
                let acc :=
                  setFieldSchema tabName
                    (VObj (objSpread (entries childSchema)
                             [ ("type", VStr "object");
                               ("additionalProperties", VBool false) ]))
                    acc in
                if existsb fieldIsRequired (tab_fields tab)
                then addRequired tabName acc else acc
              else mergeChild childSchema acc)) in
  step tab acc reg = handOver (step tab emptyAcc reg) acc /\
  (distinct acc -> wp (step tab acc) (fun a _ => distinct a) reg).
Proof.
  cbn zeta. unfold bind, wp, ret.
  destruct (foldM (fieldStep ids) (tab_fields tab) emptyAcc reg) as [[c | e] r];
    cbn [handOver]; [| split; [reflexivity | intros _; exact I]].
  split.
  - f_equal. f_equal. from_empty acc. solve_local.
  - intros Hacc. destruct (tabHasName tab).
    + destruct (existsb fieldIsRequired (tab_fields tab));
        [apply distinct_add |]; apply distinct_set, Hacc.
    + apply (Inv_mergeChild distinct distinct_set distinct_add), Hacc.
Qed.

Lemma fieldStep_local (f : Field) (acc : Acc) (reg : Registry) :
  fieldStep ids f acc reg = handOver (fieldStep ids f emptyAcc reg) acc.
Proof.
  destruct f as [name base kind].
  destruct kind; cbn [fieldStep]; unfold bind, ret; cbn [handOver].
  all: try (f_equal; f_equal; destruct name as [n |]; [| reflexivity];
            from_empty acc; solve_local).
  - (* richText *)
    destruct (richTextSchema ids name editor _ reg) as [[s | e] r]; cbn [handOver];
      [| reflexivity].
    f_equal. f_equal. destruct name as [n |]; [| reflexivity].
    from_empty acc. solve_local.
  - (* blocks *)
    match goal with
    | |- context [(if negb (length blocks =? 0)%nat then ?m else ?m') reg] =>
        destruct ((if negb (length blocks =? 0)%nat then m else m') reg)
          as [[options | e] r]
    end; cbn [handOver]; [| reflexivity].
    f_equal. f_equal. destruct name as [n |]; [| reflexivity].
    from_empty acc. solve_local.
  - (* array *)
    match goal with
    | |- context [foldM (fieldStep ids) ?fs emptyAcc reg] =>
        destruct (foldM (fieldStep ids) fs emptyAcc reg) as [[c | e] r]
    end; cbn [handOver]; [| reflexivity].
    destruct (liftInterface interfaceName _ r) as [[s | e] r']; cbn [handOver];
      [| reflexivity].
    f_equal. f_equal. destruct name as [n |]; [| reflexivity].
    from_empty acc. solve_local.
  - (* row *)
    match goal with
    | |- context [foldM (fieldStep ids) ?fs emptyAcc reg] =>
        destruct (foldM (fieldStep ids) fs emptyAcc reg) as [[c | e] r]
    end; cbn [handOver]; [| reflexivity].
    f_equal. f_equal. destruct name as [n |];
      cbn [fieldAffectsData field_name field_kind isLayoutKind negb andb];
      rewrite ?andb_false_r; from_empty acc; solve_local.
  - (* collapsible *)
    match goal with
    | |- context [foldM (fieldStep ids) ?fs emptyAcc reg] =>
        destruct (foldM (fieldStep ids) fs emptyAcc reg) as [[c | e] r]
    end; cbn [handOver]; [| reflexivity].
    f_equal. f_equal. destruct name as [n |];
      cbn [fieldAffectsData field_name field_kind isLayoutKind negb andb];
      rewrite ?andb_false_r; from_empty acc; solve_local.
  - (* tabs *)
    assert (Hsame : match name with
                    | Some n =>
                        if fieldAffectsData (MkField name base (KTabs tabs))
                           && fieldIsRequired (MkField name base (KTabs tabs))
                        then addRequired n acc else acc
                    | None => acc
                    end = acc) by (destruct name; reflexivity).
    assert (Hempty : match name with
                     | Some n =>
                         if fieldAffectsData (MkField name base (KTabs tabs))
                            && fieldIsRequired (MkField name base (KTabs tabs))
                         then addRequired n emptyAcc else emptyAcc
                     | None => emptyAcc
                     end = emptyAcc) by (destruct name; reflexivity).
    rewrite Hsame, Hempty.
    match goal with
    | |- context [foldM ?step tabs acc reg] =>
        rewrite (foldM_local step tabs
                   (fun x a r => proj1 (tabStep_local x a r))
                   (fun x a r => proj2 (tabStep_local x a r)) acc reg);
        destruct (foldM step tabs emptyAcc reg) as [[d | e] r]
    end; cbn [handOver]; [| reflexivity].
    f_equal. f_equal. destruct name as [n |];
      cbn [fieldAffectsData field_name field_kind isLayoutKind negb andb];
      rewrite ?andb_false_r; reflexivity.
  - (* group *)
    match goal with
    | |- context [foldM (fieldStep ids) ?fs emptyAcc reg] =>
        destruct (foldM (fieldStep ids) fs emptyAcc reg) as [[c | e] r]
    end; cbn [handOver]; [| reflexivity].
    destruct (liftInterface interfaceName _ r) as [[s | e] r']; cbn [handOver];
      [| reflexivity].
    f_equal. f_equal. destruct name as [n |]; [| reflexivity].
    from_empty acc. solve_local.
Qed.

Lemma fields_local (fields : list Field) (acc : Acc) (reg : Registry) :
  foldM (fieldStep ids) fields acc reg
  = handOver (foldM (fieldStep ids) fields emptyAcc reg) acc.
Proof.
  apply foldM_local.
  - intros f a r. apply fieldStep_local.
  - intros f a r Ha. apply (fieldStep_keeps ids distinct distinct_set distinct_add), Ha.
Qed.

(** A row or collapsible passes its fields through. *)
Lemma container_step_is_inline (name : option string) (base : Base) (kind : Kind Field)
    (fields : list Field) (acc : Acc) (reg : Registry) :
  kind = KRow fields \/ kind = KCollapsible fields ->
  fieldStep ids (MkField name base kind) acc reg = foldM (fieldStep ids) fields acc reg.
Proof.
  intros Hkind. rewrite (fields_local fields acc reg).
  destruct Hkind as [-> | ->]; cbn [fieldStep]; unfold bind, ret;
    (destruct (foldM (fieldStep ids) fields emptyAcc reg) as [[c | e] r]; cbn [handOver];
     [| reflexivity]);
    f_equal; f_equal;
    (destruct name as [n |];
     cbn [fieldAffectsData field_name field_kind isLayoutKind negb andb];
     rewrite ?andb_false_r; reflexivity).
Qed.

(** X17. A row or collapsible is transparent: deriving from a list
    that holds one gives the same properties, required names, registry
    and exception as deriving from the list with the container's
    fields put in its place. *)
Theorem rows_and_collapsibles_are_transparent
    (before after fields : list Field) (name : option string) (base : Base)
    (kind : Kind Field) (reg : Registry) :
  kind = KRow fields \/ kind = KCollapsible fields ->
  fieldsToJSONSchema ids (before ++ MkField name base kind :: after) reg
  = fieldsToJSONSchema ids (before ++ fields ++ after) reg.
Proof.
  intros Hkind. unfold fieldsToJSONSchema, bind.
  rewrite !foldM_app. unfold bind.
  destruct (foldM (fieldStep ids) before emptyAcc reg) as [[acc | e] r]; [| reflexivity].
  rewrite foldM_app. cbn [foldM]. unfold bind.
  rewrite (container_step_is_inline name base kind fields acc r Hkind). reflexivity.
Qed.

(** Unnamed tabs pass their fields through, one tab after the other. *)
Lemma unnamed_tabs_are_inline (tabs : list (Tab Field)) :
  Forall (fun tab => tab_name tab = None) tabs ->
  let step := fun (tab : Tab Field) (acc : Acc) =>
    bind (bind (foldM (fieldStep ids) (tab_fields tab) emptyAcc) (fun a => ret (ofAcc a)))
      (fun childSchema =>
         ret (if tabHasName tab then
                let tabName := propertyKey (tab_name tab) in
                let acc :=
                  setFieldSchema tabName
                    (VObj (objSpread (entries childSchema)
                             [ ("type", VStr "object");
                               ("additionalProperties", VBool false) ]))
                    acc in
                if existsb fieldIsRequired (tab_fields tab)
                then addRequired tabName acc else acc
              else mergeChild childSchema acc)) in
  forall acc reg,
    foldM step tabs acc reg
    = foldM (fieldStep ids) (concat (map tab_fields tabs)) acc reg.
Proof.
  intros Hall step. induction Hall as [| tab rest Hname _ IH]; intros acc reg;
    [reflexivity |].
  cbn [foldM map concat]. rewrite foldM_app. unfold bind at 1 2.
  rewrite (fields_local (tab_fields tab) acc reg).
  subst step. cbn beta. unfold tabHasName. rewrite Hname. unfold bind at 1 2, ret at 1 2.
  destruct (foldM (fieldStep ids) (tab_fields tab) emptyAcc reg) as [[c | e] r];
    cbn [handOver]; [| reflexivity].
  apply IH.
Qed.

Lemma tabs_step_is_inline (name : option string) (base : Base) (tabs : list (Tab Field))
    (acc : Acc) (reg : Registry) :
  Forall (fun tab => tab_name tab = None) tabs ->
  fieldStep ids (MkField name base (KTabs tabs)) acc reg
  = foldM (fieldStep ids) (concat (map tab_fields tabs)) acc reg.
Proof.
  intros Hall. cbn [fieldStep].
  assert (Hsame : match name with
                  | Some n =>
                      if fieldAffectsData (MkField name base (KTabs tabs))
                         && fieldIsRequired (MkField name base (KTabs tabs))
                      then addRequired n acc else acc
                  | None => acc
                  end = acc) by (destruct name; reflexivity).
  rewrite Hsame.
  match goal with
  | |- context [foldM ?step tabs acc] => set (tabStep := step)
  end.
  transitivity (foldM tabStep tabs acc reg);
    [| exact (unnamed_tabs_are_inline tabs Hall acc reg)].
  unfold bind, ret.
  destruct (foldM tabStep tabs acc reg) as [[d | e] r]; [| reflexivity].
  f_equal. f_equal. destruct name as [n |];
    cbn [fieldAffectsData field_name field_kind isLayoutKind negb andb];
    rewrite ?andb_false_r; reflexivity.
Qed.

(** X29. A tabs field whose tabs are all unnamed is transparent:
    deriving from a list that holds one gives the same properties,
    required names, registry and exception as deriving from the list
    with the fields of its tabs, in tab order, put in its place. *)
Theorem unnamed_tabs_are_transparent
    (before after : list Field) (name : option string) (base : Base)
    (tabs : list (Tab Field)) (reg : Registry) :
  Forall (fun tab => tab_name tab = None) tabs ->
  fieldsToJSONSchema ids (before ++ MkField name base (KTabs tabs) :: after) reg
  = fieldsToJSONSchema ids (before ++ concat (map tab_fields tabs) ++ after) reg.
Proof.
  intros Hall. unfold fieldsToJSONSchema, bind.
  rewrite !foldM_app. unfold bind.
  destruct (foldM (fieldStep ids) before emptyAcc reg) as [[acc | e] r]; [| reflexivity].
  rewrite foldM_app. cbn [foldM]. unfold bind.
  rewrite (tabs_step_is_inline name base tabs acc r Hall). reflexivity.
Qed.

End Transparency.

(** *** Required names and properties *)

Lemma addAll_In (k : string) (d a : list string) :
  In k (fold_left (fun r n => setAdd n r) d a) <-> In k d \/ In k a.
Proof.
  revert a. induction d as [| n d IH]; intros a; cbn [fold_left].
  - split; [intros H; right; exact H | intros [[] | H]; exact H].
  - rewrite IH, In_setAdd. cbn [In]. intuition congruence.
Qed.

Lemma covered_set (n : string) (s : Value) (acc : Acc) :
  covered acc -> covered (setFieldSchema n s acc).
Proof.
  intros Hacc m Hm. cbn [setFieldSchema fieldSchemas requiredFieldNames] in *.
  apply keys_objSet. right. apply Hacc, Hm.
Qed.

Lemma covered_set_add (n : string) (s : Value) (acc : Acc) :
  covered acc -> covered (setFieldSchema n s (addRequired n acc)).
Proof.
  intros Hacc m Hm.
  cbn [setFieldSchema addRequired fieldSchemas requiredFieldNames] in *.
  apply keys_objSet. apply In_setAdd in Hm.
  destruct Hm as [-> | Hm]; [left; reflexivity | right; apply Hacc, Hm].
Qed.

Lemma covered_add_set (n : string) (s : Value) (acc : Acc) :
  covered acc -> covered (addRequired n (setFieldSchema n s acc)).
Proof.
  intros Hacc m Hm.
  cbn [setFieldSchema addRequired fieldSchemas requiredFieldNames] in *.
  apply keys_objSet. apply In_setAdd in Hm.
  destruct Hm as [-> | Hm]; [left; reflexivity | right; apply Hacc, Hm].
Qed.

Lemma covered_mergeChild (child : FieldsSchema) (acc : Acc) :
  (forall n, In n (required_ child) -> In n (keys (properties child))) ->
  covered acc -> covered (mergeChild child acc).
Proof.
  intros Hchild Hacc n Hn. rewrite mergeChild_required in Hn.
  rewrite mergeChild_properties. apply keys_objSpread. apply addAll_In in Hn.
  destruct Hn as [Hn | Hn]; [left; apply Hchild, Hn | right; apply Hacc, Hn].
Qed.

Lemma leafSchema_truthy (ids : IDFieldTypes) (kind : Kind Field) (isRequired : bool)
    (s : Value) :
  leafSchema ids kind isRequired = Some s -> truthy s = true.
Proof.
  destruct kind; cbn [leafSchema]; intros H; try discriminate H;
    injection H as <-; try reflexivity;
    try (destruct hasMany; reflexivity).
  - destruct (truthy schema) eqn:Hs; [exact Hs | reflexivity].
  - destruct relationTo, hasMany; reflexivity.
  - destruct relationTo, hasMany; reflexivity.
Qed.

Section Covered.

Variable ids : IDFieldTypes.

Lemma covered_fieldsToJSONSchema (fs : list Field) :
  Forall (fun f => plainlyTyped f = true ->
                   forall acc reg, covered acc ->
                     wp (fieldStep ids f acc) (fun acc' _ => covered acc') reg) fs ->
  forallb plainlyTyped fs = true ->
  forall reg,
    wp (fieldsToJSONSchema ids fs)
      (fun out _ => forall n, In n (required_ out) -> In n (keys (properties out))) reg.
Proof.
  intros Hall Hplain reg. unfold fieldsToJSONSchema. apply wp_bind.
  rewrite forallb_forall in Hplain. rewrite List.Forall_forall in Hall.
  eapply wp_mono.
  - apply (wp_foldM (fieldStep ids) (fun _ acc _ => covered acc)).
    + intros pre x acc s [post Hsplit] Hacc.
      assert (Hin : In x fs). { rewrite Hsplit. apply in_elt. }
      apply (Hall x Hin (Hplain x Hin)), Hacc.
    + intros n [].
  - intros acc s Hacc. apply wp_ret. exact Hacc.
Qed.

Lemma covered_fieldStep (f : Field) :
  plainlyTyped f = true ->
  forall acc reg, covered acc -> wp (fieldStep ids f acc) (fun acc' _ => covered acc') reg.
Proof.
  induction f as [name base kind IH] using Field_nested_ind.
  intros Hplain acc reg Hacc. cbn [plainlyTyped] in Hplain.
  apply andb_true_iff in Hplain. destruct Hplain as [Hts Hkind].
  destruct (typescriptSchema base) as [| override overrides] eqn:Hbase;
    [clear Hts | discriminate Hts].
  (* the accumulator once a truthy schema has come out of the switch *)
  assert (Hdone : forall s, truthy s = true ->
            covered (match name with
                     | Some n =>
                         if truthy s && fieldAffectsData (MkField name base kind)
                         then setFieldSchema n s
                                (match name with
                                 | Some n =>
                                     if fieldAffectsData (MkField name base kind)
                                        && fieldIsRequired (MkField name base kind)
                                     then addRequired n acc else acc
                                 | None => acc
                                 end)
                         else match name with
                              | Some n =>
                                  if fieldAffectsData (MkField name base kind)
                                     && fieldIsRequired (MkField name base kind)
                                  then addRequired n acc else acc
                              | None => acc
                              end
                     | None =>
                         match name with
                         | Some n =>
                             if fieldAffectsData (MkField name base kind)
                                && fieldIsRequired (MkField name base kind)
                             then addRequired n acc else acc
                         | None => acc
                         end
                     end)).
  { intros s Hs. destruct name as [n |]; [| exact Hacc]. rewrite Hs. cbn [andb].
    destruct (fieldAffectsData (MkField (Some n) base kind)); cbn [andb]; [| exact Hacc].
    destruct (fieldIsRequired (MkField (Some n) base kind));
      [apply covered_set_add | apply covered_set]; exact Hacc. }
  destruct kind; cbn [fieldStep]; rewrite Hbase; cbn [fold_left nestedAll] in *;
    try discriminate Hkind;
    try (lazy beta iota zeta delta [wp bind ret]; apply Hdone;
         match goal with
         | |- truthy match leafSchema ?i ?k ?r with _ => _ end = true =>
             destruct (leafSchema i k r) as [s |] eqn:Hleaf;
             [exact (leafSchema_truthy _ _ _ _ Hleaf) | cbn in Hleaf; discriminate Hleaf]
         end).
  - (* richText *)
    destruct editor as [| | [outputSchema |]]; try discriminate Hkind;
      cbn [richTextSchema]; lazy beta iota zeta delta [wp bind ret throw];
      try exact I.
    apply Hdone. reflexivity.
  - (* blocks *)
    apply wp_bind, wp_bind, wp_any. intros options reg1.
    lazy beta iota zeta delta [wp bind ret]. apply Hdone. reflexivity.
  - (* array *)
    apply wp_bind, wp_bind, wp_any. intros child reg1.
    unfold liftInterface.
    destruct interfaceName as [m |]; [destruct (truthyStr m) |];
      lazy beta iota zeta delta [wp bind ret registrySet]; apply Hdone; reflexivity.
  - (* row *)
    apply wp_bind, wp_bind.
    eapply wp_mono; [apply (covered_fieldsToJSONSchema _ IH Hkind) |].
    intros child reg1 Hchild. lazy beta iota zeta delta [wp bind ret].
    destruct name as [n |]; cbn [fieldAffectsData field_name field_kind isLayoutKind
                                  negb andb]; rewrite ?andb_false_r;
      apply covered_mergeChild; assumption.
  - (* collapsible *)
    apply wp_bind, wp_bind.
    eapply wp_mono; [apply (covered_fieldsToJSONSchema _ IH Hkind) |].
    intros child reg1 Hchild. lazy beta iota zeta delta [wp bind ret].
    destruct name as [n |]; cbn [fieldAffectsData field_name field_kind isLayoutKind
                                  negb andb]; rewrite ?andb_false_r;
      apply covered_mergeChild; assumption.
  - (* tabs *)
    assert (Hsame : match name with
                    | Some n =>
                        if fieldAffectsData (MkField name base (KTabs tabs))
                           && fieldIsRequired (MkField name base (KTabs tabs))
                        then addRequired n acc else acc
                    | None => acc
                    end = acc) by (destruct name; reflexivity).
    rewrite Hsame. apply wp_bind, wp_bind.
    rewrite forallb_forall in Hkind. rewrite List.Forall_forall in IH.
    eapply wp_mono.
    + apply (wp_foldM _ (fun _ a _ => covered a)); [| exact Hacc].
      intros pre tab acc0 s [post Hsplit] Hacc0.
      assert (Hin : In tab tabs). { rewrite Hsplit. apply in_elt. }
      specialize (IH tab Hin). specialize (Hkind tab Hin). cbn beta in Hkind.
      apply wp_bind. unfold tabHasName.
      destruct (tab_name tab) as [t |].
      * apply wp_any. intros child reg1. lazy beta iota zeta delta [wp ret].
        cbn [propertyKey default].
        destruct (existsb fieldIsRequired (tab_fields tab));
          [apply covered_add_set | apply covered_set]; exact Hacc0.
      * eapply wp_mono; [apply (covered_fieldsToJSONSchema _ IH Hkind) |].
        intros child reg1 Hchild. lazy beta iota zeta delta [wp ret].
        apply covered_mergeChild; assumption.
    + intros acc0 reg0 Hacc0. lazy beta iota zeta delta [wp bind ret].
      destruct name as [n |]; cbn [fieldAffectsData field_name field_kind isLayoutKind
                                    negb andb]; rewrite ?andb_false_r; exact Hacc0.
  - (* group *)
    apply wp_bind, wp_bind, wp_any. intros child reg1.
    unfold liftInterface.
    destruct interfaceName as [m |]; [destruct (truthyStr m) |];
      lazy beta iota zeta delta [wp bind ret registrySet]; apply Hdone; reflexivity.
  - (* ui *)
    lazy beta iota zeta delta [wp bind ret].
    destruct name as [n |]; cbn [fieldAffectsData field_name field_kind isLayoutKind
                                  negb andb truthy]; exact Hacc.
Qed.

(** X30. When no field that contributes to this level (the fields
    of the list and those inside rows, collapsibles and unnamed tabs)
    has [typescriptSchema] overrides, an unknown type or a rich-text
    editor with its own [outputSchema], every name of the returned
    [required] is a key of the returned [properties]. *)
Theorem required_names_have_properties
    (fs : list Field) (reg reg' : Registry) (out : FieldsSchema) :
  forallb plainlyTyped fs = true ->
  fieldsToJSONSchema ids fs reg = (Normal out, reg') ->
  forall n, In n (required_ out) -> In n (keys (properties out)).
Proof.
  intros Hplain Hrun.
  refine (wp_run _ _ _ _ _ (covered_fieldsToJSONSchema fs _ Hplain reg) Hrun).
  apply Forall_forall. intros f _. apply covered_fieldStep.
Qed.

End Covered.

(** *** Entities *)

Lemma find_requireFirst (p : Field -> bool) (fs : list Field) (c : Field) :
  List.find p fs = Some c -> In (withRequired c) (requireFirst p fs).
Proof.
  induction fs as [| f rest IH]; cbn [List.find requireFirst]; [discriminate |].
  destruct (p f).
  - intros H. injection H as ->. left. reflexivity.
  - intros H. right. apply IH, H.
Qed.

Lemma find_holds {A} (p : A -> bool) (xs : list A) (x : A) :
  List.find p xs = Some x -> p x = true.
Proof. intros H. apply find_some in H. apply H. Qed.

Lemma hasName_name (n : string) (f : Field) : hasName n f = true -> field_name f = Some n.
Proof.
  unfold hasName. destruct (field_name f) as [m |]; [| discriminate].
  intros H. apply String.eqb_eq in H. subst m. reflexivity.
Qed.

(** The prepared fields hold a required field named [id], unless a
    custom one sits behind a condition. *)
Lemma prepared_fields_require_id (defaultIDType : option IDType) (e : Entity) :
  (forall c, List.find isIDField (fields e) = Some c -> notGroupOrTab c = true ->
             condition (field_base c) = false) ->
  exists f, In f (preparedFields defaultIDType e) /\
            field_name f = Some "id" /\
            fieldAffectsData f = true /\
            fieldIsRequired f = true.
Proof.
  intros Hcond. unfold preparedFields.
  set (idField := MkField (Some "id") (mkBase true false []) (idKind defaultIDType)).
  set (withID := match List.find isIDField (fields e) with
                 | Some customIdField =>
                     if notGroupOrTab customIdField then requireFirst isIDField (fields e)
                     else idField :: fields e
                 | None => idField :: fields e
                 end).
  assert (Hid : field_name idField = Some "id" /\ fieldAffectsData idField = true /\
                fieldIsRequired idField = true).
  { subst idField. destruct defaultIDType as [[] |]; repeat split. }
  assert (HwithID : exists f, In f withID /\ field_name f = Some "id" /\
                              fieldAffectsData f = true /\ fieldIsRequired f = true).
  { subst withID. destruct (List.find isIDField (fields e)) as [c |] eqn:Hfind;
      [destruct (notGroupOrTab c) eqn:Hkind |];
      try (exists idField; split; [left; reflexivity | exact Hid]).
    exists (withRequired c). split; [apply find_requireFirst, Hfind |].
    pose proof (find_holds _ _ _ Hfind) as Hc. unfold isIDField in Hc.
    apply andb_true_iff in Hc. destruct Hc as [Hdata Hname].
    apply hasName_name in Hname. specialize (Hcond c eq_refl Hkind).
    destruct c as [name base kind]. cbn [field_name field_base] in *. subst name.
    cbn [withRequired field_name]. split; [reflexivity |]. split; [exact Hdata |].
    cbn [fieldIsRequired condition required]. rewrite Hcond.
    change (fieldAffectsData (MkField (Some "id") _ kind))
      with (fieldAffectsData (MkField (Some "id") base kind)).
    rewrite Hdata. reflexivity. }
  destruct HwithID as [f [Hin [Hname [Hdata Hreq]]]].
  exists f. split; [| repeat split; assumption].
  assert (Htime : In f (match timestamps e with
                        | Some true => requireTimestamps withID
                        | _ => withID
                        end)).
  { destruct (timestamps e) as [[|] |]; try exact Hin.
    unfold requireTimestamps. apply in_map_iff. exists f. split; [| exact Hin].
    unfold hasName. rewrite Hname. cbn. rewrite andb_false_r. reflexivity. }
  destruct (auth e) as [a |]; [destruct (negb (disableLocalStrategy a)) |];
    try exact Htime.
  apply in_or_app. left. exact Htime.
Qed.

Lemma In_requireFirst (p : Field -> bool) (fs : list Field) (f : Field) :
  In f fs -> p f = false -> In f (requireFirst p fs).
Proof.
  intros Hin Hp. induction fs as [| g rest IH]; [destruct Hin |].
  cbn [requireFirst]. destruct Hin as [-> | Hin].
  - rewrite Hp. left. reflexivity.
  - destruct (p g); right; [exact Hin | apply IH, Hin].
Qed.

(** The prepared fields hold, required, a timestamp field of an entity
    with timestamps. *)
Lemma prepared_fields_require_timestamp (defaultIDType : option IDType) (e : Entity)
    (f : Field) (n : string) :
  timestamps e = Some true ->
  In f (fields e) ->
  field_name f = Some n ->
  n = "createdAt" \/ n = "updatedAt" ->
  fieldAffectsData f = true ->
  condition (field_base f) = false ->
  exists g, In g (preparedFields defaultIDType e) /\
            field_name g = Some n /\
            fieldAffectsData g = true /\
            fieldIsRequired g = true.
Proof.
  intros Htime Hin Hname Hn Hdata Hcond. unfold preparedFields. rewrite Htime.
  set (idField := MkField (Some "id") (mkBase true false []) (idKind defaultIDType)).
  set (withID := match List.find isIDField (fields e) with
                 | Some customIdField =>
                     if notGroupOrTab customIdField then requireFirst isIDField (fields e)
                     else idField :: fields e
                 | None => idField :: fields e
                 end).
  assert (Hstamp : hasName "createdAt" f || hasName "updatedAt" f = true).
  { unfold hasName. rewrite Hname. destruct Hn as [-> | ->]; reflexivity. }
  assert (Hnotid : isIDField f = false).
  { unfold isIDField, hasName. rewrite Hname. destruct Hn as [-> | ->]; apply andb_false_r. }
  assert (HwithID : In f withID).
  { subst withID. destruct (List.find isIDField (fields e)) as [c |];
      [destruct (notGroupOrTab c) |]; try (right; exact Hin).
    apply In_requireFirst; assumption. }
  exists (withRequired f). split.
  - assert (Hmapped : In (withRequired f) (requireTimestamps withID)).
    { unfold requireTimestamps. apply in_map_iff. exists f. split; [| exact HwithID].
      rewrite Hdata, Hstamp. reflexivity. }
    destruct (auth e) as [a |]; [destruct (negb (disableLocalStrategy a)) |];
      try exact Hmapped.
    apply in_or_app. left. exact Hmapped.
  - destruct f as [name base kind]. cbn [field_name field_base withRequired] in *.
    split; [exact Hname |]. split; [exact Hdata |].
    cbn [fieldIsRequired condition required]. rewrite Hcond.
    change (fieldAffectsData (MkField name _ kind))
      with (fieldAffectsData (MkField name base kind)).
    rewrite Hdata. reflexivity.
Qed.

Section Entities.

Variable singular : string -> string.
Variable toWords : string -> bool -> string.
Variable getCollectionIDFieldTypes : list Entity -> option IDType -> IDFieldTypes.

Local Abbreviation entityToJSONSchema :=
  (Schema.entityToJSONSchema singular toWords getCollectionIDFieldTypes).
Local Abbreviation configToJSONSchema :=
  (Schema.configToJSONSchema singular toWords getCollectionIDFieldTypes).

(** What a returning [entityToJSONSchema] was derived from. *)
Lemma entity_schema_parts (config : Config) (l : nat) (defaultIDType : option IDType)
    (ids : IDFieldTypes) (w w' : World) (e : Entity) (jsonSchema : Value) :
  heap w !! l = Some e ->
  entityToJSONSchema config l defaultIDType (Some ids) w = (Normal jsonSchema, w') ->
  exists out reg',
    fieldsToJSONSchema ids (preparedFields defaultIDType e) (registry w)
    = (Normal out, reg') /\
    jsonSchema
    = VObj [ ("type", VStr "object");
             ("additionalProperties", VBool false);
             ("title",
               VStr match typescriptInterface e with
                    | Some i => if truthyStr i then i else singular (toWords (slug e) true)
                    | None => singular (toWords (slug e) true)
                    end);
             ("properties", VObj (properties out));
             ("required", strings (required_ out)) ].
Proof.
  intros He Hrun.
  rewrite (entityToJSONSchema_closed singular toWords getCollectionIDFieldTypes
             config l defaultIDType ids w e He) in Hrun.
  cbn zeta in Hrun.
  destruct (fieldsToJSONSchema ids (preparedFields defaultIDType e) (registry w))
    as [[out | ex] reg']; [| discriminate Hrun].
  injection Hrun as <- _. exists out, reg'. split; reflexivity.
Qed.

(** X18. The schema [entityToJSONSchema] returns is an object
    schema titled by the entity's [typescriptInterface] or else its
    singularized slug; [id] is among its required names (unless a
    custom id field sits behind a condition), and no required name
    occurs twice. *)
Theorem entity_schema_requires_id
    (config : Config) (l : nat) (defaultIDType : option IDType) (ids : IDFieldTypes)
    (w w' : World) (e : Entity) (jsonSchema : Value) :
  heap w !! l = Some e ->
  (forall c, List.find isIDField (fields e) = Some c -> notGroupOrTab c = true ->
             condition (field_base c) = false) ->
  entityToJSONSchema config l defaultIDType (Some ids) w = (Normal jsonSchema, w') ->
  exists props names,
    jsonSchema
    = VObj [ ("type", VStr "object");
             ("additionalProperties", VBool false);
             ("title",
               VStr match typescriptInterface e with
                    | Some i => if truthyStr i then i else singular (toWords (slug e) true)
                    | None => singular (toWords (slug e) true)
                    end);
             ("properties", VObj props);
             ("required", strings names) ] /\
    In "id" names /\ NoDup names.
Proof.
  intros He Hcond Hrun.
  destruct (entity_schema_parts config l defaultIDType ids w w' e jsonSchema He Hrun)
    as [out [reg' [Hfields ->]]].
  exists (properties out), (required_ out). split; [reflexivity |]. split.
  - destruct (prepared_fields_require_id defaultIDType e Hcond)
      as [f [Hin [Hname [Hdata Hreq]]]].
    exact (listed_when_required ids _ f "id" _ _ out Hin Hname Hdata Hreq Hfields).
  - apply (distinct_when_returned ids _ _ _ _ Hfields).
Qed.

(** X19. For an entity with [timestamps], a top-level [createdAt]
    or [updatedAt] field that affects data and has no condition is
    among the required names of the entity's schema, whether or not
    the config marks it required. *)
Theorem entity_schema_requires_timestamps
    (config : Config) (l : nat) (defaultIDType : option IDType) (ids : IDFieldTypes)
    (w w' : World) (e : Entity) (f : Field) (n : string) (jsonSchema : Value) :
  heap w !! l = Some e ->
  timestamps e = Some true ->
  In f (fields e) ->
  field_name f = Some n ->
  n = "createdAt" \/ n = "updatedAt" ->
  fieldAffectsData f = true ->
  condition (field_base f) = false ->
  entityToJSONSchema config l defaultIDType (Some ids) w = (Normal jsonSchema, w') ->
  exists props names,
    jsonSchema
    = VObj [ ("type", VStr "object");
             ("additionalProperties", VBool false);
             ("title",
               VStr match typescriptInterface e with
                    | Some i => if truthyStr i then i else singular (toWords (slug e) true)
                    | None => singular (toWords (slug e) true)
                    end);
             ("properties", VObj props);
             ("required", strings names) ] /\
    In n names.
Proof.
  intros He Htime Hin Hname Hn Hdata Hcond Hrun.
  destruct (entity_schema_parts config l defaultIDType ids w w' e jsonSchema He Hrun)
    as [out [reg' [Hfields ->]]].
  exists (properties out), (required_ out). split; [reflexivity |].
  destruct (prepared_fields_require_timestamp defaultIDType e f n Htime Hin Hname Hn
              Hdata Hcond) as [g [Hg [Hgname [Hgdata Hgreq]]]].
  exact (listed_when_required ids _ g n _ _ out Hg Hgname Hgdata Hgreq Hfields).
Qed.

(** X20. The schema of an auth collection that keeps the local
    strategy has a [password] property of type string or null: the
    field derivation adds last, which replaces a [password] property
    derived from the config's own fields. *)
Theorem auth_collection_schema_has_password
    (config : Config) (l : nat) (defaultIDType : option IDType) (ids : IDFieldTypes)
    (w w' : World) (e : Entity) (a : Auth) (jsonSchema : Value) :
  heap w !! l = Some e ->
  auth e = Some a ->
  disableLocalStrategy a = false ->
  entityToJSONSchema config l defaultIDType (Some ids) w = (Normal jsonSchema, w') ->
  exists props names,
    jsonSchema
    = VObj [ ("type", VStr "object");
             ("additionalProperties", VBool false);
             ("title",
               VStr match typescriptInterface e with
                    | Some i => if truthyStr i then i else singular (toWords (slug e) true)
                    | None => singular (toWords (slug e) true)
                    end);
             ("properties", VObj props);
             ("required", strings names) ] /\
    objGet "password" props = Some (VObj [("type", VArr [VStr "string"; VStr "null"])]).
Proof.
  intros He Hauth Hlocal Hrun.
  destruct (entity_schema_parts config l defaultIDType ids w w' e jsonSchema He Hrun)
    as [out [reg' [Hfields ->]]].
  exists (properties out), (required_ out). split; [reflexivity |].
  unfold preparedFields in Hfields. rewrite Hauth, Hlocal in Hfields.
  cbn [negb] in Hfields. unfold fieldsToJSONSchema, bind in Hfields.
  rewrite foldM_app in Hfields. unfold bind in Hfields.
  match type of Hfields with
  | context [foldM (fieldStep ids) ?fs emptyAcc (registry w)] =>
      destruct (foldM (fieldStep ids) fs emptyAcc (registry w)) as [[acc | ex] reg1]
  end; [| discriminate Hfields].
  cbn in Hfields. injection Hfields as <- _.
  cbn [properties]. apply objGet_objSet_eq.
Qed.

(** X21. When the derivation of a config without config-level
    schema transforms returns, the top-level [definitions] hold a key
    for the slug of every collection and global, and the key [auth]. *)
Theorem every_entity_has_a_definition
    (config : Config) (defaultIDType : option IDType) (h h' : gmap nat Entity)
    (l : nat) (e : Entity) (jsonSchema : Value) :
  typescriptSchema_ config = [] ->
  In l (globals config ++ collections config) ->
  h !! l = Some e ->
  configToJSONSchema config defaultIDType h = (Normal jsonSchema, h') ->
  exists definitions,
    definitionsOf jsonSchema = Some definitions /\
    is_Some (objGet (slug e) definitions) /\
    is_Some (objGet "auth" definitions).
Proof.
  intros Hts Hl He Hrun. unfold Schema.configToJSONSchema in Hrun.
  cut (wp (configToJSONSchemaBody singular toWords getCollectionIDFieldTypes config
             defaultIDType)
          (fun out _ => exists definitions,
               definitionsOf out = Some definitions /\
               is_Some (objGet (slug e) definitions) /\
               is_Some (objGet "auth" definitions))
          (mkWorld h [])).
  { unfold wp.
    destruct (configToJSONSchemaBody singular toWords getCollectionIDFieldTypes config
                defaultIDType (mkWorld h [])) as [[out | ex] w'];
      [| discriminate Hrun].
    injection Hrun as <- _. intros H. exact H. }
  unfold configToJSONSchemaBody.
  apply wp_mapM_readEntity. intros cols0.
  set (ids := getCollectionIDFieldTypes cols0 defaultIDType).
  apply wp_bind.
  eapply wp_mono.
  - apply (wp_foldM _ (fun (pre : list nat) (acc : Obj) (w : World) =>
                         heap w !! l = Some e /\ (In l pre -> In (slug e) (keys acc)))).
    + intros pre x acc w _ [Hheap Hkey].
      apply wp_bind. unfold wp at 1, readEntity.
      destruct (heap w !! x) as [ex |] eqn:Hx; [| exact I].
      apply wp_bind. unfold wp at 1.
      rewrite (entityToJSONSchema_closed singular toWords getCollectionIDFieldTypes
                 config x defaultIDType ids w ex Hx). cbn zeta.
      destruct (fieldsToJSONSchema ids (preparedFields defaultIDType ex) (registry w))
        as [[schema | ex'] reg]; [| exact I].
      apply wp_ret. split; cbn [heap registry].
      * rewrite lookup_insert_fresh; [exact Hheap | rewrite Hheap; eexists; reflexivity].
      * intros Hin. apply keys_objSet. apply in_app_or in Hin.
        destruct Hin as [Hpre | [-> | []]]; [right; apply Hkey, Hpre |].
        left. congruence.
    + split; [exact He | intros []].
  - intros entityDefinitions w [_ Hkey]. specialize (Hkey Hl). cbn beta.
    apply wp_mapM_readEntity. intros cols.
    apply wp_mapM_readEntity. intros globs.
    apply wp_bind, wp_any. intros jobsSchemas w1.
    apply wp_bind. unfold wp at 1. apply wp_ret.
    rewrite Hts. cbn [fold_left definitionsOf objGet String.eqb Ascii.eqb Bool.eqb].
    eexists. split; [reflexivity |].
    split; apply objGet_is_Some;
      (destruct jobsSchemas as [j |]; [apply keys_objSpread; right |]);
      apply keys_objSpread.
    + right. apply keys_objSpread. right. apply keys_objSpread. left. exact Hkey.
    + right. apply keys_objSpread. right. apply keys_objSpread. left. exact Hkey.
    + left. left. reflexivity.
    + left. left. reflexivity.
Qed.

End Entities.

(** *** The top-level property schemas *)

Lemma entity_refs_get (entities : list Entity) (acc : Obj) (k : string) :
  objGet k acc = Some (ref k) ->
  objGet k (fold_left (fun acc e => objSet (slug e) (ref (slug e)) acc) entities acc)
  = Some (ref k).
Proof.
  revert acc. induction entities as [| e rest IH]; intros acc Hacc; [exact Hacc |].
  cbn [fold_left]. apply IH. destruct (String.eqb_spec k (slug e)) as [-> | Hne].
  - apply objGet_objSet_eq.
  - rewrite objGet_objSet_ne by exact Hne. exact Hacc.
Qed.

Lemma entity_refs_keys (entities : list Entity) (acc : Obj) (k : string) :
  In k (keys (fold_left (fun acc e => objSet (slug e) (ref (slug e)) acc) entities acc))
  <-> In k (keys acc) \/ exists e, In e entities /\ slug e = k.
Proof.
  revert acc. induction entities as [| e rest IH]; intros acc; cbn [fold_left].
  - split; [intros H; left; exact H | intros [H | [e [[] _]]]; exact H].
  - rewrite IH. unfold keys at 1. rewrite keys_objSet. fold (keys acc). split.
    + intros [[-> | H] | [e' [Hin Hslug]]].
      * right. exists e. split; [left; reflexivity | reflexivity].
      * left. exact H.
      * right. exists e'. split; [right; exact Hin | exact Hslug].
    + intros [H | [e' [[-> | Hin] Hslug]]].
      * left. right. exact H.
      * left. left. symmetry. exact Hslug.
      * right. exists e'. split; assumption.
Qed.

Lemma entity_refs_distinct (entities : list Entity) (acc : Obj) :
  NoDup (keys acc) ->
  NoDup (keys (fold_left (fun acc e => objSet (slug e) (ref (slug e)) acc) entities acc)).
Proof.
  revert acc. induction entities as [| e rest IH]; intros acc Hacc; [exact Hacc |].
  cbn [fold_left]. apply IH, NoDup_keys_objSet, Hacc.
Qed.

(** X22. [generateEntitySchemas] gives an object schema whose
    properties are exactly the slugs of the entities, each one the
    reference [#/definitions/<slug>], and whose [required] lists every
    slug once. *)
Theorem entity_schemas_list_every_slug_once (entities : list Entity) :
  exists props,
    generateEntitySchemas entities
    = VObj [ ("type", VStr "object");
             ("additionalProperties", VBool false);
             ("properties", VObj props);
             ("required", strings (keys props)) ] /\
    NoDup (keys props) /\
    (forall k, In k (keys props) <-> exists e, In e entities /\ slug e = k) /\
    (forall e, In e entities -> objGet (slug e) props = Some (ref (slug e))).
Proof.
  eexists. split; [reflexivity |]. split; [| split].
  - apply entity_refs_distinct, NoDup_nil. exact I.
  - intros k. rewrite entity_refs_keys. split.
    + intros [[] | H]. exact H.
    + intros H. right. exact H.
  - intros e Hin. apply in_split in Hin. destruct Hin as [pre [post ->]].
    rewrite fold_left_app. cbn [fold_left]. apply entity_refs_get, objGet_objSet_eq.
Qed.

Lemma auth_refs_keys (collections : list Entity) (acc : Obj) (k : string) :
  In k (keys (fold_left
                (fun acc collection =>
                   if hasAuth collection
                   then objSet (slug collection)
                          (VObj [("$ref",
                                  VStr ("#/definitions/auth/" +:+ slug collection))]) acc
                   else acc) collections acc))
  <-> In k (keys acc) \/ exists c, In c collections /\ hasAuth c = true /\ slug c = k.
Proof.
  revert acc. induction collections as [| c rest IH]; intros acc; cbn [fold_left].
  - split; [intros H; left; exact H | intros [H | [c [[] _]]]; exact H].
  - rewrite IH. destruct (hasAuth c) eqn:Hauth.
    + unfold keys at 1. rewrite keys_objSet. fold (keys acc). split.
      * intros [[-> | H] | [c' [Hin Hrest]]].
        -- right. exists c. split; [left; reflexivity | split; [exact Hauth | reflexivity]].
        -- left. exact H.
        -- right. exists c'. split; [right; exact Hin | exact Hrest].
      * intros [H | [c' [[-> | Hin] [Hauth' Hslug]]]].
        -- left. right. exact H.
        -- left. left. symmetry. exact Hslug.
        -- right. exists c'. split; [exact Hin | split; assumption].
    + split.
      * intros [H | [c' [Hin Hrest]]]; [left; exact H |].
        right. exists c'. split; [right; exact Hin | exact Hrest].
      * intros [H | [c' [[-> | Hin] [Hauth' Hslug]]]]; [left; exact H | congruence |].
        right. exists c'. split; [exact Hin | split; assumption].
Qed.

(** X23. [generateAuthOperationSchemas] lists, as property and as
    required name, the slug of every collection with auth and of no
    other collection. *)
Theorem auth_operations_are_listed_for_auth_collections_only (collections : list Entity) :
  exists props,
    generateAuthOperationSchemas collections
    = VObj [ ("type", VStr "object");
             ("additionalProperties", VBool false);
             ("properties", VObj props);
             ("required", strings (keys props)) ] /\
    (forall k, In k (keys props)
               <-> exists c, In c collections /\ hasAuth c = true /\ slug c = k).
Proof.
  eexists. split; [reflexivity |].
  intros k. rewrite auth_refs_keys. split.
  - intros [[] | H]. exact H.
  - intros H. right. exact H.
Qed.

(** X24. Whatever the [loginWithUsername] settings, each
    schema [generateAuthFieldTypes] builds (or each alternative of its
    [oneOf]) requires only fields it declares as properties. *)
Theorem auth_operations_require_only_declared_fields
    (loginWithUsername : option LoginWithUsername) (operation : AuthOperation) :
  requiresDeclaredInEach (generateAuthFieldTypes loginWithUsername operation) = true.
Proof.
  destruct loginWithUsername as [[allowEmail needEmail needUsername] |];
    [destruct operation, allowEmail, needEmail, needUsername | destruct operation];
    reflexivity.
Qed.

Section Jobs.

Variable ids : IDFieldTypes.

(** X25. With workflows configured and [tasks] undefined,
    [generateJobsSchemas] throws a TypeError once the input schema of
    the first workflow has been derived: the workflows' [required] is
    computed from the tasks. *)
Theorem workflows_without_tasks_throw
    (jobsConfig : JobsConfig) (workflow : Workflow) (rest : list Workflow)
    (reg : Registry) :
  tasks jobsConfig = None ->
  workflows jobsConfig = Some (workflow :: rest) ->
  firstFault editorFault (workflow_inputSchema workflow) = None ->
  exists what, fst (generateJobsSchemas jobsConfig ids reg) = Abrupt (TypeError what).
Proof.
  intros Htasks Hflows Hfault. unfold generateJobsSchemas.
  rewrite Htasks, Hflows. cbn [nonEmpty length Nat.eqb negb foldM].
  unfold bind, ret, throw.
  destruct (nonEmpty (workflow_inputSchema workflow)).
  - pose proof (fieldsToJSONSchema_endsAs ids (workflow_inputSchema workflow)
                  (proj2 (Forall_forall _ _) (fun f _ => fieldStep_endsAs ids f)) reg)
      as Hends.
    rewrite Hfault in Hends. destruct Hends as [schema Hschema].
    destruct (fieldsToJSONSchema ids (workflow_inputSchema workflow) reg) as [c reg1].
    cbn [fst] in Hschema. subst c. eexists. reflexivity.
  - eexists. reflexivity.
Qed.

(** X26. With tasks and at least one workflow configured, the
    [workflows] schema [generateJobsSchemas] returns has one property
    per workflow and requires the slugs of the tasks. *)
Theorem workflows_schema_requires_the_task_slugs
    (jobsConfig : JobsConfig) (ts : list Task) (ws : list Workflow)
    (reg reg' : Registry) (schemas : JobsSchemas) :
  tasks jobsConfig = Some ts ->
  workflows jobsConfig = Some ws ->
  ws ≠ [] ->
  generateJobsSchemas jobsConfig ids reg = (Normal schemas, reg') ->
  js_workflows schemas
  = VObj [ ("type", VStr "object");
           ("additionalProperties", VBool false);
           ("properties", VObj (fromEntries (map workflowEntry ws)));
           ("required", strings (map task_slug ts)) ].
Proof.
  intros Htasks Hflows Hsome Hrun.
  refine (wp_run _ (fun schemas _ => js_workflows schemas = _) _ _ _ _ Hrun).
  unfold generateJobsSchemas. rewrite Htasks, Hflows.
  apply wp_bind, wp_any. intros afterTasks reg1.
  destruct ws as [| workflow rest]; [congruence |].
  cbn [nonEmpty length Nat.eqb negb].
  eapply wp_mono.
  - apply (wp_foldM _ (fun (pre : list Workflow) (acc : JobsSchemas) (_ : Registry) =>
                         pre ≠ [] ->
                         js_workflows acc
                         = VObj [ ("type", VStr "object");
                                  ("additionalProperties", VBool false);
                                  ("properties",
                                    VObj (fromEntries (map workflowEntry (workflow :: rest))));
                                  ("required", strings (map task_slug ts)) ])).
    + intros pre x acc s _ _. apply wp_bind, wp_any. intros definitions s'.
      apply wp_ret. intros _. reflexivity.
    + intros H. congruence.
  - intros acc s Hacc. apply Hacc. discriminate.
Qed.

(** X27. Every key the caller's registry holds before
    [fieldsToJSONSchema] is still one of its keys afterwards, whether
    derivation returns or throws. *)
Theorem derivation_never_removes_a_registry_key
    (fields : list Field) (reg : Registry) (k : string) :
  In k (keys reg) ->
  In k (keys (snd (fieldsToJSONSchema ids fields reg))).
Proof. apply grows_fieldsToJSONSchema, grows_all. Qed.

End Jobs.

(** *** The theorems at work on the sample config *)

Lemma derivation_never_removes_a_registry_key_witness :
  In "Kept" (keys (snd (fieldsToJSONSchema SchemaSamples.ids
                          [SchemaSamples.items; SchemaSamples.body]
                          [("Kept", VObj [])]))).
Proof.
  apply (derivation_never_removes_a_registry_key SchemaSamples.ids
           [SchemaSamples.items; SchemaSamples.body] [("Kept", VObj [])] "Kept").
  left. reflexivity.
Defined.

Lemma derived_names_are_distinct_witness :
  match fst (fieldsToJSONSchema SchemaSamples.ids
               [SchemaSamples.title; ShapeSamples.row; SchemaSamples.title] []) with
  | Normal out => NoDup (keys (properties out)) /\ NoDup (required_ out)
  | Abrupt _ => False
  end.
Proof.
  exact (derived_names_are_distinct SchemaSamples.ids
           [SchemaSamples.title; ShapeSamples.row; SchemaSamples.title] [] _ _ eq_refl).
Defined.

Lemma required_field_is_listed_witness :
  match fst (fieldsToJSONSchema SchemaSamples.ids
               [ShapeSamples.summary; SchemaSamples.title] []) with
  | Normal out => In "title" (required_ out)
  | Abrupt _ => False
  end.
Proof.
  refine (required_field_is_listed SchemaSamples.ids
            [ShapeSamples.summary; SchemaSamples.title] SchemaSamples.title "title" [] _ _
            _ eq_refl eq_refl eq_refl eq_refl).
  right. left. reflexivity.
Defined.

Lemma nothing_is_required_unless_marked_witness :
  match fst (fieldsToJSONSchema SchemaSamples.ids
               [ShapeSamples.summary;
                MkField None SchemaSamples.plain (KRow [SchemaSamples.caption])] []) with
  | Normal out => required_ out = []
  | Abrupt _ => False
  end.
Proof.
  exact (proj1 (nothing_is_required_unless_marked SchemaSamples.ids
                  [ShapeSamples.summary;
                   MkField None SchemaSamples.plain (KRow [SchemaSamples.caption])]
                  [] _ _ eq_refl eq_refl)).
Defined.

Lemma outcome_does_not_depend_on_the_registry_witness :
  fst (fieldsToJSONSchema SchemaSamples.ids [SchemaSamples.items; ShapeSamples.address] [])
  = fst (fieldsToJSONSchema SchemaSamples.ids [SchemaSamples.items; ShapeSamples.address]
           [("Foo", VStr "taken"); ("Address", VStr "taken")]).
Proof.
  exact (outcome_does_not_depend_on_the_registry SchemaSamples.ids
           [SchemaSamples.items; ShapeSamples.address] []
           [("Foo", VStr "taken"); ("Address", VStr "taken")] eq_refl).
Defined.

Lemma interface_named_groups_and_blocks_are_lifted_witness :
  In "Hero" (keys (snd (fieldsToJSONSchema SchemaSamples.ids
                          [ShapeSamples.address; ShapeSamples.layout] []))) /\
  In "Address" (keys (snd (fieldsToJSONSchema SchemaSamples.ids
                             [ShapeSamples.address; ShapeSamples.layout] []))).
Proof.
  split.
  - refine (proj1 (interface_named_groups_and_blocks_are_lifted SchemaSamples.ids "Hero" _)
              [ShapeSamples.address; ShapeSamples.layout] [] _ _ eq_refl eq_refl).
    discriminate.
  - refine (proj1 (interface_named_groups_and_blocks_are_lifted SchemaSamples.ids "Address" _)
              [ShapeSamples.address; ShapeSamples.layout] [] _ _ eq_refl eq_refl).
    discriminate.
Defined.

Lemma rows_and_collapsibles_are_transparent_witness :
  fieldsToJSONSchema SchemaSamples.ids
    [ShapeSamples.summary; ShapeSamples.row; SchemaSamples.caption] []
  = fieldsToJSONSchema SchemaSamples.ids
      [ShapeSamples.summary; SchemaSamples.title; SchemaSamples.items; SchemaSamples.caption]
      [].
Proof.
  exact (rows_and_collapsibles_are_transparent SchemaSamples.ids
           [ShapeSamples.summary] [SchemaSamples.caption]
           [SchemaSamples.title; SchemaSamples.items] None SchemaSamples.plain
           (KRow [SchemaSamples.title; SchemaSamples.items]) [] (or_introl eq_refl)).
Defined.

Lemma unnamed_tabs_are_transparent_witness :
  fieldsToJSONSchema SchemaSamples.ids
    [ ShapeSamples.summary;
      MkField None SchemaSamples.plain
        (KTabs [mkTab None [SchemaSamples.title]; mkTab None [SchemaSamples.items]]);
      SchemaSamples.caption ] []
  = fieldsToJSONSchema SchemaSamples.ids
      [ShapeSamples.summary; SchemaSamples.title; SchemaSamples.items; SchemaSamples.caption]
      [].
Proof.
  refine (unnamed_tabs_are_transparent SchemaSamples.ids
            [ShapeSamples.summary] [SchemaSamples.caption] None SchemaSamples.plain
            [mkTab None [SchemaSamples.title]; mkTab None [SchemaSamples.items]] [] _).
  repeat constructor.
Defined.

Lemma required_names_have_properties_witness :
  match fst (fieldsToJSONSchema SchemaSamples.ids
               [ShapeSamples.summary; ShapeSamples.row; ShapeSamples.address] []) with
  | Normal out => In "title" (keys (properties out))
  | Abrupt _ => False
  end.
Proof.
  refine (required_names_have_properties SchemaSamples.ids
            [ShapeSamples.summary; ShapeSamples.row; ShapeSamples.address] [] _ _
            eq_refl eq_refl "title" _).
  vm_compute. tauto.
Defined.

Lemma entity_schema_requires_id_witness :
  exists props names,
    fst (ShapeSamples.entityToJSONSchema SchemaSamples.config 0 (Some IDText)
           (Some SchemaSamples.ids) ShapeSamples.world)
    = Normal (VObj [ ("type", VStr "object");
                     ("additionalProperties", VBool false);
                     ("title", VStr "posts");
                     ("properties", VObj props);
                     ("required", strings names) ]) /\
    In "id" names /\ NoDup names.
Proof.
  destruct (ShapeSamples.entityToJSONSchema SchemaSamples.config 0 (Some IDText)
              (Some SchemaSamples.ids) ShapeSamples.world) as [[jsonSchema | ex] w'] eqn:Hrun;
    [| vm_compute in Hrun; discriminate Hrun].
  destruct (entity_schema_requires_id SchemaSamples.singular SchemaSamples.toWords
              SchemaSamples.getCollectionIDFieldTypes SchemaSamples.config 0 (Some IDText)
              SchemaSamples.ids ShapeSamples.world w' SchemaSamples.posts jsonSchema
              eq_refl ltac:(intros c Hc; discriminate Hc) Hrun)
    as [props [names [-> Hnames]]].
  exists props, names. split; [reflexivity | exact Hnames].
Defined.

Lemma entity_schema_requires_timestamps_witness :
  exists props names,
    fst (ShapeSamples.entityToJSONSchema SchemaSamples.config 1 (Some IDText)
           (Some SchemaSamples.ids) ShapeSamples.world)
    = Normal (VObj [ ("type", VStr "object");
                     ("additionalProperties", VBool false);
                     ("title", VStr "users");
                     ("properties", VObj props);
                     ("required", strings names) ]) /\
    In "createdAt" names.
Proof.
  destruct (ShapeSamples.entityToJSONSchema SchemaSamples.config 1 (Some IDText)
              (Some SchemaSamples.ids) ShapeSamples.world) as [[jsonSchema | ex] w'] eqn:Hrun;
    [| vm_compute in Hrun; discriminate Hrun].
  destruct (entity_schema_requires_timestamps SchemaSamples.singular SchemaSamples.toWords
              SchemaSamples.getCollectionIDFieldTypes SchemaSamples.config 1 (Some IDText)
              SchemaSamples.ids ShapeSamples.world w' SchemaSamples.users
              (MkField (Some "createdAt") SchemaSamples.plain KDate) "createdAt" jsonSchema
              eq_refl eq_refl (or_intror (or_introl eq_refl)) eq_refl (or_introl eq_refl)
              eq_refl eq_refl Hrun)
    as [props [names [-> Hnames]]].
  exists props, names. split; [reflexivity | exact Hnames].
Defined.

Lemma auth_collection_schema_has_password_witness :
  exists props names,
    fst (ShapeSamples.entityToJSONSchema SchemaSamples.config 1 (Some IDText)
           (Some SchemaSamples.ids) ShapeSamples.world)
    = Normal (VObj [ ("type", VStr "object");
                     ("additionalProperties", VBool false);
                     ("title", VStr "users");
                     ("properties", VObj props);
                     ("required", strings names) ]) /\
    objGet "password" props = Some (VObj [("type", VArr [VStr "string"; VStr "null"])]).
Proof.
  destruct (ShapeSamples.entityToJSONSchema SchemaSamples.config 1 (Some IDText)
              (Some SchemaSamples.ids) ShapeSamples.world) as [[jsonSchema | ex] w'] eqn:Hrun;
    [| vm_compute in Hrun; discriminate Hrun].
  destruct (auth_collection_schema_has_password SchemaSamples.singular SchemaSamples.toWords
              SchemaSamples.getCollectionIDFieldTypes SchemaSamples.config 1 (Some IDText)
              SchemaSamples.ids ShapeSamples.world w' SchemaSamples.users
              (mkAuth false None) jsonSchema eq_refl eq_refl eq_refl Hrun)
    as [props [names [-> Hpassword]]].
  exists props, names. split; [reflexivity | exact Hpassword].
Defined.

Lemma every_entity_has_a_definition_witness :
  exists jsonSchema h' definitions,
    SchemaSamples.configToJSONSchema SchemaSamples.config (Some IDText) SchemaSamples.heap
    = (Normal jsonSchema, h') /\
    definitionsOf jsonSchema = Some definitions /\
    is_Some (objGet "users" definitions) /\
    is_Some (objGet "auth" definitions).
Proof.
  destruct (SchemaSamples.configToJSONSchema SchemaSamples.config (Some IDText)
              SchemaSamples.heap) as [[jsonSchema | ex] h'] eqn:Hrun;
    [| vm_compute in Hrun; discriminate Hrun].
  destruct (every_entity_has_a_definition SchemaSamples.singular SchemaSamples.toWords
              SchemaSamples.getCollectionIDFieldTypes SchemaSamples.config (Some IDText)
              SchemaSamples.heap h' 1 SchemaSamples.users jsonSchema
              eq_refl (or_intror (or_introl eq_refl)) eq_refl Hrun)
    as [definitions [Hdefs Hkeys]].
  exists jsonSchema, h', definitions. split; [reflexivity | split; assumption].
Defined.

Lemma workflows_without_tasks_throw_witness :
  exists what,
    fst (generateJobsSchemas ShapeSamples.unscheduled SchemaSamples.ids [])
    = Abrupt (TypeError what).
Proof.
  exact (workflows_without_tasks_throw SchemaSamples.ids ShapeSamples.unscheduled
           (mkWorkflow "sync" [SchemaSamples.title]) [] [] eq_refl eq_refl eq_refl).
Defined.

Lemma workflows_schema_requires_the_task_slugs_witness :
  match fst (generateJobsSchemas ShapeSamples.scheduled SchemaSamples.ids []) with
  | Normal schemas =>
      js_workflows schemas
      = VObj [ ("type", VStr "object");
               ("additionalProperties", VBool false);
               ("properties",
                 VObj [("sync",
                        VObj [ ("type", VStr "object");
                               ("additionalProperties", VBool false);
                               ("properties", VObj [("input", VObj [])]);
                               ("required", VArr [VStr "input"]) ])]);
               ("required", VArr [VStr "send"]) ]
  | Abrupt _ => False
  end.
Proof.
  refine (workflows_schema_requires_the_task_slugs SchemaSamples.ids ShapeSamples.scheduled
            [mkTask "send" [] []] [mkWorkflow "sync" []] [] _ _
            eq_refl eq_refl _ eq_refl).
  discriminate.
Defined.

End ShapeFacts.
